(** * miniGraphics: the main loop (Common/MainLoop.cpp)

    A shallow embedding of the command-line front end of miniGraphics and
    of the paint / compose / gather pipeline it drives, as seen from one
    MPI rank.  Calls into collaborators (painter, compositor, MPI, file
    system, YAML writer) are recorded in an event trace, so that statements
    about "what is called with what" become statements about traces. *)

From Stdlib Require Import ZArith List String Ascii Bool Lia QArith.
From Stdlib Require Import DecimalString.
From Stdlib Require DecimalPos DecimalZ.
Import ListNotations.
Local Close Scope Q_scope.
Local Open Scope string_scope.
Local Open Scope Z_scope.

(** ** C strings and the C library *)

Module CLib.

(** [isspace] in the "C" locale: space, \t, \n, \v, \f, \r. *)
Definition isspace (c : ascii) : bool :=
  let n := Z.of_nat (nat_of_ascii c) in
  (n =? 32) || ((9 <=? n) && (n <=? 13)).

Definition digit_val (c : ascii) : option Z :=
  let n := Z.of_nat (nat_of_ascii c) in
  if (48 <=? n) && (n <=? 57) then Some (n - 48) else None.

Fixpoint skip_space (s : string) : string :=
  match s with
  | String c r => if isspace c then skip_space r else s
  | EmptyString => s
  end.

(** The value of the longest prefix of decimal digits ([acc] when there is
    none). *)
Fixpoint digits (s : string) (acc : Z) : Z :=
  match s with
  | String c r =>
      match digit_val c with
      | Some d => digits r (10 * acc + d)
      | None => acc
      end
  | EmptyString => acc
  end.

Definition LONG_MAX : Z := 2 ^ 63 - 1.
Definition LONG_MIN : Z := - 2 ^ 63.
Definition INT_MAX : Z := 2 ^ 31 - 1.
Definition INT_MIN : Z := - 2 ^ 31.

(** [strtol (s, NULL, 10)] on an LP64 platform: leading white space, an
    optional sign, decimal digits; out-of-range values saturate. *)
Definition strtol10 (s : string) : Z :=
  match skip_space s with
  | String "-" r => Z.max LONG_MIN (- digits r 0)
  | String "+" r => Z.min LONG_MAX (digits r 0)
  | r => Z.min LONG_MAX (digits r 0)
  end.

(** Conversion of a [long] to [int]: the low 32 bits, two's complement. *)
Definition to_int (z : Z) : Z := (z + 2 ^ 31) mod 2 ^ 32 - 2 ^ 31.

(** [atoi (s)] is [(int) strtol (s, NULL, 10)]. *)
Definition atoi (s : string) : Z := to_int (strtol10 s).

(** Decimal output of an [int], as [operator<<] prints it. *)
Definition string_of_int (z : Z) : string :=
  NilZero.string_of_int (Z.to_int z).

End CLib.

(** ** The option parser (optionparser.h), as MainLoop uses it

    Modelled from the spec: the option parser, third-party code the
    repository bundles and whose source is not part of this file's input.
    The spec leaves command-line argument parsing to this collaborator;
    the model follows the documented behaviour of the library in the way
    [MainLoop] calls it: POSIX mode (the first non-option argument ends the
    option list), no abbreviations, no single-minus long options, unlimited
    buffer; an unknown option is stored under the dummy descriptor, and a
    validator's ARG_ILLEGAL is fatal to the parse. *)

Module OptionParser.

Inductive ArgStatus := ARG_NONE | ARG_OK | ARG_IGNORE | ARG_ILLEGAL.

(** A parsed option: the index and type of its descriptor, its name as a
    C string (pointing into the argument vector) and its argument, null
    when there is none. *)
Record Option := mkOption {
  index : Z;
  type : Z;
  name : string;
  arg : option string
}.

(** A validator returns its verdict together with what it wrote to
    [std::cerr]. *)
Definition CheckArg := Option -> bool -> ArgStatus * list string.

(** The help text of a descriptor is left out: it only feeds
    [option::printUsage]. *)
Record Descriptor := mkDescriptor {
  d_index : Z;
  d_type : Z;
  shortopt : option string;
  longopt : option string;
  check_arg : CheckArg
}.

(** [option::Arg::None]. *)
Definition Arg_None : CheckArg := fun _ _ => (ARG_NONE, []).

(** The terminating descriptor [{0, 0, 0, 0, 0, 0}].  Its validator is null
    in the source and is never called: a descriptor whose [shortopt] is null
    is never selected. *)
Definition terminator : Descriptor :=
  mkDescriptor 0 0 None None Arg_None.

(** [streq (st1, st2)]: [st1] is a prefix of [st2] and what follows it in
    [st2] is the end of the string or '='. *)
Fixpoint streq (st1 st2 : string) : bool :=
  match st1 with
  | EmptyString =>
      match st2 with
      | EmptyString => true
      | String c _ => Ascii.eqb c "="
      end
  | String a r1 =>
      match st2 with
      | EmptyString => false
      | String b r2 => if Ascii.eqb a b then streq r1 r2 else false
      end
  end.

(** [instr (ch, st)]: [ch] occurs in [st]. *)
Fixpoint instr (ch : ascii) (st : string) : bool :=
  match st with
  | EmptyString => false
  | String c r => if Ascii.eqb c ch then true else instr ch r
  end.

(** The first descriptor whose [longopt] is null or matches. *)
Fixpoint find_long (usage : list Descriptor) (longopt_name : string)
  : Descriptor :=
  match usage with
  | [] => terminator
  | d :: rest =>
      match longopt d with
      | None => d
      | Some l => if streq l longopt_name then d else find_long rest longopt_name
      end
  end.

(** The first descriptor whose [shortopt] is null or contains [ch]. *)
Fixpoint find_short (usage : list Descriptor) (ch : ascii) : Descriptor :=
  match usage with
  | [] => terminator
  | d :: rest =>
      match shortopt d with
      | None => d
      | Some s => if instr ch s then d else find_short rest ch
      end
  end.

(** The dummy descriptor for unknown options: the first one whose
    [shortopt] and [longopt] are both the empty string, if any comes
    before the terminator. *)
Fixpoint find_dummy (usage : list Descriptor) : option Descriptor :=
  match usage with
  | [] => None
  | d :: rest =>
      match shortopt d with
      | None => None
      | Some s =>
          match s, longopt d with
          | EmptyString, Some EmptyString => Some d
          | _, _ => find_dummy rest
          end
      end
  end.

(** The descriptor the parser uses for what [find_long] or [find_short]
    returned. *)
Definition resolve (usage : list Descriptor) (d : Descriptor)
  : option Descriptor :=
  match shortopt d with
  | None => find_dummy usage
  | Some _ => Some d
  end.

(** The attached argument of a long option: what follows the first '='. *)
Fixpoint attached_arg (s : string) : option string :=
  match s with
  | EmptyString => None
  | String c r => if Ascii.eqb c "=" then Some r else attached_arg r
  end.

(** What handling one element of the argument vector does. *)
Inductive Step :=
| Break                      (* a non-option argument: the option list ends here *)
| DashDash                   (* "--": the option list ends after it *)
| Illegal (msgs : list string)   (* a validator said ARG_ILLEGAL: fatal *)
| Continue (stored : list Option) (msgs : list string) (skip_next : bool).

(** One option with its potential argument [optarg]; [detached] tells that
    [optarg] is the next element of the argument vector.  The result is
    the validator's verdict and messages, the option as it is stored, and
    whether the next element of the argument vector was taken as the
    argument. *)
Definition check_and_store (d : Descriptor) (nm : string)
    (optarg : option string) (detached : bool)
  : ArgStatus * list string * Option * bool :=
  let option := mkOption (d_index d) (d_type d) nm optarg in
  let '(st, msgs) := check_arg d option true in
  match st with
  | ARG_ILLEGAL => (st, msgs, option, false)
  | ARG_OK =>
      (st, msgs, option,
       match optarg with Some _ => detached | None => false end)
  | ARG_IGNORE | ARG_NONE =>
      (st, msgs, mkOption (d_index d) (d_type d) nm None, false)
  end.

(** A group of short options; [param] is what is left of the group, the
    current option character first. *)
Fixpoint short_group (usage : list Descriptor) (param : string)
    (next : option string) (stored : list Option) (msgs : list string)
  : Step :=
  match param with
  | EmptyString => Continue stored msgs false
  | String ch tl =>
      let '(optarg, detached) :=
        match tl with
        | EmptyString => (next, true)
        | _ => (Some tl, false)
        end in
      match resolve usage (find_short usage ch) with
      | None => short_group usage tl next stored msgs
      | Some d =>
          let '(st, m, option, skip) := check_and_store d param optarg detached in
          match st with
          | ARG_ILLEGAL => Illegal (msgs ++ m)
          | ARG_OK => Continue (stored ++ [option]) (msgs ++ m) skip
          | ARG_IGNORE | ARG_NONE =>
              short_group usage tl next (stored ++ [option]) (msgs ++ m)
          end
      end
  end.

Definition long_option (usage : list Descriptor) (param : string)
    (longopt_name : string) (next : option string) : Step :=
  let '(optarg, detached) :=
    match attached_arg longopt_name with
    | Some a => (Some a, false)
    | None => (next, true)
    end in
  match resolve usage (find_long usage longopt_name) with
  | None => Continue [] [] false
  | Some d =>
      let '(st, m, option, skip) := check_and_store d param optarg detached in
      match st with
      | ARG_ILLEGAL => Illegal m
      | _ => Continue [option] m skip
      end
  end.

(** One iteration of the parser's loop over the argument vector: [param] is
    the current element, [next] the one after it (null at the end). *)
Definition step (usage : list Descriptor) (param : string)
    (next : option string) : Step :=
  match param with
  | String "-" (String "-" EmptyString) => DashDash
  | String "-" (String "-" longopt_name) =>
      long_option usage param longopt_name next
  | String "-" EmptyString => Break
  | String "-" group => short_group usage group next [] []
  | _ => Break
  end.

(** The state of an [option::Parser] after parsing. *)
Record Parser := mkParser {
  error : bool;
  buffer : list Option;          (* the options, in command-line order *)
  nonOptions : list string;
  messages : list string         (* what the validators wrote to std::cerr *)
}.

(** Modelled from the spec: [option::Parser::workhorse] (see the head of
    this module), the loop over the argument vector. *)
Fixpoint workhorse (usage : list Descriptor) (args : list string)
    (buf : list Option) (msgs : list string) : Parser :=
  match args with
  | [] => mkParser false buf [] msgs
  | param :: rest =>
      match step usage param (hd_error rest) with
      | Break => mkParser false buf args msgs
      | DashDash => mkParser false buf rest msgs
      | Illegal m => mkParser true buf [] (msgs ++ m)
      | Continue stored m skip =>
          match skip, rest with
          | true, _ :: rest' => workhorse usage rest' (buf ++ stored) (msgs ++ m)
          | _, _ => workhorse usage rest (buf ++ stored) (msgs ++ m)
          end
      end
  end.

(** [option::Parser parse (usage, argc, argv, options, buffer)]. *)
Definition parse (usage : list Descriptor) (args : list string) : Parser :=
  workhorse usage args [] [].

(** [options[i]]: the occurrences of the options whose descriptor has index
    [i], first to last. *)
Definition options (p : Parser) (i : Z) : list Option :=
  filter (fun o => index o =? i) (buffer p).

(** [options[i]] in a boolean context. *)
Definition present (l : list Option) : bool :=
  match l with [] => false | _ => true end.

Definition nonOptionsCount (p : Parser) : Z := Z.of_nat (List.length (nonOptions p)).

End OptionParser.

(** ** Data: floating point, meshes, images *)

(** The types the program takes from elsewhere: [float] and GLM's vectors
    and matrices, the geometry of a mesh, and the pixel storage of an
    image. *)
Record Types := {
  float : Type;
  vec3 : Type;
  mat4 : Type;
  Geometry : Type;
  Pixels : Type
}.

Inductive Painter := PainterSimple | PainterOpenGL.

(** The four concrete image classes. *)
Inductive ImageKind :=
| ImageRGBAUByteColorFloatDepth
| ImageRGBFloatColorDepth
| ImageRGBAUByteColorOnly
| ImageRGBAFloatColorOnly.

(** Modelled from the spec: [Image::blendIsOrderDependent] of the four image
    classes (their sources are not part of this file's input), after the
    table of encodings: z-less-wins blending for the depth-bearing
    encodings is not order dependent, alpha-over blending for the
    color-only encodings is. *)
Definition kindIsOrderDependent (k : ImageKind) : bool :=
  match k with
  | ImageRGBAUByteColorFloatDepth => false
  | ImageRGBFloatColorDepth => false
  | ImageRGBAUByteColorOnly => true
  | ImageRGBAFloatColorOnly => true
  end.

(** Arithmetic on [int]: signed overflow is undefined behaviour, so the
    product is defined only when it is representable. *)
Definition int_mul (a b : Z) : option Z :=
  let p := a * b in
  if (CLib.INT_MIN <=? p) && (p <=? CLib.INT_MAX) then Some p else None.

Section Data.
Context {T : Types}.

(** A mesh: its geometry, and the triangle color buffer as the contiguous
    run of floats from [getTriangleColorsBuffer (0)] up to
    [getTriangleColorsBuffer (getNumberOfTriangles ())]. *)
Record Mesh := mkMesh {
  geometry : Geometry T;
  colors : list (float T)
}.

(** An image: its class, the dimensions of the full framebuffer, the
    half-open range of pixel indices it stores, and the stored pixels. *)
Record Image := mkImage {
  kind : ImageKind;
  getWidth : Z;
  getHeight : Z;
  getRegionBegin : Z;
  getRegionEnd : Z;
  pixels : Pixels T
}.

Definition blendIsOrderDependent (i : Image) : bool :=
  kindIsOrderDependent (kind i).

Definition withPixels (i : Image) (p : Pixels T) : Image :=
  mkImage (kind i) (getWidth i) (getHeight i)
          (getRegionBegin i) (getRegionEnd i) p.

Inductive YamlValue :=
| YString (s : string)
| YInt (i : Z)
| YFloat (f : float T).

(** What one rank does to the outside, in program order. *)
Inductive Event :=
| EvYaml (key : string) (value : YamlValue)   (* yaml.AddDictionaryEntry *)
| EvTimer (key : string)                      (* a Timer leaves its scope *)
| EvCout (s : string)
| EvCerr (s : string)
| EvPrintUsage (to_cerr : bool)
| EvMPI_Init
| EvMPI_Finalize
| EvMPI_Allreduce
| EvMPI_Barrier
| EvNew (i : Image)                           (* new ImageX (w, h) *)
| EvSetOptions
| EvReadSTL (filename : string)
| EvMakeBox
| EvMeshScatter (m : Mesh)
| EvMeshBroadcast (m : Mesh) (overlap : float T)
| EvVisibilitySort (m : Mesh) (modelview projection : mat4 T)
| EvPaint (p : Painter) (m : Mesh) (i : Image) (modelview projection : mat4 T)
| EvCompose (i : Image)
| EvGather (i : Image) (recvRank : Z)
| EvSavePPM (i : Image) (filename : string)
| EvWriteFile (filename : string).

(** The collaborators of the main loop, as one rank sees them.  A
    collective is the function from what this rank contributes to what it
    gets back, the other ranks being fixed. *)
Record Env := {
  (* float and GLM *)
  of_Q : Q -> float T;                  (* a literal *)
  of_int : Z -> float T;                (* (float) i *)
  fmul : float T -> float T -> float T;
  fdiv : float T -> float T -> float T;
  fsqrt : float T -> float T;
  radians : float T -> float T;
  strtof : string -> float T * nat;     (* the value, the characters used *)
  mkvec3 : float T -> float T -> float T -> vec3 T;
  vadd : vec3 T -> vec3 T -> vec3 T;
  vsub : vec3 T -> vec3 T -> vec3 T;
  vneg : vec3 T -> vec3 T;
  vscale : float T -> vec3 T -> vec3 T;
  dot : vec3 T -> vec3 T -> float T;
  mat4_diag : float T -> mat4 T;
  translate : mat4 T -> vec3 T -> mat4 T;
  rotate : mat4 T -> float T -> vec3 T -> mat4 T;
  perspective : float T -> float T -> float T -> float T -> mat4 T;
  (* Mesh, MeshHelper, ReadSTL, MakeBox *)
  emptyMesh : Mesh;
  getBoundsMin : Mesh -> vec3 T;
  getBoundsMax : Mesh -> vec3 T;
  getNumberOfTriangles : Mesh -> Z;
  ReadSTL : string -> Mesh -> bool * Mesh;
  MakeBox : Mesh -> Mesh;
  meshVisibilitySort : Mesh -> mat4 T -> mat4 T -> Mesh;
  meshScatter : Mesh -> Mesh;
  meshBroadcast : Mesh -> float T -> Mesh;
  (* MPI and the operating system *)
  rank : Z;
  numProc : Z;
  Allreduce_MIN : vec3 T -> vec3 T;
  Allreduce_MAX : vec3 T -> vec3 T;
  Allreduce_SUM : Z -> Z;
  getpid : Z;
  (* images and painters *)
  clearPixels : ImageKind -> Z -> Pixels T;
  gatheredPixels : Image -> option (Pixels T);
  paint : Painter -> Mesh -> Image -> mat4 T -> mat4 T -> Pixels T;
  (* miniGraphicsConfig.h *)
  MINIGRAPHICS_ENABLE_OPENGL : bool
}.

(** A compositor: [setOptions] and [compose] (over the group of all
    ranks), as this rank sees them. *)
Record Compositor := {
  setOptions : (Z -> list OptionParser.Option) -> bool;
  compose : Image -> option Image
}.

End Data.
Arguments Mesh : clear implicits.
Arguments Image : clear implicits.
Arguments Event : clear implicits.
Arguments Env : clear implicits.
Arguments Compositor : clear implicits.
Arguments YamlValue : clear implicits.

(** ** Control: early return, abnormal termination, the event trace *)

Inductive Outcome (A : Type) :=
| Next (a : A)                 (* execution goes on *)
| Returned (status : Z)        (* MainLoop has returned *)
| Aborted.                     (* the process has died: undefined behaviour, or
                                  a failure nothing handles *)
Arguments Next {A} a.
Arguments Returned {A} status.
Arguments Aborted {A}.

Section Monad.
Context {T : Types}.

(** A computation: how it ends, and the events it gave rise to. *)
Definition M (A : Type) : Type := (Outcome A * list (Event T))%type.

Definition ret {A} (a : A) : M A := (Next a, []).

Definition bind {A B} (m : M A) (k : A -> M B) : M B :=
  match m with
  | (Next a, w) => let '(o, w') := k a in (o, (w ++ w')%list)
  | (Returned s, w) => (Returned s, w)
  | (Aborted, w) => (Aborted, w)
  end.

Definition emit (e : Event T) : M unit := (Next tt, [e]).

(** [return status;] *)
Definition returning {A} (status : Z) : M A := (Returned status, []).

Definition abort {A} : M A := (Aborted, []).

(** A value that must be there for execution to go on: a non-null pointer
    that is dereferenced, the result of an operation that can fail. *)
Definition must {A} (o : option A) : M A :=
  match o with
  | Some a => ret a
  | None => abort
  end.

Definition emit_all (es : list (Event T)) : M unit := (Next tt, es).

Definition outcome {A} (m : M A) : Outcome A := fst m.
Definition trace {A} (m : M A) : list (Event T) := snd m.

(** The status a computation of [MainLoop] returns, if it returns. *)
Definition exit_status (m : M Z) : option Z :=
  match outcome m with
  | Next s => Some s
  | Returned s => Some s
  | Aborted => None
  end.

End Monad.

Declare Scope main_scope.
Delimit Scope main_scope with main.
Notation "x <- c1 ;; c2" := (bind c1 (fun x => c2))
  (at level 61, c1 at next level, right associativity) : main_scope.
Notation "c1 ;; c2" := (bind c1 (fun _ => c2))
  (at level 61, right associativity) : main_scope.
Local Open Scope main_scope.

(** ** The enumerations of MainLoop.cpp *)

Definition DUMMY : Z := 100.
Definition HELP : Z := 101.
Definition WIDTH : Z := 102.
Definition HEIGHT : Z := 103.
Definition YAML_OUTPUT : Z := 104.
Definition WRITE_IMAGE : Z := 105.
Definition PAINTER : Z := 106.
Definition GEOMETRY : Z := 107.
Definition DISTRIBUTION : Z := 108.
Definition OVERLAP : Z := 109.
Definition COLOR_FORMAT : Z := 110.
Definition DEPTH_FORMAT : Z := 111.

Definition DISABLE : Z := 0.
Definition ENABLE : Z := 1.
Definition SIMPLE_RASTER : Z := 0.
Definition OPENGL : Z := 1.
Definition BOX : Z := 0.
Definition STL_FILE : Z := 1.
Definition DUPLICATE : Z := 0.
Definition DIVIDE : Z := 1.
Definition COLOR_UBYTE : Z := 0.
Definition COLOR_FLOAT : Z := 1.
Definition DEPTH_FLOAT : Z := 0.
Definition DEPTH_NONE : Z := 1.

(** ** The validators *)

Import OptionParser.

Definition PositiveIntArg : CheckArg := fun option messageOnError =>
  match arg option with
  | Some a =>
      let value := CLib.atoi a in
      if value <? 1 then
        (ARG_ILLEGAL,
         if messageOnError then
           ["Option " ++ name option
            ++ " requires a positive integer argument. Argument '"
            ++ a ++ "' is not valid."]
         else [])
      else (ARG_OK, [])
  | None =>
      (ARG_ILLEGAL,
       if messageOnError then
         ["Option " ++ name option ++ " requires an integer argument."]
       else [])
  end.

Definition NonemptyStringArg : CheckArg := fun option messageOnError =>
  match arg option with
  | Some (String _ _) => (ARG_OK, [])
  | _ =>
      (ARG_ILLEGAL,
       if messageOnError then
         ["Option " ++ name option ++ " requires an argument."]
       else [])
  end.

Section Program.
Context {T : Types} (E : Env T).

Definition FloatArg : CheckArg := fun option messageOnError =>
  match arg option with
  | Some a =>
      if (snd (strtof E a) =? 0)%nat then
        (ARG_ILLEGAL,
         if messageOnError then
           ["Option " ++ name option
            ++ " requires a floating point number argument. Argument '"
            ++ a ++ "' is not valid."]
         else [])
      else (ARG_OK, [])
  | None =>
      (ARG_ILLEGAL,
       if messageOnError then
         ["Option " ++ name option ++ " requires a float argument."]
       else [])
  end.

(** ** Images *)

(** Modelled from the spec: [Image::createNew] (the image classes are not
    part of this file's input), after [create (w, h, b, e)]: storage for
    [e - b] pixels, all clear; [0 <= b <= e <= w * h] is required, and the
    operation fails (InvalidRegion) otherwise.  The new image has the class
    of the image it is created from. *)
Definition createNew (this : Image T) (w h b e : Z) : option (Image T) :=
  if (0 <=? b) && (b <=? e) && (e <=? w * h)
  then Some (mkImage (kind this) w h b e (clearPixels E (kind this) (e - b)))
  else None.

(** Modelled from the spec: the constructor [ImageX (width, height)] of an
    image class, as [create (w, h, 0, w * h)], the product being computed
    in [int]. *)
Definition newImage (k : ImageKind) (w h : Z) : M (Image T) :=
  e <- must (int_mul w h) ;;
  i <- must (createNew (mkImage k w h 0 0 (clearPixels E k 0)) w h 0 e) ;;
  emit (EvNew i) ;;
  ret i.

(** Modelled from the spec: [Image::Gather] (not part of this file's
    input), after [gather (root, group)]: when the callers' regions
    partition the framebuffer, root gets one image with region
    [0, w * h) and every other caller an empty image; otherwise the
    collective fails (NonPartitioningRegions).  [gatheredPixels] is what the
    collective assembles from all ranks, [None] when it fails. *)
Definition Gather (this : Image T) (recvRank : Z) : option (Image T) :=
  match gatheredPixels E this with
  | None => None
  | Some px =>
      if rank E =? recvRank
      then Some (mkImage (kind this) (getWidth this) (getHeight this)
                         0 (getWidth this * getHeight this) px)
      else Some (mkImage (kind this) (getWidth this) (getHeight this)
                         0 0 (clearPixels E (kind this) 0))
  end.

Definition yaml (key : string) (v : YamlValue T) : M unit :=
  emit (EvYaml key v).

(** [painter->paint (mesh, image, modelview, projection)]: the painter
    fills the pixels of [image] in place. *)
Definition do_paint (painter : Painter) (mesh : Mesh T) (image : Image T)
    (modelview projection : mat4 T) : M (Image T) :=
  emit (EvPaint painter mesh image modelview projection) ;;
  ret (withPixels image (paint E painter mesh image modelview projection)).

(** ** [run]: paint, compose, gather, save *)

(** The diagonal of the bounding box of all the geometry. *)
Definition view_dist (boundsMin boundsMax : vec3 T) : float T :=
  let width := vsub E boundsMax boundsMin in
  fsqrt E (dot E width width).

Definition view_modelview (boundsMin boundsMax : vec3 T) : mat4 T :=
  let center := vscale E (of_Q E 0.5) (vadd E boundsMax boundsMin) in
  let dist := view_dist boundsMin boundsMax in
  let thetaRotation := of_Q E 25 in
  let phiRotation := of_Q E 15 in
  let modelview := mat4_diag E (of_Q E 1) in
  (* Move to in front of camera. *)
  let modelview :=
    translate E modelview
      (vneg E (mkvec3 E (of_int E 0) (of_int E 0) (fmul E (of_Q E 1.5) dist))) in
  (* Rotate geometry for interesting perspectives. *)
  let modelview :=
    rotate E modelview (radians E phiRotation)
      (mkvec3 E (of_int E 1) (of_int E 0) (of_int E 0)) in
  let modelview :=
    rotate E modelview (radians E thetaRotation)
      (mkvec3 E (of_int E 0) (of_int E 1) (of_int E 0)) in
  (* Center geometry at origin. *)
  translate E modelview (vneg E center).

Definition view_projection (boundsMin boundsMax : vec3 T)
    (imageWidth imageHeight : Z) : mat4 T :=
  let dist := view_dist boundsMin boundsMax in
  let zoom := of_Q E 1 in
  perspective E (radians E (fdiv E (of_Q E 45) zoom))
    (fdiv E (of_int E imageWidth) (of_int E imageHeight))
    (fdiv E dist (of_int E 3))
    (fmul E (of_int E 2) dist).

Definition run (painter : Painter) (compositor : Compositor T)
    (mesh : Mesh T) (imageBuffer : Image T) (writeImages : bool) : M unit :=
  let rank := rank E in
  let imageWidth := getWidth imageBuffer in
  let imageHeight := getHeight imageBuffer in
  (* Gather rough geometry information *)
  emit EvMPI_Allreduce ;;
  let boundsMin := Allreduce_MIN E (getBoundsMin E mesh) in
  emit EvMPI_Allreduce ;;
  let boundsMax := Allreduce_MAX E (getBoundsMax E mesh) in
  emit EvMPI_Allreduce ;;
  let numTriangles := Allreduce_SUM E (getNumberOfTriangles E mesh) in
  yaml "num-triangles" (YInt numTriangles) ;;
  (* Set up projection matrices *)
  let modelview := view_modelview boundsMin boundsMax in
  let projection := view_projection boundsMin boundsMax imageWidth imageHeight in
  regionEnd <- must (int_mul imageWidth imageHeight) ;;
  localImage <- must (createNew imageBuffer imageWidth imageHeight 0 regionEnd) ;;
  (* Paint SECTION *)
  localImage <-
    (if blendIsOrderDependent localImage then
       emit (EvVisibilitySort mesh modelview projection) ;;
       do_paint painter (meshVisibilitySort E mesh modelview projection)
                localImage modelview projection
     else
       do_paint painter mesh localImage modelview projection) ;;
  emit (EvTimer "paint-seconds") ;;
  emit EvMPI_Barrier ;;
  (* COMPOSITION SECTION *)
  emit (EvCompose localImage) ;;
  compositeImage <- must (compose compositor localImage) ;;
  emit (EvGather compositeImage 0) ;;
  fullCompositeImage <- must (Gather compositeImage 0) ;;
  emit (EvTimer "composite-seconds") ;;
  emit (EvTimer "total-seconds") ;;
  (* SAVE FOR SANITY CHECK *)
  if writeImages then
    emit (EvSavePPM localImage
            ("local_painting" ++ CLib.string_of_int rank ++ ".ppm")) ;;
    if rank =? 0 then
      emit (EvSavePPM fullCompositeImage "composite.ppm")
    else ret tt
  else ret tt.

(** ** [MainLoop] *)

(** The descriptors of MainLoop's own options, in the order they are
    pushed. *)
Definition mainOptions (enable_opengl : bool) : list Descriptor :=
  ([ mkDescriptor DUMMY 0 (Some "") (Some "") Arg_None;
     mkDescriptor HELP 0 (Some "h") (Some "help") Arg_None;
     mkDescriptor WIDTH 0 (Some "") (Some "width") PositiveIntArg;
     mkDescriptor HEIGHT 0 (Some "") (Some "height") PositiveIntArg;
     mkDescriptor YAML_OUTPUT 0 (Some "") (Some "yaml-output") NonemptyStringArg;
     mkDescriptor WRITE_IMAGE ENABLE (Some "") (Some "enable-write-image") Arg_None;
     mkDescriptor WRITE_IMAGE DISABLE (Some "") (Some "disable-write-image") Arg_None ]
   ++ (if enable_opengl
       then [ mkDescriptor PAINTER OPENGL (Some "") (Some "paint-opengl") Arg_None ]
       else [])
   ++ [ mkDescriptor PAINTER SIMPLE_RASTER (Some "") (Some "paint-simple-raster") Arg_None;
        mkDescriptor GEOMETRY BOX (Some "") (Some "box") Arg_None;
        mkDescriptor GEOMETRY STL_FILE (Some "") (Some "stl-file") NonemptyStringArg;
        mkDescriptor DISTRIBUTION DUPLICATE (Some "") (Some "duplicate-geometry") Arg_None;
        mkDescriptor DISTRIBUTION DIVIDE (Some "") (Some "divide-geometry") Arg_None;
        mkDescriptor OVERLAP 0 (Some "") (Some "overlap") FloatArg;
        mkDescriptor COLOR_FORMAT COLOR_UBYTE (Some "") (Some "color-ubyte") Arg_None;
        mkDescriptor COLOR_FORMAT COLOR_FLOAT (Some "") (Some "color-float") Arg_None;
        mkDescriptor DEPTH_FORMAT DEPTH_FLOAT (Some "") (Some "depth-float") Arg_None;
        mkDescriptor DEPTH_FORMAT DEPTH_NONE (Some "") (Some "depth-none") Arg_None ])%list.

Definition usage (compositorOptions : list Descriptor) : list Descriptor :=
  (mainOptions (MINIGRAPHICS_ENABLE_OPENGL E)
   ++ compositorOptions ++ [terminator])%list.

(** [l.last ()], for an option that is present. *)
Definition last (l : list Option) : Option :=
  List.last l (mkOption 0 0 "" None).

(** [l.arg] and [l.name]: those of the first occurrence. *)
Definition first (l : list Option) : Option :=
  List.hd (mkOption 0 0 "" None) l.

(** If blending colors, make all colors transparent. *)
Fixpoint halveColors (buffer : list (float T)) : list (float T) :=
  match buffer with
  | [] => []
  | colorComponentValue :: rest =>
      fmul E colorComponentValue (of_Q E 0.5) :: halveColors rest
  end.

Definition MainLoop (argv : list string) (compositor : Compositor T)
    (compositorOptions : list Descriptor) : M Z :=
  yaml "composite-algorithm" (YString "binary swap") ;;
  emit EvMPI_Init ;;
  let rank := rank E in
  let numProc := numProc E in
  yaml "num-processes" (YInt numProc) ;;
  let usage := usage compositorOptions in
  let imageWidth := 1100 in
  let imageHeight := 900 in
  let yamlFilename := "timing.yaml" in
  let writeImages := true in
  let painter := PainterSimple in
  let overlap := of_Q E (-0.05) in
  let colorFormat := COLOR_UBYTE in
  let depthFormat := DEPTH_FLOAT in
  (* Skip program name *)
  let parse := OptionParser.parse usage (tl argv) in
  let options := OptionParser.options parse in
  emit_all (map EvCerr (messages parse)) ;;
  (if error parse then returning 1 else ret tt) ;;
  (if present (options HELP) then
     emit (EvPrintUsage false) ;; returning 0
   else ret tt) ;;
  (if present (options DUMMY) then
     emit (EvCerr ("Unknown option: " ++ name (first (options DUMMY)))) ;;
     emit (EvPrintUsage true) ;; returning 1
   else ret tt) ;;
  (if nonOptionsCount parse >? 0 then
     emit (EvCerr ("Unknown option: " ++ hd "" (nonOptions parse))) ;;
     emit (EvPrintUsage true) ;; returning 1
   else ret tt) ;;
  emit EvSetOptions ;;
  (if negb (setOptions compositor options) then
     emit (EvPrintUsage true) ;; returning 1
   else ret tt) ;;
  imageWidth <-
    (if present (options WIDTH) then
       a <- must (arg (first (options WIDTH))) ;; ret (CLib.atoi a)
     else ret imageWidth) ;;
  yaml "image-width" (YInt imageWidth) ;;
  imageHeight <-
    (if present (options HEIGHT) then
       a <- must (arg (first (options HEIGHT))) ;; ret (CLib.atoi a)
     else ret imageHeight) ;;
  yaml "image-height" (YInt imageHeight) ;;
  let writeImages :=
    if present (options WRITE_IMAGE)
    then type (last (options WRITE_IMAGE)) =? ENABLE
    else writeImages in
  painter <-
    (if present (options PAINTER) then
       let t := type (last (options PAINTER)) in
       if t =? SIMPLE_RASTER then
         (* Painter initialized to simple raster already. *)
         yaml "painter" (YString "simple") ;; ret painter
       else if MINIGRAPHICS_ENABLE_OPENGL E && (t =? OPENGL) then
         yaml "painter" (YString "OpenGL") ;; ret PainterOpenGL
       else
         emit (EvCerr "Internal error: bad painter option.") ;; returning 1
     else
       yaml "painter" (YString "simple") ;; ret painter) ;;
  let colorFormat :=
    if present (options COLOR_FORMAT)
    then type (last (options COLOR_FORMAT))
    else colorFormat in
  let depthFormat :=
    if present (options DEPTH_FORMAT)
    then type (last (options DEPTH_FORMAT))
    else depthFormat in
  imageBuffer <-
    (if depthFormat =? DEPTH_FLOAT then
       yaml "depth-buffer-format" (YString "float") ;;
       if colorFormat =? COLOR_UBYTE then
         yaml "color-buffer-format" (YString "byte") ;;
         i <- newImage ImageRGBAUByteColorFloatDepth imageWidth imageHeight ;;
         ret (Some i)
       else if colorFormat =? COLOR_FLOAT then
         yaml "color-buffer-format" (YString "float") ;;
         i <- newImage ImageRGBFloatColorDepth imageWidth imageHeight ;;
         ret (Some i)
       else ret None
     else if depthFormat =? DEPTH_NONE then
       yaml "depth-buffer-format" (YString "none") ;;
       if colorFormat =? COLOR_UBYTE then
         yaml "color-buffer-format" (YString "byte") ;;
         _ <- newImage ImageRGBAUByteColorOnly imageWidth imageHeight ;;
         (* no break: control falls through into case COLOR_FLOAT *)
         yaml "color-buffer-format" (YString "float") ;;
         i <- newImage ImageRGBAFloatColorOnly imageWidth imageHeight ;;
         ret (Some i)
       else if colorFormat =? COLOR_FLOAT then
         yaml "color-buffer-format" (YString "float") ;;
         i <- newImage ImageRGBAFloatColorOnly imageWidth imageHeight ;;
         ret (Some i)
       else ret None
     else ret None) ;;
  imageBuffer <- must imageBuffer ;;
  (if blendIsOrderDependent imageBuffer then
     yaml "rendering-order-dependent" (YString "yes")
   else
     yaml "rendering-order-dependent" (YString "no")) ;;
  (* LOAD TRIANGLES *)
  mesh <-
    (if rank =? 0 then
       mesh <-
         (if present (options GEOMETRY)
             && negb (type (last (options GEOMETRY)) =? BOX) then
            filename <- must (arg (last (options GEOMETRY))) ;;
            yaml "geometry" (YString filename) ;;
            if type (last (options GEOMETRY)) =? STL_FILE then
              emit (EvReadSTL filename) ;;
              let '(ok, mesh) := ReadSTL E filename (emptyMesh E) in
              if negb ok then
                emit (EvCerr ("Error reading file " ++ filename)) ;;
                returning 1
              else ret mesh
            else
              emit (EvCerr "Invalid geometry type?") ;; returning 1
          else
            yaml "geometry" (YString "box") ;;
            emit EvMakeBox ;;
            ret (MakeBox E (emptyMesh E))) ;;
       emit (EvCout ("Rank 0 on pid " ++ CLib.string_of_int (getpid E))) ;;
       ret mesh
     else
       (* Other ranks read nothing. Rank 0 distributes geometry. *)
       ret (emptyMesh E)) ;;
  overlap <-
    (if present (options OVERLAP) then
       a <- must (arg (first (options OVERLAP))) ;; ret (fst (strtof E a))
     else ret overlap) ;;
  mesh <-
    (if present (options DISTRIBUTION)
        && (type (last (options DISTRIBUTION)) =? DIVIDE) then
       emit (EvMeshScatter mesh) ;;
       yaml "geometry-distribution" (YString "divide") ;;
       ret (meshScatter E mesh)
     else
       emit (EvMeshBroadcast mesh overlap) ;;
       yaml "geometry-distribution" (YString "duplicate") ;;
       yaml "geometry-overlap" (YFloat overlap) ;;
       ret (meshBroadcast E mesh overlap)) ;;
  let mesh :=
    if blendIsOrderDependent imageBuffer
    then mkMesh (geometry mesh) (halveColors (colors mesh))
    else mesh in
  run painter compositor mesh imageBuffer writeImages ;;
  yamlFilename <-
    (if present (options YAML_OUTPUT) then
       must (arg (first (options YAML_OUTPUT)))
     else ret yamlFilename) ;;
  (if rank =? 0 then emit (EvWriteFile yamlFilename) else ret tt) ;;
  emit EvMPI_Finalize ;;
  ret 0.

(** The overload that takes the compositor's descriptors as an array
    ended by a descriptor whose [shortopt] is null. *)
Fixpoint upToTerminator (compositorOptions : list Descriptor)
  : list Descriptor :=
  match compositorOptions with
  | [] => []
  | compositorOptionsItem :: rest =>
      match shortopt compositorOptionsItem with
      | None => []
      | Some _ => compositorOptionsItem :: upToTerminator rest
      end
  end.

Definition MainLoop_array (argv : list string) (compositor : Compositor T)
    (compositorOptions : option (list Descriptor)) : M Z :=
  let compositorOptionsVector :=
    match compositorOptions with
    | Some a => upToTerminator a
    | None => []
    end in
  MainLoop argv compositor compositorOptionsVector.

End Program.

(** * Vocabulary of the properties *)

Section RunVocabulary.
Context {T : Types} (E : Env T).
Variables (painter : Painter) (mesh : Mesh T) (imageBuffer : Image T).

(** The local image of a rank, for an image buffer of the given class and
    dimensions: what [run] creates to paint into. *)
Definition fullScreen (k : ImageKind) (w h : Z) : Image T :=
  mkImage k w h 0 (w * h) (clearPixels E k (w * h - 0)).

(** The modelview and projection matrices of a run. *)
Definition run_modelview : mat4 T :=
  view_modelview E (Allreduce_MIN E (getBoundsMin E mesh))
                   (Allreduce_MAX E (getBoundsMax E mesh)).

Definition run_projection : mat4 T :=
  view_projection E (Allreduce_MIN E (getBoundsMin E mesh))
                    (Allreduce_MAX E (getBoundsMax E mesh))
                    (getWidth imageBuffer) (getHeight imageBuffer).

(** The mesh the painter is given. *)
Definition painted_mesh : Mesh T :=
  if blendIsOrderDependent imageBuffer
  then meshVisibilitySort E mesh run_modelview run_projection
  else mesh.

(** The image [run] creates to paint into, and that image once painted. *)
Definition localImage : Image T :=
  fullScreen (kind imageBuffer) (getWidth imageBuffer) (getHeight imageBuffer).

Definition paintedImage : Image T :=
  withPixels localImage
    (paint E painter painted_mesh localImage run_modelview run_projection).

(** [run] gets as far as painting when the number of pixels is an [int]. *)
Definition paintable : Prop :=
  0 <= getWidth imageBuffer * getHeight imageBuffer <= CLib.INT_MAX.

End RunVocabulary.

Section MainVocabulary.
Context {T : Types} (E : Env T).
Variables (argv : list string) (compositor : Compositor T)
  (compositorOptions : list Descriptor).

(** The parser after parsing the command line. *)
Definition parsed : Parser :=
  OptionParser.parse (usage E compositorOptions) (tl argv).

(** What the options make of the settings of [MainLoop]. *)
Definition intOf (l : list Option) (dflt : Z) : Z :=
  if present l
  then match arg (first l) with Some a => CLib.atoi a | None => dflt end
  else dflt.

Definition imageWidthOf : Z := intOf (options parsed WIDTH) 1100.

Definition imageHeightOf : Z := intOf (options parsed HEIGHT) 900.

Definition colorFormatOf : Z :=
  if present (options parsed COLOR_FORMAT)
  then type (last (options parsed COLOR_FORMAT)) else COLOR_UBYTE.

Definition depthFormatOf : Z :=
  if present (options parsed DEPTH_FORMAT)
  then type (last (options parsed DEPTH_FORMAT)) else DEPTH_FLOAT.

Definition writeImagesOf : bool :=
  if present (options parsed WRITE_IMAGE)
  then type (last (options parsed WRITE_IMAGE)) =? ENABLE else true.

(** The class of the image [imageBuffer] points to once the two switches
    are through, if it points to one. *)
Definition imageBufferKind (depthFormat colorFormat : Z) : option ImageKind :=
  if depthFormat =? DEPTH_FLOAT then
    if colorFormat =? COLOR_UBYTE then Some ImageRGBAUByteColorFloatDepth
    else if colorFormat =? COLOR_FLOAT then Some ImageRGBFloatColorDepth
    else None
  else if depthFormat =? DEPTH_NONE then
    if colorFormat =? COLOR_UBYTE then Some ImageRGBAFloatColorOnly
    else if colorFormat =? COLOR_FLOAT then Some ImageRGBAFloatColorOnly
    else None
  else None.

(** The mesh [run] is given, for the mesh [distributed] that the
    distribution of the geometry left on this rank. *)
Definition meshForRun (imageBuffer : Image T) (distributed : Mesh T) : Mesh T :=
  if blendIsOrderDependent imageBuffer
  then mkMesh (geometry distributed) (halveColors E (colors distributed))
  else distributed.

Definition is_pipeline (e : Event T) : bool :=
  match e with
  | EvVisibilitySort _ _ _ | EvPaint _ _ _ _ _ | EvCompose _
  | EvGather _ _ | EvSavePPM _ _ => true
  | _ => false
  end.

(** [distributed] is what the one call of [meshScatter] or [meshBroadcast]
    returned. *)
Definition distributedMesh (distributed : Mesh T) : Prop :=
  (exists src,
     In (EvMeshScatter src)
        (trace (MainLoop E argv compositor compositorOptions))
     /\ distributed = meshScatter E src)
  \/ (exists src overlap,
        In (EvMeshBroadcast src overlap)
           (trace (MainLoop E argv compositor compositorOptions))
        /\ distributed = meshBroadcast E src overlap).

(** The command line passes the checks of [MainLoop] and sets neither
    the size of the image nor the painter. *)
Definition plain : Prop :=
  error parsed = false
  /\ present (options parsed HELP) = false
  /\ present (options parsed DUMMY) = false
  /\ (nonOptionsCount parsed >? 0) = false
  /\ setOptions compositor (options parsed) = true
  /\ present (options parsed WIDTH) = false
  /\ present (options parsed HEIGHT) = false
  /\ present (options parsed PAINTER) = false.

End MainVocabulary.

Section ParserVocabulary.
Variable usage : list Descriptor.

(** The parser steps over [p], whatever follows it, and goes on with the
    argument after it. *)
Definition steps_over (p : string) : Prop :=
  forall next, exists stored msgs, step usage p next = Continue stored msgs false.

Definition rejects (p : string) : Prop :=
  forall next, exists msgs, step usage p next = Illegal msgs.

End ParserVocabulary.

(** * Vocabulary of the further properties *)

Section StoredVocabulary.

(** [o] is an option the parser stored for the descriptor [d]: it has the
    index and type of [d], and the validator of [d] did not say
    ARG_ILLEGAL; the argument is kept when it said ARG_OK and dropped
    otherwise. *)
Definition stored_by (d : Descriptor) (o : Option) : Prop :=
  index o = d_index d /\ type o = d_type d
  /\ exists optarg,
       let st :=
         fst (check_arg d (mkOption (d_index d) (d_type d) (name o) optarg)
                true) in
       (st = ARG_OK /\ arg o = optarg)
       \/ ((st = ARG_NONE \/ st = ARG_IGNORE) /\ arg o = None).

Definition from_usage (usage : list Descriptor) (o : Option) : Prop :=
  exists d, In d usage /\ shortopt d <> None /\ stored_by d o.

(** The descriptors of the compositor keep clear of the indices of
    [optionIndex], which MainLoop uses for its own options. *)
Definition disjoint_indices (compositorOptions : list Descriptor) : Prop :=
  Forall (fun d => d_index d < DUMMY \/ DEPTH_FORMAT < d_index d)
         compositorOptions.

End StoredVocabulary.

Section MoreVocabulary.
Context {T : Types} (E : Env T).
Variables (argv : list string) (compositorOptions : list Descriptor).

Local Abbreviation theParser := (parsed E argv compositorOptions).

(** More of what the options make of the settings of [MainLoop]. *)
Definition overlapOf : float T :=
  if present (options theParser OVERLAP)
  then match arg (first (options theParser OVERLAP)) with
       | Some a => fst (strtof E a)
       | None => of_Q E (-0.05)
       end
  else of_Q E (-0.05).

Definition dividesOf : bool :=
  present (options theParser DISTRIBUTION)
  && (type (last (options theParser DISTRIBUTION)) =? DIVIDE).

Definition yamlFilenameOf : string :=
  if present (options theParser YAML_OUTPUT)
  then match arg (first (options theParser YAML_OUTPUT)) with
       | Some f => f
       | None => "timing.yaml"
       end
  else "timing.yaml".

(** The command line passes the four checks on the arguments. *)
Definition clean : Prop :=
  error theParser = false
  /\ present (options theParser HELP) = false
  /\ present (options theParser DUMMY) = false
  /\ (nonOptionsCount theParser >? 0) = false.

End MoreVocabulary.

Section MoreVocabulary2.
Context {T : Types} (E : Env T).
Variables (argv : list string) (compositor : Compositor T)
  (compositorOptions : list Descriptor).

(** [src] is the mesh this rank has before the geometry is distributed:
    on rank 0 the box, or what [ReadSTL] made of the file; nothing on the
    other ranks. *)
Definition loadedMesh (src : Mesh T) : Prop :=
  (rank E <> 0 /\ src = emptyMesh E)
  \/ (rank E = 0
      /\ In EvMakeBox (trace (MainLoop E argv compositor compositorOptions))
      /\ src = MakeBox E (emptyMesh E))
  \/ (rank E = 0
      /\ exists filename,
           In (EvReadSTL filename)
              (trace (MainLoop E argv compositor compositorOptions))
           /\ ReadSTL E filename (emptyMesh E) = (true, src)).

End MoreVocabulary2.

Section StageVocabulary.
Context {T : Types}.

(** The calls that make up the pipeline of [run], the barrier among
    them. *)
Definition is_stage (e : Event T) : bool :=
  match e with
  | EvMPI_Barrier => true
  | _ => is_pipeline e
  end.

End StageVocabulary.

Section PhaseVocabulary.
Context {T : Types}.

(** The place of a call in the order of a run; 0 for what is no call of
    its own: the entries of the timing record, timers, output. *)
Definition phase (e : Event T) : nat :=
  match e with
  | EvMPI_Init => 1
  | EvSetOptions => 2
  | EvNew _ => 3
  | EvReadSTL _ | EvMakeBox => 4
  | EvMeshScatter _ | EvMeshBroadcast _ _ => 5
  | EvMPI_Allreduce => 6
  | EvVisibilitySort _ _ _ => 7
  | EvPaint _ _ _ _ _ => 8
  | EvMPI_Barrier => 9
  | EvCompose _ => 10
  | EvGather _ _ => 11
  | EvSavePPM _ _ => 12
  | EvWriteFile _ => 13
  | EvMPI_Finalize => 14
  | _ => 0
  end%nat.

(** The phases in which there can be more than one call: the image
    buffers, the reductions, the images saved. *)
Definition repeats (p : nat) : bool :=
  ((p =? 3) || (p =? 6) || (p =? 12))%nat.

(** [e] may come before [e']. *)
Definition before (e e' : Event T) : Prop :=
  (phase e < phase e')%nat
  \/ (phase e = phase e' /\ repeats (phase e) = true).

(** Whatever call comes after another one in [tr] may come after it. *)
Definition in_phase_order (tr : list (Event T)) : Prop :=
  forall pre e post e',
    tr = (pre ++ e :: post)%list -> In e' post ->
    phase e <> 0%nat -> phase e' <> 0%nat -> before e e'.

(** [e] may come after the calls of phase [lo] and before. *)
Definition after (lo : nat) (e : Event T) : Prop :=
  phase e = 0%nat \/ (lo < phase e)%nat
  \/ (lo = phase e /\ repeats lo = true).

(** The calls of [c] are in order, may come after the calls of phase
    [lo], and are of phase [hi] at most. *)
Definition within (lo hi : nat) {A} (c : M A) : Prop :=
  in_phase_order (trace c)
  /\ forall e, In e (trace c) -> after lo e /\ (phase e <= hi)%nat.

End PhaseVocabulary.

(** ** A small concrete world, to run the program in *)

Module Demo.

Definition T : Types :=
  {| float := Q; vec3 := unit; mat4 := unit; Geometry := Z; Pixels := unit |}.

(** A mesh of two triangles, four color components each. *)
Definition box : Mesh T :=
  @mkMesh T 2 [1%Q; 1%Q; 0%Q; 1%Q; 0%Q; 1%Q; 1%Q; 1%Q].

(** Rank [r] of two; the STL file named "bad.stl" fails to load; sorting
    for visibility reverses the colors. *)
Definition E (r : Z) (opengl : bool) : Env T :=
  @Build_Env T
    (* of_Q *) (fun q => q)
    (* of_int *) inject_Z
    (* fmul *) Qmult
    (* fdiv *) Qdiv
    (* fsqrt *) (fun q => q)
    (* radians *) (fun q => q)
    (* strtof *) (fun s => (inject_Z (CLib.atoi s), String.length s))
    (* mkvec3 *) (fun _ _ _ => tt)
    (* vadd *) (fun _ _ => tt)
    (* vsub *) (fun _ _ => tt)
    (* vneg *) (fun _ => tt)
    (* vscale *) (fun _ _ => tt)
    (* dot *) (fun _ _ => 1%Q)
    (* mat4_diag *) (fun _ => tt)
    (* translate *) (fun _ _ => tt)
    (* rotate *) (fun _ _ _ => tt)
    (* perspective *) (fun _ _ _ _ => tt)
    (* emptyMesh *) (@mkMesh T 0 [])
    (* getBoundsMin *) (fun _ => tt)
    (* getBoundsMax *) (fun _ => tt)
    (* getNumberOfTriangles *) (fun m => @geometry T m)
    (* ReadSTL *)
    (fun f m =>
       if String.eqb f "bad.stl" then (false, m)
       else (true, @mkMesh T 1 [1%Q; 0%Q; 0%Q; 1%Q]))
    (* MakeBox *) (fun _ => box)
    (* meshVisibilitySort *)
    (fun m _ _ => @mkMesh T (@geometry T m) (rev (@colors T m)))
    (* meshScatter *) (fun m => m)
    (* meshBroadcast *) (fun _ _ => box)
    (* rank *) r
    (* numProc *) 2
    (* Allreduce_MIN *) (fun v => v)
    (* Allreduce_MAX *) (fun v => v)
    (* Allreduce_SUM *) (fun n => 2 * n)
    (* getpid *) 4242
    (* clearPixels *) (fun _ _ => tt)
    (* gatheredPixels *) (fun _ => Some tt)
    (* paint *) (fun _ _ _ _ _ => tt)
    (* MINIGRAPHICS_ENABLE_OPENGL *) opengl.

(** A compositor that takes any options and hands each rank its half of
    the image. *)
Definition compositor (r : Z) : Compositor T :=
  @Build_Compositor T
    (* setOptions *) (fun _ => true)
    (* compose *)
    (fun i =>
       let n := getWidth i * getHeight i in
       Some (@mkImage T (kind i) (getWidth i) (getHeight i)
                      (r * (n / 2)) ((r + 1) * (n / 2)) tt)).

(** A compositor that takes no options at all. *)
Definition rejecting : Compositor T :=
  @Build_Compositor T (fun _ => false) (fun _ => None).

(** An image buffer of 4 by 2 pixels. *)
Definition image (k : ImageKind) : Image T := @mkImage T k 4 2 0 8 tt.

(** The command of the examples. *)
Definition command (args : list string) : list string :=
  "miniGraphics"%string :: args.

End Demo.

(** * Properties *)

(** ** The program at work *)

Example atoi_examples :
  CLib.atoi "1100" = 1100 /\ CLib.atoi "  -12abc" = -12
  /\ CLib.atoi "abc" = 0 /\ CLib.atoi "4294967297" = 1.
Proof. repeat split. Qed.

Example streq_examples :
  streq "width" "width=640" = true /\ streq "width" "width" = true
  /\ streq "width" "widths" = false /\ streq "" "help" = false.
Proof. repeat split. Qed.

(** A detached argument is taken, an attached one too; an unknown option
    goes under the dummy descriptor; the first non-option argument ends the
    option list. *)
Example parse_example :
  OptionParser.parse (usage (Demo.E 0 false) [])
    ["--width"; "640"; "--height=480"; "-h"; "--bogus"; "stray"; "--box"]
  = mkParser false
      [ mkOption WIDTH 0 "--width" (Some "640");
        mkOption HEIGHT 0 "--height=480" (Some "480");
        mkOption HELP 0 "h" None;
        mkOption DUMMY 0 "--bogus" None ]
      ["stray"; "--box"] [].
Proof. reflexivity. Qed.

(** Rank 1, no option: the events of a whole run. *)
Example MainLoop_example :
  MainLoop (Demo.E 1 false) (Demo.command []) (Demo.compositor 1) []
  = (Next 0,
     [ EvYaml "composite-algorithm" (YString "binary swap");
       EvMPI_Init;
       EvYaml "num-processes" (YInt 2);
       EvSetOptions;
       EvYaml "image-width" (YInt 1100);
       EvYaml "image-height" (YInt 900);
       EvYaml "painter" (YString "simple");
       EvYaml "depth-buffer-format" (YString "float");
       EvYaml "color-buffer-format" (YString "byte");
       EvNew (fullScreen (Demo.E 1 false) ImageRGBAUByteColorFloatDepth
                1100 900);
       EvYaml "rendering-order-dependent" (YString "no");
       @EvMeshBroadcast Demo.T (@mkMesh Demo.T 0 []) (-0.05)%Q;
       EvYaml "geometry-distribution" (YString "duplicate");
       EvYaml "geometry-overlap" (@YFloat Demo.T (-0.05)%Q);
       EvMPI_Allreduce; EvMPI_Allreduce; EvMPI_Allreduce;
       EvYaml "num-triangles" (YInt 4);
       EvPaint PainterSimple Demo.box
         (fullScreen (Demo.E 1 false) ImageRGBAUByteColorFloatDepth 1100 900)
         tt tt;
       EvTimer "paint-seconds";
       EvMPI_Barrier;
       EvCompose
         (fullScreen (Demo.E 1 false) ImageRGBAUByteColorFloatDepth 1100 900);
       EvGather
         (@mkImage Demo.T ImageRGBAUByteColorFloatDepth 1100 900
            495000 990000 tt) 0;
       EvTimer "composite-seconds";
       EvTimer "total-seconds";
       EvSavePPM
         (fullScreen (Demo.E 1 false) ImageRGBAUByteColorFloatDepth 1100 900)
         "local_painting1.ppm";
       EvMPI_Finalize ]).
Proof. vm_compute. reflexivity. Qed.

(** ** Sequencing *)

Section MonadFacts.
Context {T : Types}.
Implicit Types e : Event T.

Lemma trace_bind {A B} (m : @M T A) (k : A -> @M T B) :
  trace (bind m k) =
  (trace m ++ match outcome m with Next a => trace (k a) | _ => @nil (Event T) end)%list.
Proof.
  destruct m as [[a | s | ] w]; unfold bind, trace, outcome; simpl.
  - destruct (k a); reflexivity.
  - now rewrite app_nil_r.
  - now rewrite app_nil_r.
Qed.

Lemma outcome_bind {A B} (m : @M T A) (k : A -> @M T B) :
  outcome (bind m k) =
  match outcome m with
  | Next a => outcome (k a)
  | Returned s => Returned s
  | Aborted => Aborted
  end.
Proof.
  destruct m as [[a | s | ] w]; unfold bind, outcome; simpl; auto.
  destruct (k a); reflexivity.
Qed.

Lemma In_trace_bind {A B} e (m : @M T A) (k : A -> @M T B) :
  In e (trace (bind m k)) ->
  In e (trace m) \/ exists a, outcome m = Next a /\ In e (trace (k a)).
Proof.
  rewrite trace_bind, in_app_iff. intros [H | H]; [now left | right].
  destruct (outcome m) as [a | s | ]; simpl in H; try contradiction.
  now exists a.
Qed.

Lemma In_trace_bind_l {A B} e (m : @M T A) (k : A -> @M T B) :
  In e (trace m) -> In e (trace (bind m k)).
Proof. rewrite trace_bind, in_app_iff. now left. Qed.

Lemma In_trace_bind_r {A B} e (m : @M T A) (k : A -> @M T B) a :
  outcome m = Next a -> In e (trace (k a)) -> In e (trace (bind m k)).
Proof. intros Hm H. rewrite trace_bind, in_app_iff, Hm. now right. Qed.

Lemma outcome_bind_Next {A B} (m : @M T A) (k : A -> @M T B) b :
  outcome (bind m k) = Next b ->
  exists a, outcome m = Next a /\ outcome (k a) = Next b.
Proof.
  rewrite outcome_bind. destruct (outcome m) as [a | s | ]; try discriminate.
  intros H. now exists a.
Qed.

Lemma outcome_bind_Returned {A B} (m : @M T A) (k : A -> @M T B) s :
  outcome (bind m k) = Returned s ->
  outcome m = Returned s \/
  exists a, outcome m = Next a /\ outcome (k a) = Returned s.
Proof.
  rewrite outcome_bind. destruct (outcome m) as [a | s' | ]; try discriminate.
  - intros H. right. now exists a.
  - intros H. left. congruence.
Qed.

Lemma outcome_bind_eq {A B} (m : @M T A) (k : A -> @M T B) a :
  outcome m = Next a -> outcome (bind m k) = outcome (k a).
Proof. intros H. now rewrite outcome_bind, H. Qed.

Lemma outcome_bind_stop {A B} (m : @M T A) (k : A -> @M T B) s :
  outcome m = Returned s -> outcome (bind m k) = Returned s.
Proof. intros H. now rewrite outcome_bind, H. Qed.

Lemma suffix_step {A B} (TR : list (Event T)) (m : @M T A)
    (k : A -> @M T B) a :
  (forall ev, In ev (trace (bind m k)) -> In ev TR) ->
  outcome m = Next a ->
  (forall ev, In ev (trace m) -> In ev TR)
  /\ (forall ev, In ev (trace (k a)) -> In ev TR).
Proof.
  intros Hsub Ha. split; intros ev Hev; apply Hsub.
  - now apply In_trace_bind_l.
  - now apply In_trace_bind_r with a.
Qed.

Lemma outcome_must {A} (o : option A) a :
  outcome (must (T := T) o) = Next a -> o = Some a.
Proof. destruct o; simpl; congruence. Qed.

Lemma outcome_must_Returned {A} (o : option A) s :
  outcome (must (T := T) o) <> Returned s.
Proof. destruct o; discriminate. Qed.

Lemma trace_must {A} (o : option A) : trace (must (T := T) o) = [].
Proof. destruct o; reflexivity. Qed.

End MonadFacts.

(** ** Facts on images *)

Section ImageFacts.
Context {T : Types} (E : Env T).

Lemma int_mul_Some a b p :
  int_mul a b = Some p -> p = a * b /\ CLib.INT_MIN <= p <= CLib.INT_MAX.
Proof.
  unfold int_mul.
  destruct ((CLib.INT_MIN <=? a * b) && (a * b <=? CLib.INT_MAX)) eqn:H;
    [ | discriminate ].
  intros [= <-]. apply andb_prop in H. destruct H as [H1 H2].
  apply Z.leb_le in H1, H2. auto.
Qed.

Lemma int_mul_in_range a b :
  CLib.INT_MIN <= a * b <= CLib.INT_MAX -> int_mul a b = Some (a * b).
Proof.
  intros [H1 H2]. unfold int_mul.
  apply Z.leb_le in H1, H2. now rewrite H1, H2.
Qed.

Lemma createNew_Some (this : Image T) w h b e l :
  createNew E this w h b e = Some l ->
  l = mkImage (kind this) w h b e (clearPixels E (kind this) (e - b))
  /\ 0 <= b <= e /\ e <= w * h.
Proof.
  unfold createNew.
  destruct ((0 <=? b) && (b <=? e) && (e <=? w * h)) eqn:H; [ | discriminate ].
  intros [= <-].
  apply andb_prop in H. destruct H as [H H3].
  apply andb_prop in H. destruct H as [H1 H2].
  apply Z.leb_le in H1, H2, H3. auto.
Qed.

Lemma createNew_valid (this : Image T) w h b e :
  0 <= b <= e -> e <= w * h ->
  createNew E this w h b e =
  Some (mkImage (kind this) w h b e (clearPixels E (kind this) (e - b))).
Proof.
  intros [H1 H2] H3. unfold createNew.
  apply Z.leb_le in H1, H2, H3. now rewrite H1, H2, H3.
Qed.

Lemma local_image (this : Image T) e l :
  int_mul (getWidth this) (getHeight this) = Some e ->
  createNew E this (getWidth this) (getHeight this) 0 e = Some l ->
  l = fullScreen E (kind this) (getWidth this) (getHeight this).
Proof.
  intros He Hl. apply int_mul_Some in He. destruct He as [-> _].
  apply createNew_Some in Hl. now destruct Hl as [-> _].
Qed.


Lemma newImage_Next k w h i :
  outcome (newImage E k w h) = Next i ->
  i = fullScreen E k w h /\ 0 <= w * h <= CLib.INT_MAX.
Proof.
  unfold newImage. intros H.
  apply outcome_bind_Next in H. destruct H as (e & He & H).
  apply outcome_bind_Next in H. destruct H as (l & Hl & H).
  apply outcome_bind_Next in H. destruct H as (u & _ & H).
  apply outcome_must in He, Hl. injection H as <-.
  apply int_mul_Some in He. destruct He as [-> [_ He]].
  apply createNew_Some in Hl. destruct Hl as (-> & [_ Hl] & _). auto.
Qed.

Lemma newImage_trace k w h e :
  In e (trace (newImage E k w h)) -> e = EvNew (fullScreen E k w h).
Proof.
  unfold newImage. intros H.
  apply In_trace_bind in H. rewrite trace_must in H.
  destruct H as [[] | (x & Hx & H)].
  apply In_trace_bind in H. rewrite trace_must in H.
  destruct H as [[] | (l & Hl & H)].
  apply outcome_must in Hx, Hl.
  apply int_mul_Some in Hx. destruct Hx as [-> _].
  apply createNew_Some in Hl. destruct Hl as (-> & _).
  apply In_trace_bind in H. destruct H as [[H | []] | (u & _ & [])].
  now subst e.
Qed.

Lemma newImage_in_range k w h :
  0 <= w * h <= CLib.INT_MAX ->
  newImage E k w h = (Next (fullScreen E k w h), [EvNew (fullScreen E k w h)]).
Proof.
  intros H. unfold newImage.
  rewrite int_mul_in_range by (unfold CLib.INT_MIN; lia).
  cbn [must bind ret]. rewrite createNew_valid by lia. reflexivity.
Qed.

End ImageFacts.

(** ** Walking a trace

    [walk H] takes [H : In e (trace c)] through the binds of [c]: the event
    is in the first computation, or that one went on with some value and
    the event is in what follows. *)

Ltac walk H :=
  cbv beta zeta in H;
  lazymatch type of H with
  | In _ (trace (bind _ _)) =>
      let Ha := fresh "Ha" in
      apply In_trace_bind in H;
      destruct H as [H | (? & Ha & H)]; [ walk H | walk H ]
  | In _ (trace (if ?c then _ else _)) => destruct c eqn:?; walk H
  | In _ (trace (must _)) => rewrite trace_must in H; contradiction H
  | In _ (trace (ret _)) => contradiction H
  | In _ (trace (returning _)) => contradiction H
  | In _ (trace abort) => contradiction H
  | In _ (trace (emit _)) => destruct H as [H | []]; try discriminate H
  | In _ (trace (yaml _ _)) => destruct H as [H | []]; try discriminate H
  | In _ (trace (do_paint _ _ _ _ _ _)) => unfold do_paint in H; walk H
  | In _ (trace (newImage _ _ _ _)) =>
      apply newImage_trace in H; try discriminate H
  | In _ (trace (let '(_, _) := ?x in _)) => destruct x eqn:?; walk H
  | In _ (trace (emit_all (map _ _))) =>
      cbn [trace emit_all snd] in H; apply in_map_iff in H;
      destruct H as (? & H & _); try discriminate H
  | _ => idtac
  end.

(** [musts] turns what is known of the values that had to be there into
    equations. *)
Ltac musts :=
  repeat match goal with
         | H : outcome (must _) = Next _ |- _ => apply outcome_must in H
         | H : outcome (emit _) = Next ?x |- _ => clear H; try clear x
         | H : outcome (yaml _ _) = Next ?x |- _ => clear H; try clear x
         end.

(** [spine H Hsub] does the same along the outermost binds only, and keeps
    for each computation it leaves behind that its events are events of
    the whole ([Hsub] says so of the computation [H] is about). *)
Ltac spine H Hsub :=
  cbv beta zeta in H; cbv beta zeta in Hsub;
  lazymatch type of H with
  | In _ (trace (bind _ _)) =>
      let Ha := fresh "Ha" in
      let Hm := fresh "Hm" in
      let Hk := fresh "Hk" in
      apply In_trace_bind in H;
      destruct H as [H | (? & Ha & H)];
      [ clear Hsub; walk H
      | destruct (suffix_step _ _ _ _ Hsub Ha) as [Hm Hk]; clear Hsub;
        spine H Hk ]
  | _ => clear Hsub; walk H
  end.

(** [walko H] takes [H : outcome c = o] through [c]. *)
Ltac walko H :=
  cbv beta zeta in H;
  lazymatch type of H with
  | outcome (bind _ _) = Next _ =>
      let Ha := fresh "Ha" in
      apply outcome_bind_Next in H; destruct H as (? & Ha & H);
      walko Ha; walko H
  | outcome (bind _ _) = Returned _ =>
      let Ha := fresh "Ha" in
      apply outcome_bind_Returned in H; destruct H as [H | (? & Ha & H)];
      [ walko H | walko Ha; walko H ]
  | outcome (if ?c then _ else _) = _ => destruct c eqn:?; walko H
  | outcome (ret _) = Next _ =>
      cbn [outcome ret fst] in H;
      first [ injection H as <- | injection H as -> | injection H as H | idtac ]
  | outcome (ret _) = Returned _ => discriminate H
  | outcome (returning _) = Next _ => discriminate H
  | outcome (returning _) = Returned _ =>
      cbn [outcome returning fst] in H;
      first [ injection H as <- | injection H as -> | injection H as H | idtac ]
  | outcome abort = _ => discriminate H
  | outcome (must _) = Next _ => apply outcome_must in H
  | outcome (must _) = Returned _ => now apply outcome_must_Returned in H
  | outcome (emit _) = Next _ => clear H
  | outcome (emit _) = Returned _ => discriminate H
  | outcome (emit_all _) = Next _ => clear H
  | outcome (emit_all _) = Returned _ => discriminate H
  | outcome (yaml _ _) = Next _ => clear H
  | outcome (yaml _ _) = Returned _ => discriminate H
  | outcome (do_paint _ _ _ _ _ _) = _ => unfold do_paint in H; walko H
  | outcome (newImage _ _ _ _) = Next _ =>
      apply newImage_Next in H; destruct H as [-> ?]
  | outcome (newImage _ _ _ _) = Returned _ => unfold newImage in H; walko H
  | outcome (let '(_, _) := ?x in _) = _ => destruct x eqn:?; walko H
  | _ => idtac
  end.

(** [forth] takes the goal [In e (trace c)] through the binds of [c] as far
    as their outcomes are known. *)
Ltac forth :=
  cbv beta zeta;
  lazymatch goal with
  | |- In _ (trace (bind (emit _) _)) =>
      first [ apply In_trace_bind_l; left; reflexivity
            | eapply In_trace_bind_r; [ reflexivity | forth ] ]
  | |- In _ (trace (bind (yaml _ _) _)) =>
      first [ apply In_trace_bind_l; left; reflexivity
            | eapply In_trace_bind_r; [ reflexivity | forth ] ]
  | |- In _ (trace (bind (must (Some _)) _)) =>
      eapply In_trace_bind_r; [ reflexivity | forth ]
  | |- In _ (trace (bind (ret _) _)) =>
      eapply In_trace_bind_r; [ reflexivity | forth ]
  | |- In _ (trace (bind (emit_all _) _)) =>
      eapply In_trace_bind_r; [ reflexivity | forth ]
  | |- In _ (trace (bind (bind _ _) _)) =>
      first [ apply In_trace_bind_l; solve [ forth ]
            | eapply In_trace_bind_r; [ reflexivity | forth ] ]
  | |- In _ (trace (emit _)) => left; reflexivity
  | |- In _ (trace (yaml _ _)) => left; reflexivity
  | _ => idtac
  end.

(** [fwdo] takes the goal [outcome c = o] through the binds of [c] whose
    outcome is known. *)
Ltac fwdo :=
  cbv beta zeta;
  repeat first
    [ erewrite outcome_bind_eq by (first [ eassumption | reflexivity ]);
      cbv beta zeta
    | erewrite outcome_bind_stop by reflexivity ].

(** [fwdr] proves [outcome c = Returned s] along the path the context
    describes. *)
Ltac fwdr :=
  cbv beta iota zeta;
  lazymatch goal with
  | |- outcome (bind _ _) = _ =>
      first [ erewrite outcome_bind_eq by (first [ eassumption | reflexivity ]);
              fwdr
            | apply outcome_bind_stop; fwdr ]
  | |- outcome (if negb true then _ else _) = _ =>
      change (negb true) with false; fwdr
  | |- outcome (if negb false then _ else _) = _ =>
      change (negb false) with true; fwdr
  | |- outcome (if ?c then _ else _) = _ =>
      match goal with Hc : c = _ |- _ => rewrite Hc end; fwdr
  | |- outcome (let '(_, _) := ?x in _) = _ =>
      match goal with Hc : x = _ |- _ => rewrite Hc end; fwdr
  | |- outcome (returning _) = Returned _ => reflexivity
  | |- outcome (ret _) = Next _ => reflexivity
  | _ => idtac
  end.

(** [spineo H] takes [H : outcome c = o] along the outermost binds of
    [c]; what returns is looked into, what goes on is not. *)
Ltac spineo H :=
  cbv beta zeta in H;
  lazymatch type of H with
  | outcome (bind _ _) = Next _ =>
      let Ha := fresh "Ha" in
      apply outcome_bind_Next in H; destruct H as (? & Ha & H); spineo H
  | outcome (bind _ _) = Returned _ =>
      let Ha := fresh "Ha" in
      apply outcome_bind_Returned in H; destruct H as [H | (? & Ha & H)];
      [ walko H | spineo H ]
  | _ => walko H
  end.

Lemma default_size_in_range : 0 <= 1100 * 900 <= CLib.INT_MAX.
Proof. unfold CLib.INT_MAX. lia. Qed.

(** [fwdn] proves [outcome c = Next a], finding [a], and [forthc] proves
    [In e (trace c)], along the path the context describes. *)
Ltac fwdn :=
  cbv beta iota zeta;
  lazymatch goal with
  | |- outcome (bind _ _) = _ =>
      erewrite outcome_bind_eq by (first [ eassumption | reflexivity | fwdn ]);
      fwdn
  | |- outcome (if negb ?c then _ else _) = _ =>
      match goal with Hc : c = _ |- _ => rewrite Hc end;
      try change (negb true) with false; try change (negb false) with true;
      fwdn
  | |- outcome (if ?c then _ else _) = _ =>
      match goal with Hc : c = _ |- _ => rewrite Hc end; fwdn
  | |- outcome (newImage _ _ 1100 900) = _ =>
      rewrite newImage_in_range by exact default_size_in_range; reflexivity
  | |- outcome _ = Next _ => reflexivity
  end.

Ltac forthc :=
  cbv beta iota zeta;
  lazymatch goal with
  | |- In _ (trace (bind _ _)) =>
      first [ apply In_trace_bind_l; solve [ forthc ]
            | eapply In_trace_bind_r; [ solve [ fwdn ] | forthc ] ]
  | |- In _ (trace (if negb ?c then _ else _)) =>
      match goal with Hc : c = _ |- _ => rewrite Hc end;
      try change (negb true) with false; try change (negb false) with true;
      forthc
  | |- In _ (trace (if ?c then _ else _)) =>
      match goal with Hc : c = _ |- _ => rewrite Hc end; forthc
  | |- In _ (trace (newImage _ _ 1100 900)) =>
      rewrite newImage_in_range by exact default_size_in_range;
      left; reflexivity
  | |- In _ (trace (emit _)) => left; reflexivity
  | |- In _ (trace (yaml _ _)) => left; reflexivity
  end.

(** ** Facts on [run] *)

Section RunFacts.
Context {T : Types} (E : Env T).
Variables (painter : Painter) (compositor : Compositor T) (mesh : Mesh T)
  (imageBuffer : Image T) (writeImages : bool).

Local Abbreviation tr :=
  (trace (run E painter compositor mesh imageBuffer writeImages)).
Local Abbreviation theModelview := (run_modelview E mesh).
Local Abbreviation theProjection := (run_projection E mesh imageBuffer).
Local Abbreviation thePaintedMesh := (painted_mesh E mesh imageBuffer).
Local Abbreviation theLocalImage := (localImage E imageBuffer).
Local Abbreviation thePaintedImage :=
  (paintedImage E painter mesh imageBuffer).

Lemma painted_od :
  blendIsOrderDependent imageBuffer = blendIsOrderDependent theLocalImage.
Proof. reflexivity. Qed.

Ltac local_image :=
  match goal with
  | H1 : int_mul _ _ = Some ?e, H2 : createNew _ _ _ _ _ ?e = Some ?l |- _ =>
      pose proof (local_image E _ _ _ H1 H2); subst l; clear H1 H2;
      fold theLocalImage in *
  end.

Lemma run_paint_inv p m i mv pr :
  In (EvPaint p m i mv pr) tr ->
  p = painter /\ m = thePaintedMesh /\ i = theLocalImage
  /\ mv = theModelview /\ pr = theProjection.
Proof.
  intros H. unfold run in H. walk H; musts; local_image;
    injection H as <- <- <- <- <-; unfold painted_mesh;
    rewrite painted_od, Heqb; auto.
Qed.

Lemma run_sort_inv m mv pr :
  In (EvVisibilitySort m mv pr) tr ->
  blendIsOrderDependent imageBuffer = true
  /\ m = mesh /\ mv = theModelview /\ pr = theProjection.
Proof.
  intros H. unfold run in H. walk H; musts; local_image.
  injection H as <- <- <-. auto.
Qed.

Ltac to_paint H0 Hr Hod :=
  unfold run; forth;
  rewrite int_mul_in_range by (unfold CLib.INT_MIN; lia); forth;
  rewrite createNew_valid by lia; forth;
  fold (fullScreen E (kind imageBuffer) (getWidth imageBuffer)
          (getHeight imageBuffer));
  fold theLocalImage; rewrite Hod; unfold do_paint.

Lemma run_paints :
  paintable imageBuffer ->
  In (EvPaint painter thePaintedMesh theLocalImage theModelview theProjection)
     tr
  /\ (blendIsOrderDependent imageBuffer = true ->
      In (EvVisibilitySort mesh theModelview theProjection) tr)
  /\ In (EvCompose thePaintedImage) tr.
Proof.
  intros [H0 Hr]. unfold paintedImage, painted_mesh. rewrite painted_od.
  destruct (blendIsOrderDependent theLocalImage) eqn:Hod;
    repeat split; intros; try discriminate; to_paint H0 Hr Hod; forth.
Qed.

Lemma paintedImage_sorted :
  blendIsOrderDependent theLocalImage = true ->
  withPixels theLocalImage
    (paint E painter (meshVisibilitySort E mesh theModelview theProjection)
       theLocalImage theModelview theProjection)
  = thePaintedImage.
Proof.
  intros H. unfold paintedImage, painted_mesh. now rewrite painted_od, H.
Qed.

Lemma paintedImage_unsorted :
  blendIsOrderDependent theLocalImage = false ->
  withPixels theLocalImage
    (paint E painter mesh theLocalImage theModelview theProjection)
  = thePaintedImage.
Proof.
  intros H. unfold paintedImage, painted_mesh. now rewrite painted_od, H.
Qed.

(** After [walk]: the local image and the painted image, by their names. *)
Ltac in_run :=
  musts; local_image;
  try match goal with
      | H : outcome (if blendIsOrderDependent _ then _ else _) = Next _ |- _ =>
          walko H
      end;
  fold theModelview theProjection in *;
  try rewrite paintedImage_sorted in * by assumption;
  try rewrite paintedImage_unsorted in * by assumption.

Lemma run_compose_inv i :
  In (EvCompose i) tr -> i = thePaintedImage.
Proof.
  intros H. unfold run in H. walk H; in_run; now injection H as <-.
Qed.


Lemma run_save_inv i f :
  In (EvSavePPM i f) tr ->
  writeImages = true
  /\ ((i = thePaintedImage
       /\ f = ("local_painting" ++ CLib.string_of_int (rank E) ++ ".ppm")%string)
      \/ (rank E = 0 /\ f = "composite.ppm"%string
          /\ exists c, compose compositor thePaintedImage = Some c
                       /\ Gather E c 0 = Some i)).
Proof.
  intros H. unfold run in H. walk H; in_run; injection H as <- <-;
    (split; [ reflexivity | ]);
    first [ left; split; reflexivity
          | right;
            match goal with
            | H : (rank E =? 0) = true |- _ => apply Z.eqb_eq in H
            end;
            repeat split; eauto ].
Qed.


Lemma run_own_events e :
  In e tr ->
  match e with
  | EvMPI_Allreduce | EvYaml _ _ | EvTimer _ | EvMPI_Barrier
  | EvVisibilitySort _ _ _ | EvPaint _ _ _ _ _ | EvCompose _
  | EvGather _ _ | EvSavePPM _ _ => True
  | _ => False
  end.
Proof.
  intros H. unfold run in H. walk H; subst e; exact I.
Qed.
End RunFacts.

(** ** Facts on [MainLoop] *)

Section MainFacts.
Context {T : Types} (E : Env T).
Variables (argv : list string) (compositor : Compositor T)
  (compositorOptions : list Descriptor).

Local Abbreviation TR :=
  (trace (MainLoop E argv compositor compositorOptions)).
Local Abbreviation theParser := (parsed E argv compositorOptions).
Local Abbreviation theWidth := (imageWidthOf E argv compositorOptions).
Local Abbreviation theHeight := (imageHeightOf E argv compositorOptions).
Local Abbreviation theColorFormat := (colorFormatOf E argv compositorOptions).
Local Abbreviation theDepthFormat := (depthFormatOf E argv compositorOptions).
Local Abbreviation theWriteImages := (writeImagesOf E argv compositorOptions).

Lemma intOf_block (l : list Option) (dflt x : Z) :
  outcome (if present l
           then a <- must (arg (first l)) ;; ret (T := T) (CLib.atoi a)
           else ret dflt) = Next x ->
  x = intOf l dflt.
Proof.
  intros H. unfold intOf. walko H; [ now rewrite Ha | reflexivity ].
Qed.

Lemma run_events e painter mesh imageBuffer writeImages :
  In e (trace (run E painter compositor mesh imageBuffer writeImages)) ->
  match e with
  | EvNew _ | EvMeshScatter _ | EvMeshBroadcast _ _ | EvMPI_Finalize
  | EvReadSTL _ | EvMPI_Init | EvWriteFile _ => False
  | _ => True
  end.
Proof.
  intros H. apply run_own_events in H. now destruct e.
Qed.

(** After [spine]: the settings by their names. *)
Ltac settings :=
  fold theParser in *; fold theDepthFormat theColorFormat theWriteImages in *;
  repeat match goal with
         | H : outcome (if present (options theParser _)
                        then bind _ _ else ret _) = Next _ |- _ =>
             apply intOf_block in H
         end;
  fold theWidth theHeight in *.

Ltac conditions :=
  repeat match goal with
         | H : (?c =? ?d) = _ |- context [?c =? ?d] => rewrite H
         end.

Lemma MainLoop_new_inv i :
  In (EvNew i) TR ->
  exists k,
    i = fullScreen E k theWidth theHeight
    /\ (imageBufferKind theDepthFormat theColorFormat = Some k
        \/ (k = ImageRGBAUByteColorOnly
            /\ theDepthFormat = DEPTH_NONE
            /\ theColorFormat = COLOR_UBYTE)).
Proof.
  intros H.
  assert (Hsub : forall ev, In ev TR -> In ev TR) by auto.
  unfold MainLoop in H, Hsub at 1.
  spine H Hsub; try (now apply run_events in H); settings; subst;
    injection H as ->; eexists; (split; [ reflexivity | ]);
    unfold imageBufferKind; conditions; auto.
  right. rewrite Z.eqb_eq in *. auto.
Qed.

Lemma MainLoop_pipeline e :
  is_pipeline e = true -> In e TR ->
  exists painter distributed k,
    imageBufferKind theDepthFormat theColorFormat = Some k
    /\ distributedMesh E argv compositor compositorOptions distributed
    /\ let imageBuffer := fullScreen E k theWidth theHeight in
       In e (trace (run E painter compositor
                        (meshForRun E imageBuffer distributed)
                        imageBuffer theWriteImages)).
Proof.
  intros Hp H.
  assert (Hsub : forall ev, In ev TR -> In ev TR) by auto.
  unfold MainLoop in H, Hsub at 1.
  spine H Hsub; try (subst e; discriminate Hp).
  settings.
  match goal with
  | H : outcome (if theDepthFormat =? _ then _ else _) = Next _ |- _ =>
      walko H
  end; musts; try discriminate;
  match goal with
  | H : Some _ = Some _ |- _ => injection H as <-
  end;
  match goal with
  | Ha : outcome (if ?c then bind (emit (EvMeshScatter _)) _ else _) = Next ?d,
    Hd : forall ev, In ev (trace (if ?c then _ else _)) -> In ev _ |- _ =>
      match goal with
      | Hr : In e (trace (run _ ?p _ _ _ _)) |- _ => exists p, d
      end;
      eexists; split;
      [ unfold imageBufferKind; conditions; reflexivity | ];
      split;
      [ destruct c; walko Ha;
        [ left | right; eexists ]; eexists;
        (split; [ apply Hd; forth | reflexivity ])
      | subst; exact H ]
  end.
Qed.

Local Abbreviation ML := (MainLoop E argv compositor compositorOptions).

Lemma MainLoop_error :
  error theParser = true -> outcome ML = Returned 1.
Proof.
  unfold parsed. intros H. unfold MainLoop. cbv zeta. rewrite H. now fwdo.
Qed.

Lemma MainLoop_help :
  error theParser = false ->
  present (options theParser HELP) = true ->
  outcome ML = Returned 0.
Proof.
  unfold parsed. intros H1 H2. unfold MainLoop. cbv zeta. rewrite H1, H2.
  now fwdo.
Qed.

Lemma MainLoop_rejected :
  error theParser = false ->
  present (options theParser HELP) = false ->
  present (options theParser DUMMY) = true
  \/ nonOptionsCount theParser > 0
  \/ setOptions compositor (options theParser) = false ->
  outcome ML = Returned 1.
Proof.
  unfold parsed. intros H1 H2 H3. unfold MainLoop. cbv zeta. rewrite H1, H2.
  destruct (present (options (parse (usage E compositorOptions) (tl argv))
                       DUMMY)) eqn:Hd; [ now fwdo | ].
  destruct (nonOptionsCount (parse (usage E compositorOptions) (tl argv))
            >? 0) eqn:Hn; [ now fwdo | ].
  destruct H3 as [H3 | [H3 | H3]]; [ discriminate | | ].
  - apply Z.gtb_gt in H3. congruence.
  - rewrite H3. now fwdo.
Qed.

Lemma run_outcome painter mesh imageBuffer writeImages s :
  outcome (run E painter compositor mesh imageBuffer writeImages)
  <> Returned s.
Proof.
  intros H. unfold run in H. walko H.
Qed.

Lemma MainLoop_stl f :
  In (EvReadSTL f) TR -> fst (ReadSTL E f (emptyMesh E)) = false ->
  rank E = 0 /\ outcome ML = Returned 1.
Proof.
  intros H Hf.
  assert (Hsub : forall ev, In ev TR -> In ev TR) by auto.
  unfold MainLoop in H, Hsub at 1.
  spine H Hsub; try (now apply run_events in H).
  injection H as ->.
  destruct (ReadSTL E f (emptyMesh E)) as [b m] eqn:Hr.
  cbn [fst] in Hf. subst b.
  split.
  - match goal with
    | Hr : (rank E =? 0) = true |- _ => now apply Z.eqb_eq in Hr
    end.
  - unfold MainLoop. fwdr.
Qed.

Lemma MainLoop_completes :
  In EvMPI_Finalize TR <-> outcome ML = Next 0.
Proof.
  split; intros H.
  - assert (Hsub : forall ev, In ev TR -> In ev TR) by auto.
    unfold MainLoop in H, Hsub at 1.
    spine H Hsub; try (now apply run_events in H).
    unfold MainLoop. fwdr.
  - unfold MainLoop in H. spineo H. unfold MainLoop. cbv beta zeta.
    repeat first [ apply In_trace_bind_l; left; reflexivity
                 | eapply In_trace_bind_r; [ eassumption | cbv beta zeta ] ].
Qed.

Lemma MainLoop_Next s : outcome ML = Next s -> s = 0.
Proof.
  intros H. unfold MainLoop in H. spineo H. reflexivity.
Qed.

Lemma MainLoop_Returned s :
  outcome ML = Returned s ->
  s = 1
  \/ (s = 0 /\ error theParser = false
      /\ present (options theParser HELP) = true).
Proof.
  intros H. unfold MainLoop in H.
  spineo H; try (now left); try (now apply run_outcome in H).
  right. fold theParser in *. repeat split; auto.
  match goal with
  | H : outcome (if error theParser then _ else _) = Next _ |- _ =>
      walko H
  end.
  reflexivity.
Qed.

End MainFacts.

(** ** Runs that pass the checks of [MainLoop] *)

Section PlainRuns.
Context {T : Types} (E : Env T).
Variables (argv : list string) (compositor : Compositor T)
  (compositorOptions : list Descriptor).

Local Abbreviation p := (parsed E argv compositorOptions).
Local Abbreviation ML := (MainLoop E argv compositor compositorOptions).

Lemma plain_imageBuffer k :
  plain E argv compositor compositorOptions ->
  imageBufferKind (depthFormatOf E argv compositorOptions)
                  (colorFormatOf E argv compositorOptions) = Some k ->
  In (EvNew (fullScreen E k 1100 900)) (trace ML).
Proof.
  unfold plain, imageBufferKind, depthFormatOf, colorFormatOf, parsed.
  intros (H1 & H2 & H3 & H4 & H5 & H6 & H7 & H8) Hk.
  unfold MainLoop.
  repeat match type of Hk with
         | (if ?c then _ else _) = _ => destruct c eqn:?
         end; try discriminate Hk; injection Hk as <-.
  - forthc.
  - forthc.
  - forthc.
  - forthc.
Qed.

Lemma plain_fall_through :
  plain E argv compositor compositorOptions ->
  depthFormatOf E argv compositorOptions = DEPTH_NONE ->
  colorFormatOf E argv compositorOptions = COLOR_UBYTE ->
  In (EvYaml "color-buffer-format" (YString "byte")) (trace ML)
  /\ In (EvNew (fullScreen E ImageRGBAUByteColorOnly 1100 900)) (trace ML)
  /\ In (EvYaml "color-buffer-format" (YString "float")) (trace ML)
  /\ In (EvNew (fullScreen E ImageRGBAFloatColorOnly 1100 900)) (trace ML).
Proof.
  intros (H1 & H2 & H3 & H4 & H5 & H6 & H7 & H8) Hd Hc.
  assert (Hd1 : (depthFormatOf E argv compositorOptions =? DEPTH_FLOAT) = false)
    by now rewrite Hd.
  assert (Hd2 : (depthFormatOf E argv compositorOptions =? DEPTH_NONE) = true)
    by now rewrite Hd.
  assert (Hc1 : (colorFormatOf E argv compositorOptions =? COLOR_UBYTE) = true)
    by now rewrite Hc.
  unfold depthFormatOf, colorFormatOf, parsed in *.
  unfold MainLoop. repeat split; forthc.
Qed.

End PlainRuns.

(** ** Facts on the parser *)

Section ParserFacts.
Variable usage : list Descriptor.

Lemma workhorse_rejects pre x rest :
  Forall (steps_over usage) pre -> (rejects usage) x ->
  forall buf msgs, error (workhorse usage (pre ++ x :: rest) buf msgs) = true.
Proof.
  intros Hpre Hx. induction Hpre as [ | p pre Hp _ IH ]; intros buf msgs.
  - simpl. destruct (Hx (hd_error rest)) as [m ->]. reflexivity.
  - simpl. destruct (Hp (hd_error (pre ++ x :: rest))) as (st & m & ->).
    apply IH.
Qed.

End ParserFacts.

Section SizeOptions.
Context {T : Types} (E : Env T).
Variable compositorOptions : list Descriptor.

Lemma size_option_rejected nm a :
  nm = "width"%string \/ nm = "height"%string -> CLib.atoi a < 1 ->
  rejects (usage E compositorOptions) ("--" ++ nm ++ "=" ++ a).
Proof.
  intros Hnm Ha next. apply Z.ltb_lt in Ha.
  unfold usage, mainOptions.
  destruct Hnm; subst nm; destruct (MINIGRAPHICS_ENABLE_OPENGL E);
    cbn -[CLib.atoi check_and_store PositiveIntArg];
    unfold check_and_store, PositiveIntArg; cbn -[CLib.atoi];
    rewrite Ha; eexists; reflexivity.
Qed.

Lemma flag_steps_over :
  steps_over (usage E compositorOptions) "--box"
  /\ steps_over (usage E compositorOptions) "--depth-none"
  /\ steps_over (usage E compositorOptions) "--color-float".
Proof.
  unfold usage, mainOptions.
  repeat split; intros next; destruct (MINIGRAPHICS_ENABLE_OPENGL E);
    do 2 eexists; reflexivity.
Qed.

End SizeOptions.

(** ** How far [run] gets, and halving *)

Section RunFacts2.
Context {T : Types} (E : Env T).
Variables (painter : Painter) (compositor : Compositor T) (mesh : Mesh T)
  (imageBuffer : Image T) (writeImages : bool).

Local Abbreviation tr :=
  (trace (run E painter compositor mesh imageBuffer writeImages)).

(** Whatever [run] does after the rough geometry information, it does
    with a local image. *)
Lemma run_reached e :
  In e tr ->
  match e with
  | EvVisibilitySort _ _ _ | EvPaint _ _ _ _ _ | EvCompose _
  | EvGather _ _ | EvSavePPM _ _ | EvTimer _ | EvMPI_Barrier => paintable imageBuffer
  | _ => True
  end.
Proof.
  intros H. unfold run in H. walk H; subst e; try exact I; musts;
    match goal with
    | H1 : int_mul _ _ = Some ?e, H2 : createNew _ _ _ _ _ ?e = Some _ |- _ =>
        apply int_mul_Some in H1; destruct H1 as [-> [_ H1]];
        apply createNew_Some in H2; destruct H2 as (_ & [_ H2] & _);
        split; assumption
    end.
Qed.

End RunFacts2.

Section Halving.
Context {T : Types} (E : Env T).


End Halving.

(** * The claims *)

(** C2. [run] hands the painter the mesh sorted by [meshVisibilitySort]
    under the run's modelview and projection exactly when the blend
    operator of the image's encoding is order dependent, and the mesh as it
    is otherwise; it does paint whenever the number of pixels is an
    [int]. *)
Theorem run_sorts_iff_order_dependent {T : Types} (E : Env T)
    (painter : Painter) (compositor : Compositor T) (mesh : Mesh T)
    (imageBuffer : Image T) (writeImages : bool) :
  (paintable imageBuffer ->
   In (EvPaint painter
         (if blendIsOrderDependent imageBuffer
          then meshVisibilitySort E mesh (run_modelview E mesh)
                 (run_projection E mesh imageBuffer)
          else mesh)
         (localImage E imageBuffer)
         (run_modelview E mesh) (run_projection E mesh imageBuffer))
      (trace (run E painter compositor mesh imageBuffer writeImages)))
  /\ (forall p m i mv pr,
        In (EvPaint p m i mv pr)
           (trace (run E painter compositor mesh imageBuffer writeImages)) ->
        p = painter /\ i = localImage E imageBuffer
        /\ mv = run_modelview E mesh /\ pr = run_projection E mesh imageBuffer
        /\ (blendIsOrderDependent imageBuffer = true ->
            m = meshVisibilitySort E mesh mv pr
            /\ In (EvVisibilitySort mesh mv pr)
                  (trace (run E painter compositor mesh imageBuffer
                            writeImages)))
        /\ (blendIsOrderDependent imageBuffer = false ->
            m = mesh
            /\ forall m' mv' pr',
                ~ In (EvVisibilitySort m' mv' pr')
                     (trace (run E painter compositor mesh imageBuffer
                               writeImages)))).
Proof.
  split.
  - intros Hp. exact (proj1 (run_paints E painter compositor mesh imageBuffer
                               writeImages Hp)).
  - intros p m i mv pr H.
    pose proof (run_reached E _ _ _ _ _ _ H) as Hp. cbn beta iota in Hp.
    apply run_paint_inv in H. destruct H as (-> & -> & -> & -> & ->).
    do 4 (split; [ reflexivity | ]). split; intros Hod.
    + split; [ unfold painted_mesh; now rewrite Hod | ].
      exact (proj1 (proj2 (run_paints E painter compositor mesh imageBuffer
                             writeImages Hp)) Hod).
    + split; [ unfold painted_mesh; now rewrite Hod | ].
      intros m' mv' pr' H'. apply run_sort_inv in H'.
      destruct H' as [H' _]. congruence.
Qed.

(** C6. The image [run] hands to [compose] is the local image it created
    with region [0, width * height) over the dimensions of the image
    buffer, painted; so is, for [MainLoop], every image handed to
    [compose], over the dimensions the command line sets. *)
Theorem compose_gets_full_screen_image {T : Types} (E : Env T) :
  (forall painter compositor mesh imageBuffer writeImages,
     (paintable imageBuffer ->
      In (EvCompose (paintedImage E painter mesh imageBuffer))
         (trace (run E painter compositor mesh imageBuffer writeImages)))
     /\ forall i,
         In (EvCompose i)
            (trace (run E painter compositor mesh imageBuffer writeImages)) ->
         createNew E imageBuffer (getWidth imageBuffer) (getHeight imageBuffer)
           0 (getWidth imageBuffer * getHeight imageBuffer)
         = Some (localImage E imageBuffer)
         /\ i = withPixels (localImage E imageBuffer) (pixels i)
         /\ kind i = kind imageBuffer
         /\ getWidth i = getWidth imageBuffer
         /\ getHeight i = getHeight imageBuffer
         /\ getRegionBegin i = 0
         /\ getRegionEnd i = getWidth imageBuffer * getHeight imageBuffer)
  /\ (forall argv compositor compositorOptions i,
        In (EvCompose i) (trace (MainLoop E argv compositor compositorOptions)) ->
        getWidth i = imageWidthOf E argv compositorOptions
        /\ getHeight i = imageHeightOf E argv compositorOptions
        /\ getRegionBegin i = 0
        /\ getRegionEnd i = getWidth i * getHeight i).
Proof.
  assert (Hrun : forall painter compositor mesh imageBuffer writeImages i,
             In (EvCompose i)
                (trace (run E painter compositor mesh imageBuffer writeImages)) ->
             paintable imageBuffer /\ i = paintedImage E painter mesh imageBuffer).
  { intros painter compositor mesh imageBuffer writeImages i H. split.
    - exact (run_reached E _ _ _ _ _ _ H).
    - now apply run_compose_inv in H. }
  split.
  - intros painter compositor mesh imageBuffer writeImages. split.
    + intros Hp. exact (proj2 (proj2 (run_paints E painter compositor mesh
                                         imageBuffer writeImages Hp))).
    + intros i H. apply Hrun in H. destruct H as [[H0 Hr] ->].
      split; [ | repeat split ].
      apply createNew_valid; lia.
  - intros argv compositor compositorOptions i H.
    apply MainLoop_pipeline in H; [ | reflexivity ].
    destruct H as (painter & d & k & _ & _ & H). cbv zeta in H.
    apply Hrun in H. destruct H as [_ ->]. repeat split.
Qed.



Section Defaults.
Context {T : Types} (E : Env T).
Variables (argv : list string) (compositor : Compositor T)
  (compositorOptions : list Descriptor).

Lemma imageWidthOf_default :
  present (options (parsed E argv compositorOptions) WIDTH) = false ->
  imageWidthOf E argv compositorOptions = 1100.
Proof. unfold imageWidthOf, intOf. now intros ->. Qed.

Lemma imageHeightOf_default :
  present (options (parsed E argv compositorOptions) HEIGHT) = false ->
  imageHeightOf E argv compositorOptions = 900.
Proof. unfold imageHeightOf, intOf. now intros ->. Qed.

(** The local image of a run of [MainLoop] that paints. *)
Lemma MainLoop_paint_inv p m i mv pr :
  In (EvPaint p m i mv pr)
     (trace (MainLoop E argv compositor compositorOptions)) ->
  exists k,
    imageBufferKind (depthFormatOf E argv compositorOptions)
                    (colorFormatOf E argv compositorOptions) = Some k
    /\ i = fullScreen E k (imageWidthOf E argv compositorOptions)
                      (imageHeightOf E argv compositorOptions).
Proof.
  intros H. apply MainLoop_pipeline in H; [ | reflexivity ].
  destruct H as (painter & d & k & Hk & _ & H). cbv zeta in H.
  apply run_paint_inv in H. destruct H as (_ & _ & -> & _).
  exists k. split; [ exact Hk | reflexivity ].
Qed.

End Defaults.

(** C4. When the command line has no width and no height option, every
    image buffer [MainLoop] constructs, and the image it paints into, is
    1100 wide and 900 high, on whatever rank; so two ranks given the same
    command line construct image buffers of the same dimensions.  A
    command line that passes the checks and sets neither the size nor the
    painter does have the image buffer constructed. *)
Theorem default_image_size {T : Types} (E E' : Env T) (argv : list string)
    (compositor compositor' : Compositor T)
    (compositorOptions : list Descriptor) :
  present (options (parsed E argv compositorOptions) WIDTH) = false ->
  present (options (parsed E argv compositorOptions) HEIGHT) = false ->
  present (options (parsed E' argv compositorOptions) WIDTH) = false ->
  present (options (parsed E' argv compositorOptions) HEIGHT) = false ->
  (forall i,
     In (EvNew i) (trace (MainLoop E argv compositor compositorOptions)) ->
     getWidth i = 1100 /\ getHeight i = 900)
  /\ (forall p m i mv pr,
        In (EvPaint p m i mv pr)
           (trace (MainLoop E argv compositor compositorOptions)) ->
        getWidth i = 1100 /\ getHeight i = 900)
  /\ (forall i i',
        In (EvNew i) (trace (MainLoop E argv compositor compositorOptions)) ->
        In (EvNew i') (trace (MainLoop E' argv compositor' compositorOptions)) ->
        getWidth i = getWidth i' /\ getHeight i = getHeight i')
  /\ (plain E argv compositor compositorOptions ->
      forall k,
        imageBufferKind (depthFormatOf E argv compositorOptions)
                        (colorFormatOf E argv compositorOptions) = Some k ->
        In (EvNew (fullScreen E k 1100 900))
           (trace (MainLoop E argv compositor compositorOptions))).
Proof.
  intros Hw Hh Hw' Hh'.
  assert (Hnew : forall (E0 : Env T) c0 i,
             present (options (parsed E0 argv compositorOptions) WIDTH) = false ->
             present (options (parsed E0 argv compositorOptions) HEIGHT) = false ->
             In (EvNew i) (trace (MainLoop E0 argv c0 compositorOptions)) ->
             getWidth i = 1100 /\ getHeight i = 900).
  { intros E0 c0 i H1 H2 H. apply MainLoop_new_inv in H.
    destruct H as (k & -> & _). cbn [getWidth getHeight fullScreen].
    now rewrite imageWidthOf_default, imageHeightOf_default. }
  split; [ | split; [ | split ] ].
  - intros i H. now apply (Hnew E compositor).
  - intros p m i mv pr H. apply MainLoop_paint_inv in H.
    destruct H as (k & _ & ->). cbn [getWidth getHeight fullScreen].
    now rewrite imageWidthOf_default, imageHeightOf_default.
  - intros i i' H H'.
    apply (Hnew E compositor) in H; [ | assumption | assumption ].
    apply (Hnew E' compositor') in H'; [ | assumption | assumption ].
    destruct H as [-> ->], H' as [-> ->]. auto.
  - intros Hp k Hk. now apply plain_imageBuffer.
Qed.


(** C1. With depth format DEPTH_NONE and color format COLOR_UBYTE, the
    image [MainLoop] paints and composes is an ImageRGBAFloatColorOnly: the
    case COLOR_UBYTE constructs an ImageRGBAUByteColorOnly and, having no
    break, falls through into the case COLOR_FLOAT, which replaces it. *)
Theorem depth_none_color_ubyte_falls_through {T : Types} (E : Env T)
    (argv : list string) (compositor : Compositor T)
    (compositorOptions : list Descriptor) :
  depthFormatOf E argv compositorOptions = DEPTH_NONE ->
  colorFormatOf E argv compositorOptions = COLOR_UBYTE ->
  (forall p m i mv pr,
     In (EvPaint p m i mv pr)
        (trace (MainLoop E argv compositor compositorOptions)) ->
     kind i = ImageRGBAFloatColorOnly)
  /\ (forall i,
        In (EvCompose i) (trace (MainLoop E argv compositor compositorOptions)) ->
        kind i = ImageRGBAFloatColorOnly)
  /\ (plain E argv compositor compositorOptions ->
      In (EvYaml "color-buffer-format" (YString "byte"))
         (trace (MainLoop E argv compositor compositorOptions))
      /\ In (EvNew (fullScreen E ImageRGBAUByteColorOnly 1100 900))
            (trace (MainLoop E argv compositor compositorOptions))
      /\ In (EvYaml "color-buffer-format" (YString "float"))
            (trace (MainLoop E argv compositor compositorOptions))
      /\ In (EvNew (fullScreen E ImageRGBAFloatColorOnly 1100 900))
            (trace (MainLoop E argv compositor compositorOptions))).
Proof.
  intros Hd Hc. split; [ | split ].
  - intros p m i mv pr H. apply MainLoop_paint_inv in H.
    destruct H as (k & Hk & ->). rewrite Hd, Hc in Hk. now injection Hk as <-.
  - intros i H. apply MainLoop_pipeline in H; [ | reflexivity ].
    destruct H as (painter & d & k & Hk & _ & H). cbv zeta in H.
    apply run_compose_inv in H. subst i.
    rewrite Hd, Hc in Hk. now injection Hk as <-.
  - intros Hp. now apply plain_fall_through.
Qed.

(** C3 (as amended). [MainLoop] returns 0 when it runs to MPI_Finalize,
    and also when --help is given and the parser reports no error; it
    returns 1 when the parser reports an error, when, --help not being
    given, there is an unknown option or a stray non-option argument or the
    compositor rejects its options, and when reading the STL file fails,
    which happens on rank 0 only.  It returns nothing else, and 0 in no
    other case. *)
Theorem MainLoop_exit_status {T : Types} (E : Env T) (argv : list string)
    (compositor : Compositor T) (compositorOptions : list Descriptor) :
  (In EvMPI_Finalize (trace (MainLoop E argv compositor compositorOptions)) ->
   exit_status (MainLoop E argv compositor compositorOptions) = Some 0)
  /\ (error (parsed E argv compositorOptions) = true ->
      exit_status (MainLoop E argv compositor compositorOptions) = Some 1)
  /\ (error (parsed E argv compositorOptions) = false ->
      present (options (parsed E argv compositorOptions) HELP) = true ->
      exit_status (MainLoop E argv compositor compositorOptions) = Some 0)
  /\ (error (parsed E argv compositorOptions) = false ->
      present (options (parsed E argv compositorOptions) HELP) = false ->
      present (options (parsed E argv compositorOptions) DUMMY) = true
      \/ nonOptionsCount (parsed E argv compositorOptions) > 0
      \/ setOptions compositor (options (parsed E argv compositorOptions))
         = false ->
      exit_status (MainLoop E argv compositor compositorOptions) = Some 1)
  /\ (forall filename,
        In (EvReadSTL filename)
           (trace (MainLoop E argv compositor compositorOptions)) ->
        fst (ReadSTL E filename (emptyMesh E)) = false ->
        rank E = 0
        /\ exit_status (MainLoop E argv compositor compositorOptions) = Some 1)
  /\ (forall s,
        exit_status (MainLoop E argv compositor compositorOptions) = Some s ->
        s = 0 \/ s = 1)
  /\ (exit_status (MainLoop E argv compositor compositorOptions) = Some 0 ->
      In EvMPI_Finalize (trace (MainLoop E argv compositor compositorOptions))
      \/ (error (parsed E argv compositorOptions) = false
          /\ present (options (parsed E argv compositorOptions) HELP) = true)).
Proof.
  unfold exit_status.
  split; [ | split; [ | split; [ | split; [ | split; [ | split ] ] ] ] ].
  - intros H. apply MainLoop_completes in H. now rewrite H.
  - intros H. now rewrite MainLoop_error.
  - intros H1 H2. now rewrite MainLoop_help.
  - intros H1 H2 H3. now rewrite MainLoop_rejected.
  - intros f H Hf. destruct (MainLoop_stl E argv compositor compositorOptions f H Hf)
      as [Hr Ho]. now rewrite Ho.
  - intros s H.
    destruct (outcome (MainLoop E argv compositor compositorOptions))
      as [s' | s' | ] eqn:Ho; [ | | discriminate H ]; injection H as ->.
    + apply MainLoop_Next in Ho. now left.
    + apply MainLoop_Returned in Ho. destruct Ho as [Ho | [Ho _]]; auto.
  - intros H.
    destruct (outcome (MainLoop E argv compositor compositorOptions))
      as [s' | s' | ] eqn:Ho; [ | | discriminate H ]; injection H as ->.
    + left. now apply MainLoop_completes.
    + apply MainLoop_Returned in Ho.
      destruct Ho as [Ho | (_ & He & Hh)]; [ discriminate Ho | auto ].
Qed.

(** C9. [PositiveIntArg] accepts an option exactly when its argument is
    there and [atoi] makes of it an integer that is at least 1, and says
    ARG_ILLEGAL otherwise; an argument --width=<a> or --height=<a> with
    [atoi a < 1], first on the command line or after arguments the parser
    steps over, makes the parser report an error and [MainLoop] return 1. *)
Theorem PositiveIntArg_accepts_iff {T : Types} (E : Env T) :
  (forall option messageOnError,
     fst (PositiveIntArg option messageOnError) = ARG_OK <->
     exists a, arg option = Some a /\ 1 <= CLib.atoi a)
  /\ (forall option messageOnError,
        fst (PositiveIntArg option messageOnError) = ARG_OK
        \/ fst (PositiveIntArg option messageOnError) = ARG_ILLEGAL)
  /\ (forall argv0 pre nm a rest compositor compositorOptions,
        nm = "width"%string \/ nm = "height"%string ->
        CLib.atoi a < 1 ->
        Forall (steps_over (usage E compositorOptions)) pre ->
        error (parsed E (argv0 :: pre ++ ("--" ++ nm ++ "=" ++ a)%string :: rest)
                 compositorOptions) = true
        /\ exit_status
             (MainLoop E (argv0 :: pre ++ ("--" ++ nm ++ "=" ++ a)%string :: rest)
                compositor compositorOptions) = Some 1).
Proof.
  split; [ | split ].
  - intros option messageOnError. unfold PositiveIntArg.
    destruct (arg option) as [a | ].
    + destruct (CLib.atoi a <? 1) eqn:Ha; cbn [fst]; split.
      * discriminate.
      * intros (a' & [= <-] & H). apply Z.ltb_lt in Ha. lia.
      * intros _. exists a. apply Z.ltb_ge in Ha. auto.
      * reflexivity.
    + cbn [fst]. split; [ discriminate | ]. intros (a & H & _). discriminate H.
  - intros option messageOnError. unfold PositiveIntArg.
    destruct (arg option) as [a | ]; [ destruct (CLib.atoi a <? 1) | ];
      cbn [fst]; auto.
  - intros argv0 pre nm a rest compositor compositorOptions Hnm Ha Hpre.
    assert (He : error (parsed E (argv0 :: pre ++ ("--" ++ nm ++ "=" ++ a)%string :: rest)
                         compositorOptions) = true).
    { unfold parsed, parse. cbn [tl].
      apply workhorse_rejects; [ exact Hpre | ].
      now apply size_option_rejected. }
    split; [ exact He | ].
    unfold exit_status. now rewrite MainLoop_error.
Qed.

(** * The theorems at work on concrete runs *)

(** Membership in a trace that computes. *)
Ltac in_trace := vm_compute; repeat first [ left; reflexivity | right ].

Lemma demo_plain r args :
  error (parsed (Demo.E r false) (Demo.command args) []) = false ->
  options (parsed (Demo.E r false) (Demo.command args) []) HELP = [] ->
  options (parsed (Demo.E r false) (Demo.command args) []) DUMMY = [] ->
  nonOptions (parsed (Demo.E r false) (Demo.command args) []) = [] ->
  options (parsed (Demo.E r false) (Demo.command args) []) WIDTH = [] ->
  options (parsed (Demo.E r false) (Demo.command args) []) HEIGHT = [] ->
  options (parsed (Demo.E r false) (Demo.command args) []) PAINTER = [] ->
  plain (Demo.E r false) (Demo.command args) (Demo.compositor r) [].
Proof.
  intros H1 H2 H3 H4 H5 H6 H7. unfold plain, nonOptionsCount.
  rewrite H1, H2, H3, H4, H5, H6, H7. repeat split.
Defined.

(** On rank 0, a color-only float image of 4 by 2 pixels: the box is
    sorted before it is painted. *)
Lemma run_sorts_iff_order_dependent_witness :
  In (EvVisibilitySort Demo.box tt tt)
     (trace (run (Demo.E 0 false) PainterSimple (Demo.compositor 0) Demo.box
               (Demo.image ImageRGBAFloatColorOnly) true)).
Proof.
  destruct (run_sorts_iff_order_dependent (Demo.E 0 false) PainterSimple
              (Demo.compositor 0) Demo.box
              (Demo.image ImageRGBAFloatColorOnly) true) as [Hex Hinv].
  assert (Hp : paintable (Demo.image ImageRGBAFloatColorOnly))
    by (unfold paintable, CLib.INT_MAX; simpl; lia).
  apply Hex in Hp. apply Hinv in Hp.
  destruct Hp as (_ & _ & _ & _ & Hod & _).
  exact (proj2 (Hod eq_refl)).
Defined.

(** The same run hands [compose] an image with region [0, 8). *)
Lemma compose_gets_full_screen_image_witness :
  getRegionBegin
    (paintedImage (Demo.E 0 false) PainterSimple Demo.box
       (Demo.image ImageRGBAFloatColorOnly)) = 0
  /\ getRegionEnd
       (paintedImage (Demo.E 0 false) PainterSimple Demo.box
          (Demo.image ImageRGBAFloatColorOnly)) = 4 * 2.
Proof.
  destruct (compose_gets_full_screen_image (Demo.E 0 false)) as [Hrun _].
  destruct (Hrun PainterSimple (Demo.compositor 0) Demo.box
              (Demo.image ImageRGBAFloatColorOnly) true) as [Hex Hinv].
  assert (Hp : paintable (Demo.image ImageRGBAFloatColorOnly))
    by (unfold paintable, CLib.INT_MAX; simpl; lia).
  apply Hex in Hp. apply Hinv in Hp.
  destruct Hp as (_ & _ & _ & _ & _ & Hb & He). split; assumption.
Defined.



(** With no option, ranks 0 and 1 construct an image buffer of 1100 by 900
    pixels. *)
Lemma default_image_size_witness :
  In (EvNew (fullScreen (Demo.E 0 false) ImageRGBAUByteColorFloatDepth 1100 900))
     (trace (MainLoop (Demo.E 0 false) (Demo.command []) (Demo.compositor 0) []))
  /\ getWidth (fullScreen (Demo.E 0 false) ImageRGBAUByteColorFloatDepth
                 1100 900) = 1100
  /\ getHeight (fullScreen (Demo.E 0 false) ImageRGBAUByteColorFloatDepth
                  1100 900) = 900.
Proof.
  destruct (default_image_size (Demo.E 0 false) (Demo.E 1 false)
              (Demo.command []) (Demo.compositor 0) (Demo.compositor 1) []
              eq_refl eq_refl eq_refl eq_refl)
    as (Hnew & _ & _ & Hex).
  assert (Hin := Hex (demo_plain 0 [] eq_refl eq_refl eq_refl eq_refl
                        eq_refl eq_refl eq_refl)
                     ImageRGBAUByteColorFloatDepth eq_refl).
  split; [ exact Hin | exact (Hnew _ Hin) ].
Defined.


(** "--depth-none --color-ubyte": both color-only images are constructed,
    the byte one first, and the float one is painted. *)
Lemma depth_none_color_ubyte_falls_through_witness :
  (In (EvYaml "color-buffer-format" (YString "byte"))
      (trace (MainLoop (Demo.E 0 false)
                (Demo.command ["--depth-none"; "--color-ubyte"]%string)
                (Demo.compositor 0) []))
   /\ In (EvNew (fullScreen (Demo.E 0 false) ImageRGBAUByteColorOnly 1100 900))
         (trace (MainLoop (Demo.E 0 false)
                   (Demo.command ["--depth-none"; "--color-ubyte"]%string)
                   (Demo.compositor 0) []))
   /\ In (EvYaml "color-buffer-format" (YString "float"))
         (trace (MainLoop (Demo.E 0 false)
                   (Demo.command ["--depth-none"; "--color-ubyte"]%string)
                   (Demo.compositor 0) []))
   /\ In (EvNew (fullScreen (Demo.E 0 false) ImageRGBAFloatColorOnly 1100 900))
         (trace (MainLoop (Demo.E 0 false)
                   (Demo.command ["--depth-none"; "--color-ubyte"]%string)
                   (Demo.compositor 0) [])))
  /\ kind (fullScreen (Demo.E 0 false) ImageRGBAFloatColorOnly 1100 900)
     = ImageRGBAFloatColorOnly.
Proof.
  destruct (depth_none_color_ubyte_falls_through (Demo.E 0 false)
              (Demo.command ["--depth-none"; "--color-ubyte"]%string)
              (Demo.compositor 0) [] eq_refl eq_refl)
    as (Hpaint & _ & Hex).
  split.
  - exact (Hex (demo_plain 0 ["--depth-none"; "--color-ubyte"]%string
                  eq_refl eq_refl eq_refl eq_refl eq_refl eq_refl eq_refl)).
  - apply (Hpaint PainterSimple
             (@mkMesh Demo.T 2 [0.5; 0.5; 0.5; 0.0; 0.5; 0.0; 0.5; 0.5]%Q)
             (fullScreen (Demo.E 0 false) ImageRGBAFloatColorOnly 1100 900)
             tt tt).
    in_trace.
Defined.

(** The exit status of seven runs on rank 0. *)
Lemma MainLoop_exit_status_witness :
  exit_status (MainLoop (Demo.E 0 false) (Demo.command [])
                 (Demo.compositor 0) []) = Some 0
  /\ exit_status (MainLoop (Demo.E 0 false) (Demo.command ["--width=0"]%string)
                    (Demo.compositor 0) []) = Some 1
  /\ exit_status (MainLoop (Demo.E 0 false) (Demo.command ["--help"]%string)
                    (Demo.compositor 0) []) = Some 0
  /\ exit_status (MainLoop (Demo.E 0 false) (Demo.command ["--bogus"]%string)
                    (Demo.compositor 0) []) = Some 1
  /\ exit_status (MainLoop (Demo.E 0 false) (Demo.command ["stray"]%string)
                    (Demo.compositor 0) []) = Some 1
  /\ exit_status (MainLoop (Demo.E 0 false) (Demo.command [])
                    Demo.rejecting []) = Some 1
  /\ exit_status (MainLoop (Demo.E 0 false)
                    (Demo.command ["--stl-file=bad.stl"]%string)
                    (Demo.compositor 0) []) = Some 1.
Proof.
  split; [ | split; [ | split; [ | split; [ | split; [ | split ] ] ] ] ].
  - destruct (MainLoop_exit_status (Demo.E 0 false) (Demo.command [])
                (Demo.compositor 0) []) as (H & _).
    apply H. in_trace.
  - destruct (MainLoop_exit_status (Demo.E 0 false)
                (Demo.command ["--width=0"]%string) (Demo.compositor 0) [])
      as (_ & H & _).
    apply H. reflexivity.
  - destruct (MainLoop_exit_status (Demo.E 0 false)
                (Demo.command ["--help"]%string) (Demo.compositor 0) [])
      as (_ & _ & H & _).
    apply H; reflexivity.
  - destruct (MainLoop_exit_status (Demo.E 0 false)
                (Demo.command ["--bogus"]%string) (Demo.compositor 0) [])
      as (_ & _ & _ & H & _).
    apply H; [ reflexivity | reflexivity | left; reflexivity ].
  - destruct (MainLoop_exit_status (Demo.E 0 false)
                (Demo.command ["stray"]%string) (Demo.compositor 0) [])
      as (_ & _ & _ & H & _).
    apply H; [ reflexivity | reflexivity | right; left; reflexivity ].
  - destruct (MainLoop_exit_status (Demo.E 0 false) (Demo.command [])
                Demo.rejecting [])
      as (_ & _ & _ & H & _).
    apply H; [ reflexivity | reflexivity | right; right; reflexivity ].
  - destruct (MainLoop_exit_status (Demo.E 0 false)
                (Demo.command ["--stl-file=bad.stl"]%string)
                (Demo.compositor 0) [])
      as (_ & _ & _ & _ & H & _).
    apply (H "bad.stl"%string); [ in_trace | reflexivity ].
Defined.

(** "--help" with an unknown option, and "--help" with a stray argument:
    [MainLoop] returns 0. *)
Lemma help_hides_unknown_option :
  (present (options (parsed (Demo.E 0 false)
                       (Demo.command ["--help"; "--bogus"]%string) [])
              DUMMY) = true
   /\ exit_status (MainLoop (Demo.E 0 false)
                     (Demo.command ["--help"; "--bogus"]%string)
                     (Demo.compositor 0) []) = Some 0)
  /\ (nonOptionsCount (parsed (Demo.E 0 false)
                         (Demo.command ["--help"; "stray"]%string) []) = 1
      /\ exit_status (MainLoop (Demo.E 0 false)
                        (Demo.command ["--help"; "stray"]%string)
                        (Demo.compositor 0) []) = Some 0).
Proof. repeat split; vm_compute; reflexivity. Qed.

(** "--box --width=0": the parser reports an error and MainLoop
    returns 1. *)
Lemma PositiveIntArg_accepts_iff_witness :
  fst (PositiveIntArg (mkOption WIDTH 0 "--width=0" (Some "0"%string)) true)
  = ARG_ILLEGAL
  /\ error (parsed (Demo.E 0 false) (Demo.command ["--box"; "--width=0"]%string)
              []) = true
  /\ exit_status (MainLoop (Demo.E 0 false)
                    (Demo.command ["--box"; "--width=0"]%string)
                    (Demo.compositor 0) []) = Some 1.
Proof.
  destruct (PositiveIntArg_accepts_iff (Demo.E 0 false)) as (Hiff & Hor & Hrun).
  split.
  - destruct (Hor (mkOption WIDTH 0 "--width=0" (Some "0"%string)) true)
      as [H | H]; [ | exact H ].
    apply Hiff in H. destruct H as (a & [= <-] & H). vm_compute in H.
    now contradiction H.
  - apply (Hrun "miniGraphics"%string ["--box"%string] "width"%string
             "0"%string [] (Demo.compositor 0) []).
    + left. reflexivity.
    + reflexivity.
    + constructor; [ | constructor ].
      exact (proj1 (flag_steps_over (Demo.E 0 false) [])).
Defined.

(** * Further facts *)

(** ** What the parser stores *)

Section StoredFacts.
Variable usage : list Descriptor.

Lemma find_long_In n :
  shortopt (find_long usage n) <> None -> In (find_long usage n) usage.
Proof.
  induction usage as [ | d rest IH ]; simpl.
  - intros H. now contradiction H.
  - destruct (longopt d) as [l | ]; [ destruct (streq l n) | ]; auto.
Qed.

Lemma find_short_In ch :
  shortopt (find_short usage ch) <> None -> In (find_short usage ch) usage.
Proof.
  induction usage as [ | d rest IH ]; simpl.
  - intros H. now contradiction H.
  - destruct (shortopt d) as [s | ] eqn:Hs; [ destruct (instr ch s) | ]; auto.
Qed.

Lemma find_dummy_In d :
  find_dummy usage = Some d -> In d usage /\ shortopt d <> None.
Proof.
  induction usage as [ | d0 rest IH ]; simpl; [ discriminate | ].
  destruct (shortopt d0) as [s | ] eqn:Hs; [ | discriminate ].
  destruct s; [ destruct (longopt d0) as [[ | ] | ] | ];
    try (intros H; apply IH in H; tauto).
  intros [= <-]. split; [ now left | congruence ].
Qed.

Lemma resolve_In d0 d :
  (shortopt d0 <> None -> In d0 usage) ->
  resolve usage d0 = Some d -> In d usage /\ shortopt d <> None.
Proof.
  unfold resolve. intros H0.
  destruct (shortopt d0) eqn:Hs.
  - intros [= <-]. split; [ apply H0 | ]; congruence.
  - apply find_dummy_In.
Qed.

Lemma check_and_store_stored d nm optarg detached st m o skip :
  check_and_store d nm optarg detached = (st, m, o, skip) ->
  st <> ARG_ILLEGAL -> stored_by d o.
Proof.
  unfold check_and_store, stored_by.
  destruct (check_arg d (mkOption (d_index d) (d_type d) nm optarg) true)
    as [st0 m0] eqn:Hc.
  destruct st0; intros [= <- <- <- <-] Hs; try (now contradiction Hs);
    cbn [index type name arg]; (split; [ reflexivity | ]);
    (split; [ reflexivity | ]); exists optarg; rewrite Hc; cbn [fst]; auto.
Qed.

Lemma short_group_stored param : forall next stored msgs stored' m' skip,
  short_group usage param next stored msgs = Continue stored' m' skip ->
  Forall (from_usage usage) stored -> Forall (from_usage usage) stored'.
Proof.
  induction param as [ | ch tl IH ]; intros next stored msgs stored' m' skip.
  - simpl. now intros [= <- <- <-].
  - cbn [short_group].
    destruct (match tl with EmptyString => (next, true) | _ => (Some tl, false) end)
      as [optarg detached].
    destruct (resolve usage (find_short usage ch)) as [d | ] eqn:Hr.
    + apply resolve_In in Hr; [ | apply find_short_In ].
      destruct (check_and_store d (String ch tl) optarg detached)
        as [[[st m] o] sk] eqn:Hc.
      assert (Ho : st <> ARG_ILLEGAL -> from_usage usage o).
      { intros Hs. exists d. destruct Hr. repeat split; try assumption.
        1,2,3: eapply check_and_store_stored in Hc; [ | exact Hs ];
          destruct Hc as (? & ? & ?); assumption. }
      destruct st.
      * intros H Hst. eapply IH; [ exact H | ].
        apply Forall_app. split; [ assumption | ].
        constructor; [ apply Ho; discriminate | constructor ].
      * intros [= <- <- <-] Hst.
        apply Forall_app. split; [ assumption | ].
        constructor; [ apply Ho; discriminate | constructor ].
      * intros H Hst. eapply IH; [ exact H | ].
        apply Forall_app. split; [ assumption | ].
        constructor; [ apply Ho; discriminate | constructor ].
      * discriminate.
    + apply IH.
Qed.

Lemma long_option_stored param n next stored m skip :
  long_option usage param n next = Continue stored m skip ->
  Forall (from_usage usage) stored.
Proof.
  unfold long_option.
  destruct (match attached_arg n with Some a => (Some a, false) | None => (next, true) end)
    as [optarg detached].
  destruct (resolve usage (find_long usage n)) as [d | ] eqn:Hr.
  - apply resolve_In in Hr; [ | apply find_long_In ].
    destruct (check_and_store d param optarg detached)
      as [[[st mm] o] sk] eqn:Hc.
    assert (Ho : st <> ARG_ILLEGAL -> from_usage usage o).
    { intros Hs. exists d. destruct Hr. repeat split; try assumption.
      1,2,3: eapply check_and_store_stored in Hc; [ | exact Hs ];
        destruct Hc as (? & ? & ?); assumption. }
    destruct st; try discriminate; intros [= <- <- <-];
      (constructor; [ apply Ho; discriminate | constructor ]).
  - intros [= <- <- <-]. constructor.
Qed.

Lemma step_stored param next stored m skip :
  step usage param next = Continue stored m skip ->
  Forall (from_usage usage) stored.
Proof.
  unfold step. intros H.
  repeat match type of H with
         | match ?x with _ => _ end = _ => destruct x
         | (if ?x then _ else _) = _ => destruct x
         end; try discriminate H;
    first [ now apply long_option_stored in H
          | apply short_group_stored in H; [ exact H | constructor ] ].
Qed.

Lemma workhorse_stored_upto n : forall args buf msgs,
  (List.length args <= n)%nat ->
  Forall (from_usage usage) buf ->
  Forall (from_usage usage) (buffer (workhorse usage args buf msgs)).
Proof.
  induction n as [ | n IH ]; intros [ | param rest ] buf msgs Hn Hb;
    try exact Hb; cbn [List.length] in Hn; [ lia | ].
  cbn [workhorse].
  destruct (step usage param (hd_error rest)) as [ | | m | stored m skip ] eqn:Hs;
    try exact Hb.
  apply step_stored in Hs.
  assert (Hb' : Forall (from_usage usage) (buf ++ stored))
    by (apply Forall_app; now split).
  destruct skip; [ destruct rest as [ | x rest' ] | ];
    (apply IH; [ cbn [List.length] in *; lia | exact Hb' ]).
Qed.

Lemma parse_stored args :
  Forall (from_usage usage) (buffer (parse usage args)).
Proof.
  unfold parse. apply workhorse_stored_upto with (List.length args);
    [ lia | constructor ].
Qed.

End StoredFacts.

Section OwnOptions.
Context {T : Types} (E : Env T).
Variables (argv : list string) (compositorOptions : list Descriptor).
Hypothesis Hdisjoint : disjoint_indices compositorOptions.

Local Abbreviation theParser := (parsed E argv compositorOptions).

Lemma present_first (l : list Option) : present l = true -> In (first l) l.
Proof. destruct l; [ discriminate | now left ]. Qed.

Lemma present_last (l : list Option) : present l = true -> In (last l) l.
Proof.
  destruct l as [ | o l ]; [ discriminate | intros _ ].
  unfold last. revert o. induction l as [ | o' l IH ]; intros o.
  - now left.
  - right. apply (IH o').
Qed.

Lemma own_option i o :
  DUMMY <= i <= DEPTH_FORMAT ->
  In o (options theParser i) ->
  exists d, In d (mainOptions E (MINIGRAPHICS_ENABLE_OPENGL E))
            /\ d_index d = i /\ stored_by d o.
Proof.
  intros Hi Ho. unfold options in Ho. apply filter_In in Ho.
  destruct Ho as [Ho Hx]. apply Z.eqb_eq in Hx.
  pose proof (parse_stored (usage E compositorOptions) (tl argv)) as Hp.
  rewrite Forall_forall in Hp. apply Hp in Ho.
  destruct Ho as (d & Hd & Hs & Hst).
  assert (Hdi : d_index d = i) by (destruct Hst as (<- & _); exact Hx).
  unfold usage in Hd. apply in_app_or in Hd. destruct Hd as [Hd | Hd].
  - exists d. auto.
  - apply in_app_or in Hd. destruct Hd as [Hd | [<- | []]].
    + unfold disjoint_indices in Hdisjoint. rewrite Forall_forall in Hdisjoint.
      apply Hdisjoint in Hd. lia.
    + now contradiction Hs.
Qed.


Lemma PositiveIntArg_status option messageOnError :
  (fst (PositiveIntArg option messageOnError) = ARG_OK
   /\ exists a, arg option = Some a /\ 1 <= CLib.atoi a)
  \/ (fst (PositiveIntArg option messageOnError) = ARG_ILLEGAL
      /\ forall a, arg option = Some a -> CLib.atoi a < 1).
Proof.
  unfold PositiveIntArg. destruct (arg option) as [a | ].
  - destruct (CLib.atoi a <? 1) eqn:Ha; cbn [fst].
    + right. split; [ reflexivity | ]. intros a' [= <-]. now apply Z.ltb_lt.
    + left. split; [ reflexivity | ]. exists a. apply Z.ltb_ge in Ha. auto.
  - right. split; [ reflexivity | discriminate ].
Qed.

Lemma NonemptyStringArg_status option messageOnError :
  (fst (NonemptyStringArg option messageOnError) = ARG_OK
   /\ exists c r, arg option = Some (String c r))
  \/ (fst (NonemptyStringArg option messageOnError) = ARG_ILLEGAL
      /\ (arg option = None \/ arg option = Some EmptyString)).
Proof.
  unfold NonemptyStringArg. destruct (arg option) as [[ | c r] | ]; cbn [fst].
  - right. auto.
  - left. split; [ reflexivity | ]. now exists c, r.
  - right. auto.
Qed.

Lemma FloatArg_status option messageOnError :
  (fst (FloatArg E option messageOnError) = ARG_OK
   /\ exists a, arg option = Some a /\ snd (strtof E a) <> 0%nat)
  \/ (fst (FloatArg E option messageOnError) = ARG_ILLEGAL
      /\ forall a, arg option = Some a -> snd (strtof E a) = 0%nat).
Proof.
  unfold FloatArg. destruct (arg option) as [a | ].
  - destruct (snd (strtof E a) =? 0)%nat eqn:Ha; cbn [fst].
    + right. split; [ reflexivity | ]. intros a' [= <-]. now apply Nat.eqb_eq.
    + left. split; [ reflexivity | ]. exists a. apply Nat.eqb_neq in Ha. auto.
  - right. split; [ reflexivity | discriminate ].
Qed.

(** The descriptors of [mainOptions], one by one. *)
Ltac own_cases H Hdi :=
  unfold mainOptions in H;
  destruct (MINIGRAPHICS_ENABLE_OPENGL E) eqn:?; cbn [app In] in H;
  repeat (destruct H as [H | H];
          [ subst; cbn [d_index] in Hdi; try discriminate Hdi | ]);
  try contradiction H.

Ltac stored H :=
  let st := fresh "Hst" in let Ha := fresh "Harg" in
  destruct H as (_ & H & ? & [[st Ha] | [[st | st] Ha]]);
  cbn [d_type check_arg fst Arg_None] in H, st.

Lemma size_option_stored i o :
  i = WIDTH \/ i = HEIGHT -> In o (options theParser i) ->
  exists a, arg o = Some a /\ 1 <= CLib.atoi a.
Proof.
  intros Hi Ho. apply own_option in Ho;
    [ | destruct Hi; subst i; unfold DUMMY, WIDTH, HEIGHT, DEPTH_FORMAT; lia ].
  destruct Ho as (d & Hd & Hdi & Hs).
  destruct Hi; subst i; own_cases Hd Hdi; stored Hs;
    match goal with
    | H : fst (PositiveIntArg ?o ?b) = _ |- _ =>
        destruct (PositiveIntArg_status o b) as [[Hok (a & Ha & Hp)] | [Hn _]];
        [ cbn [arg] in Ha; first [ congruence | exists a; split; congruence ]
        | congruence ]
    end.
Qed.

Lemma string_option_stored i o :
  i = YAML_OUTPUT \/ (i = GEOMETRY /\ type o <> BOX) ->
  In o (options theParser i) ->
  exists c r, arg o = Some (String c r).
Proof.
  intros Hi Ho. apply own_option in Ho;
    [ | destruct Hi as [ | [] ]; subst i;
        unfold DUMMY, YAML_OUTPUT, GEOMETRY, DEPTH_FORMAT; lia ].
  destruct Ho as (d & Hd & Hdi & Hs).
  destruct Hi as [ | [? Hty] ]; subst i; own_cases Hd Hdi; stored Hs;
    try (now contradiction Hty); try discriminate;
    match goal with
    | H : fst (NonemptyStringArg ?o ?b) = _ |- _ =>
        destruct (NonemptyStringArg_status o b) as [[Hok (c & r & Ha)] | [Hn _]];
        [ cbn [arg] in Ha; first [ congruence | exists c, r; congruence ]
        | congruence ]
    end.
Qed.

Lemma overlap_option_stored o :
  In o (options theParser OVERLAP) ->
  exists a, arg o = Some a /\ snd (strtof E a) <> 0%nat.
Proof.
  intros Ho. apply own_option in Ho;
    [ | unfold DUMMY, OVERLAP, DEPTH_FORMAT; lia ].
  destruct Ho as (d & Hd & Hdi & Hs).
  own_cases Hd Hdi; stored Hs;
    match goal with
    | H : fst (FloatArg E ?o ?b) = _ |- _ =>
        destruct (FloatArg_status o b) as [[Hok (a & Ha & Hp)] | [Hn _]];
        [ cbn [arg] in Ha; first [ congruence | exists a; split; congruence ]
        | congruence ]
    end.
Qed.

(** The types an option of MainLoop's own can have. *)
Lemma option_types i o :
  DUMMY <= i <= DEPTH_FORMAT -> In o (options theParser i) ->
  type o = 0
  \/ (type o = 1
      /\ (i = WRITE_IMAGE \/ i = GEOMETRY \/ i = DISTRIBUTION
          \/ i = COLOR_FORMAT \/ i = DEPTH_FORMAT
          \/ (i = PAINTER /\ MINIGRAPHICS_ENABLE_OPENGL E = true))).
Proof.
  intros Hi Ho. apply own_option in Ho; [ | exact Hi ].
  destruct Ho as (d & Hd & Hdi & (_ & Hs & _)).
  unfold mainOptions in Hd;
  destruct (MINIGRAPHICS_ENABLE_OPENGL E) eqn:?; cbn [app In] in Hd;
  repeat (destruct Hd as [Hd | Hd]; [ subst; cbn [d_index d_type] in * | ]);
    try contradiction Hd; rewrite Hs; auto 10.
Qed.

End OwnOptions.

(** ** How a computation dies *)

Section MonadFacts2.
Context {T : Types}.

Lemma outcome_bind_Aborted {A B} (m : @M T A) (k : A -> @M T B) :
  outcome (bind m k) = Aborted ->
  outcome m = Aborted \/ exists a, outcome m = Next a /\ outcome (k a) = Aborted.
Proof.
  rewrite outcome_bind. destruct (outcome m) as [a | s | ]; try discriminate.
  - intros H. right. now exists a.
  - now left.
Qed.

Lemma outcome_bind_abort {A B} (m : @M T A) (k : A -> @M T B) :
  outcome m = Aborted -> outcome (bind m k) = Aborted.
Proof. intros H. now rewrite outcome_bind, H. Qed.

Lemma outcome_must_Aborted {A} (o : option A) :
  outcome (must (T := T) o) = Aborted -> o = None.
Proof. destruct o; [ discriminate | reflexivity ]. Qed.

Lemma prefix_step {A B} (TR : list (Event T)) (m : @M T A) (k : A -> @M T B) :
  (forall ev, In ev (trace (bind m k)) -> In ev TR) ->
  forall ev, In ev (trace m) -> In ev TR.
Proof. intros Hsub ev Hev. apply Hsub. now apply In_trace_bind_l. Qed.

End MonadFacts2.

Section ImageFacts2.
Context {T : Types} (E : Env T).

Lemma newImage_Aborted k w h :
  outcome (newImage E k w h) = Aborted -> ~ 0 <= w * h <= CLib.INT_MAX.
Proof.
  intros H Hr. rewrite newImage_in_range in H by exact Hr. discriminate H.
Qed.

Lemma newImage_not_Returned k w h s :
  outcome (newImage E k w h) <> Returned s.
Proof. intros H. unfold newImage in H. walko H. Qed.

End ImageFacts2.

(** [walka H] takes [H : outcome c = Aborted] through [c]. *)
Ltac walka H :=
  cbv beta zeta in H;
  lazymatch type of H with
  | outcome (bind _ _) = Aborted =>
      let Ha := fresh "Ha" in
      apply outcome_bind_Aborted in H; destruct H as [H | (? & Ha & H)];
      [ walka H | walko Ha; walka H ]
  | outcome (if ?c then _ else _) = _ => destruct c eqn:?; walka H
  | outcome (ret _) = Aborted => discriminate H
  | outcome (returning _) = Aborted => discriminate H
  | outcome (emit _) = Aborted => discriminate H
  | outcome (emit_all _) = Aborted => discriminate H
  | outcome (yaml _ _) = Aborted => discriminate H
  | outcome (must _) = Aborted => apply outcome_must_Aborted in H
  | outcome (do_paint _ _ _ _ _ _) = _ => unfold do_paint in H; walka H
  | outcome (newImage _ _ _ _) = Aborted => apply newImage_Aborted in H
  | outcome (let '(_, _) := ?x in _) = _ => destruct x eqn:?; walka H
  | _ => idtac
  end.

Section RunOutcome.
Context {T : Types} (E : Env T).
Variables (painter : Painter) (compositor : Compositor T) (mesh : Mesh T)
  (imageBuffer : Image T) (writeImages : bool).

Local Abbreviation theRun :=
  (run E painter compositor mesh imageBuffer writeImages).
Local Abbreviation thePaintedImage :=
  (paintedImage E painter mesh imageBuffer).

Lemma paintable_int_mul :
  paintable imageBuffer ->
  int_mul (getWidth imageBuffer) (getHeight imageBuffer)
  = Some (getWidth imageBuffer * getHeight imageBuffer).
Proof.
  intros [H0 Hr]. apply int_mul_in_range. unfold CLib.INT_MIN. lia.
Qed.

Lemma paintable_createNew :
  paintable imageBuffer ->
  createNew E imageBuffer (getWidth imageBuffer) (getHeight imageBuffer) 0
    (getWidth imageBuffer * getHeight imageBuffer)
  = Some (localImage E imageBuffer).
Proof. intros [H0 Hr]. apply createNew_valid; lia. Qed.

(** After [walko] or [walka]: the local image and the painted image, by
    their names. *)
Ltac run_images :=
  musts;
  match goal with
  | H1 : int_mul _ _ = Some ?e, H2 : createNew _ _ _ _ _ ?e = Some ?l |- _ =>
      let Hp := fresh "Hpaintable" in
      assert (Hp : paintable imageBuffer)
        by (pose proof (int_mul_Some _ _ _ H1) as [-> [_ ?]];
            pose proof (createNew_Some E _ _ _ _ _ _ H2) as (_ & [_ ?] & _);
            split; assumption);
      pose proof (local_image E _ _ _ H1 H2); subst l; clear H1 H2;
      fold (localImage E imageBuffer) in *
  end;
  try match goal with
      | H : outcome (if blendIsOrderDependent _ then _ else _) = Next _ |- _ =>
          walko H
      end;
  fold (run_modelview E mesh) (run_projection E mesh imageBuffer) in *;
  try rewrite (paintedImage_sorted E painter mesh imageBuffer) in * by assumption;
  try rewrite (paintedImage_unsorted E painter mesh imageBuffer) in * by assumption.

(** How [run] ends. *)
Lemma run_ends :
  match outcome theRun with
  | Next _ =>
      paintable imageBuffer
      /\ exists c g, compose compositor thePaintedImage = Some c
                     /\ Gather E c 0 = Some g
  | Returned _ => False
  | Aborted =>
      ~ paintable imageBuffer
      \/ (paintable imageBuffer
          /\ (compose compositor thePaintedImage = None
              \/ exists c, compose compositor thePaintedImage = Some c
                           /\ Gather E c 0 = None))
  end.
Proof.
  destruct (outcome theRun) as [u | s | ] eqn:H.
  - unfold run in H. walko H; run_images; eauto.
  - now apply run_outcome in H.
  - unfold run in H. walka H; try run_images; eauto 6; left; intros Hp.
    + rewrite paintable_int_mul in H by exact Hp. discriminate H.
    + musts.
      match goal with
      | H1 : int_mul _ _ = Some _ |- _ =>
          rewrite paintable_int_mul in H1 by exact Hp; injection H1 as <-
      end.
      rewrite paintable_createNew in H by exact Hp. discriminate H.
Qed.

Lemma run_gathers c :
  paintable imageBuffer ->
  compose compositor thePaintedImage = Some c ->
  In (EvGather c 0) (trace theRun).
Proof.
  intros [H0 Hr] Hc.
  unfold paintedImage, painted_mesh in Hc.
  change (blendIsOrderDependent imageBuffer)
    with (blendIsOrderDependent (localImage E imageBuffer)) in Hc.
  destruct (blendIsOrderDependent (localImage E imageBuffer)) eqn:Hod;
    unfold run; forth;
    rewrite int_mul_in_range by (unfold CLib.INT_MIN; lia); forth;
    rewrite createNew_valid by lia; forth;
    fold (fullScreen E (kind imageBuffer) (getWidth imageBuffer)
            (getHeight imageBuffer));
    fold (localImage E imageBuffer); rewrite Hod; unfold do_paint; forth;
    fold (run_modelview E mesh) (run_projection E mesh imageBuffer);
    rewrite Hc; forth.
Qed.

End RunOutcome.

Section RunOutcome2.
Context {T : Types} (E : Env T).
Variables (painter : Painter) (compositor : Compositor T) (mesh : Mesh T)
  (imageBuffer : Image T) (writeImages : bool).



End RunOutcome2.

(** ** The settings of [MainLoop] when the compositor keeps to its own
    option indices *)

(** [spiner H Hsub] takes [H : outcome c = Returned s] along the outermost
    binds of [c] to the computation that returned, which it leaves as it
    is, and keeps that the events of that computation are events of the
    whole. *)
Ltac spiner H Hsub :=
  cbv beta zeta in H; cbv beta zeta in Hsub;
  lazymatch type of H with
  | outcome (bind _ _) = Returned _ =>
      let Ha := fresh "Ha" in
      let Hm := fresh "Hm" in
      let Hk := fresh "Hk" in
      apply outcome_bind_Returned in H; destruct H as [H | (? & Ha & H)];
      [ pose proof (prefix_step _ _ _ Hsub) as Hm; clear Hsub
      | destruct (suffix_step _ _ _ _ Hsub Ha) as [Hm Hk]; clear Hsub Hm;
        spiner H Hk ]
  | _ => idtac
  end.

Ltac spinea H Hsub :=
  cbv beta zeta in H; cbv beta zeta in Hsub;
  lazymatch type of H with
  | outcome (bind _ _) = Aborted =>
      let Ha := fresh "Ha" in
      let Hm := fresh "Hm" in
      let Hk := fresh "Hk" in
      apply outcome_bind_Aborted in H; destruct H as [H | (? & Ha & H)];
      [ pose proof (prefix_step _ _ _ Hsub) as Hm; clear Hsub
      | destruct (suffix_step _ _ _ _ Hsub Ha) as [Hm Hk]; clear Hsub Hm;
        spinea H Hk ]
  | _ => idtac
  end.

(** What the checks at the head of [MainLoop] found, when execution went
    past them. *)
Ltac checks :=
  repeat match goal with
         | H : outcome (if error _ then _ else _) = Next _ |- _ => walko H
         | H : outcome (if present (options _ HELP) then _ else _) = Next _
           |- _ => walko H
         | H : outcome (if present (options _ DUMMY) then _ else _) = Next _
           |- _ => walko H
         | H : outcome (if nonOptionsCount _ >? 0 then _ else _) = Next _
           |- _ => walko H
         | H : outcome (if negb (setOptions _ _) then _ else _) = Next _
           |- _ => walko H
         end.

Section OwnSettings.
Context {T : Types} (E : Env T).
Variables (argv : list string) (compositor : Compositor T)
  (compositorOptions : list Descriptor).
Hypothesis Hdisjoint : disjoint_indices compositorOptions.

Local Abbreviation TR :=
  (trace (MainLoop E argv compositor compositorOptions)).
Local Abbreviation ML := (MainLoop E argv compositor compositorOptions).
Local Abbreviation theParser := (parsed E argv compositorOptions).
Local Abbreviation theWidth := (imageWidthOf E argv compositorOptions).
Local Abbreviation theHeight := (imageHeightOf E argv compositorOptions).
Local Abbreviation theColorFormat := (colorFormatOf E argv compositorOptions).
Local Abbreviation theDepthFormat := (depthFormatOf E argv compositorOptions).
Local Abbreviation theWriteImages := (writeImagesOf E argv compositorOptions).

Lemma intOf_positive i dflt :
  i = WIDTH \/ i = HEIGHT -> 1 <= dflt ->
  1 <= intOf (options theParser i) dflt.
Proof.
  intros Hi Hd. unfold intOf.
  destruct (present (options theParser i)) eqn:Hp; [ | exact Hd ].
  apply present_first in Hp.
  apply (size_option_stored E argv compositorOptions Hdisjoint i) in Hp;
    [ | exact Hi ].
  destruct Hp as (a & -> & Ha). exact Ha.
Qed.

Lemma sizes_positive : 1 <= theWidth /\ 1 <= theHeight.
Proof.
  split; apply intOf_positive; auto; lia.
Qed.

Lemma formats_known :
  (theColorFormat = COLOR_UBYTE \/ theColorFormat = COLOR_FLOAT)
  /\ (theDepthFormat = DEPTH_FLOAT \/ theDepthFormat = DEPTH_NONE).
Proof.
  unfold colorFormatOf, depthFormatOf. split.
  - destruct (present (options theParser COLOR_FORMAT)) eqn:Hp; [ | now left ].
    apply present_last in Hp.
    apply (option_types E argv compositorOptions Hdisjoint) in Hp;
      [ | unfold DUMMY, COLOR_FORMAT, DEPTH_FORMAT; lia ].
    destruct Hp as [-> | [-> _]]; auto.
  - destruct (present (options theParser DEPTH_FORMAT)) eqn:Hp; [ | now left ].
    apply present_last in Hp.
    apply (option_types E argv compositorOptions Hdisjoint) in Hp;
      [ | unfold DUMMY, DEPTH_FORMAT; lia ].
    destruct Hp as [-> | [-> _]]; auto.
Qed.

Lemma imageBufferKind_known :
  exists k, imageBufferKind theDepthFormat theColorFormat = Some k.
Proof.
  destruct formats_known as [[-> | ->] [-> | ->]]; eexists; reflexivity.
Qed.


Lemma last_type_known i :
  DUMMY <= i <= DEPTH_FORMAT ->
  present (options theParser i) = true ->
  type (last (options theParser i)) = 0
  \/ (type (last (options theParser i)) = 1
      /\ (i = PAINTER -> MINIGRAPHICS_ENABLE_OPENGL E = true)).
Proof.
  intros Hi Hp. apply present_last in Hp.
  apply (option_types E argv compositorOptions Hdisjoint) in Hp; [ | exact Hi ].
  destruct Hp as [Hp | [Hp Hc]]; [ now left | right ].
  split; [ exact Hp | ]. intros ->.
  destruct Hc as [Hc | [Hc | [Hc | [Hc | [Hc | [_ Hc]]]]]];
    try discriminate Hc; exact Hc.
Qed.

(** The two internal errors of [MainLoop] do not happen. *)
Lemma painter_known :
  present (options theParser PAINTER) = true ->
  (type (last (options theParser PAINTER)) =? SIMPLE_RASTER) = false ->
  MINIGRAPHICS_ENABLE_OPENGL E
  && (type (last (options theParser PAINTER)) =? OPENGL) = true.
Proof.
  intros Hp Hs.
  destruct (last_type_known PAINTER) as [Ht | [Ht Ho]];
    [ unfold DUMMY, PAINTER, DEPTH_FORMAT; lia | exact Hp | | ].
  - rewrite Ht in Hs. discriminate Hs.
  - rewrite Ht, Ho by reflexivity. reflexivity.
Qed.

Lemma geometry_known :
  present (options theParser GEOMETRY)
  && negb (type (last (options theParser GEOMETRY)) =? BOX) = true ->
  (type (last (options theParser GEOMETRY)) =? STL_FILE) = true
  /\ exists c r, arg (last (options theParser GEOMETRY)) = Some (String c r).
Proof.
  intros H. apply andb_prop in H. destruct H as [Hp Hb].
  apply negb_true_iff in Hb.
  destruct (last_type_known GEOMETRY) as [Ht | [Ht _]];
    [ unfold DUMMY, GEOMETRY, DEPTH_FORMAT; lia | exact Hp | | ].
  - rewrite Ht in Hb. discriminate Hb.
  - split; [ now rewrite Ht | ].
    apply (string_option_stored E argv compositorOptions Hdisjoint GEOMETRY).
    + right. split; [ reflexivity | ]. rewrite Ht. discriminate.
    + now apply present_last.
Qed.

Lemma MainLoop_Returned_1 :
  outcome ML = Returned 1 ->
  error theParser = true
  \/ (error theParser = false
      /\ present (options theParser HELP) = false
      /\ (present (options theParser DUMMY) = true
          \/ nonOptionsCount theParser > 0
          \/ setOptions compositor (options theParser) = false))
  \/ (exists f, In (EvReadSTL f) TR /\ fst (ReadSTL E f (emptyMesh E)) = false).
Proof.
  intros H.
  assert (Hsub : forall ev, In ev TR -> In ev TR) by auto.
  unfold MainLoop in H, Hsub at 1.
  spiner H Hsub; try discriminate H; try (now apply run_outcome in H);
    try (now apply outcome_must_Returned in H); checks; fold theParser in *;
    try solve [ walko H; try discriminate H ].
  - (* parse.error () *)
    walko H. now left.
  - (* options[HELP]: returns 0 *)
    destruct (present (options theParser HELP)); [ | discriminate H ].
    apply outcome_bind_Returned in H.
    destruct H as [H | (? & _ & H)]; discriminate H.
  - (* options[DUMMY] *)
    walko H. right. left. auto.
  - (* nonOptionsCount *)
    walko H. right. left. repeat split; auto. right. left.
    match goal with Hc : (_ >? 0) = true |- _ => apply Z.gtb_lt in Hc; lia end.
  - (* setOptions *)
    walko H. right. left. repeat split; auto. right. right.
    match goal with Hc : negb _ = true |- _ => now apply negb_true_iff in Hc end.
  - (* the painter *)
    walko H.
    match goal with
    | Hp : present _ = true, Hs : (_ =? SIMPLE_RASTER) = false |- _ =>
        pose proof (painter_known Hp Hs)
    end.
    congruence.
  - (* the geometry *)
    walko H;
      match goal with
      | Hg : present _ && negb _ = true |- _ =>
          pose proof (geometry_known Hg) as [Hstl _]
      end; [ | congruence ].
    right. right.
    match goal with
    | Hr : ReadSTL E ?f _ = (?b, _), Hb : negb ?b = true |- _ =>
        exists f; apply negb_true_iff in Hb; subst b;
        split; [ apply Hm | now rewrite Hr ]
    end.
    match goal with Hf : arg _ = Some _ |- _ => rewrite Hf end.
    forthc.
Qed.


(** After a spine: the settings by their names. *)
Ltac own_settings :=
  fold theParser in *; fold theDepthFormat theColorFormat theWriteImages in *;
  repeat match goal with
         | H : outcome (if present (options theParser _)
                        then bind _ _ else ret _) = Next _ |- _ =>
             apply intOf_block in H
         end;
  fold theWidth theHeight in *.

Lemma out_of_range :
  ~ 0 <= theWidth * theHeight <= CLib.INT_MAX ->
  CLib.INT_MAX < theWidth * theHeight.
Proof.
  destruct sizes_positive as [Hw Hh]. intros H. nia.
Qed.

Lemma size_arg_there i :
  i = WIDTH \/ i = HEIGHT ->
  present (options theParser i) = true ->
  arg (first (options theParser i)) <> None.
Proof.
  intros Hi Hp. apply present_first in Hp.
  apply (size_option_stored E argv compositorOptions Hdisjoint i) in Hp;
    [ | exact Hi ].
  destruct Hp as (a & -> & _). discriminate.
Qed.

Lemma overlap_arg_there :
  present (options theParser OVERLAP) = true ->
  exists a, arg (first (options theParser OVERLAP)) = Some a
            /\ snd (strtof E a) <> 0%nat.
Proof.
  intros Hp. apply present_first in Hp.
  now apply (overlap_option_stored E argv compositorOptions Hdisjoint) in Hp.
Qed.

Lemma yaml_arg_there :
  present (options theParser YAML_OUTPUT) = true ->
  exists c r, arg (first (options theParser YAML_OUTPUT)) = Some (String c r).
Proof.
  intros Hp. apply present_first in Hp.
  apply (string_option_stored E argv compositorOptions Hdisjoint YAML_OUTPUT)
    in Hp; [ exact Hp | now left ].
Qed.

(** The image buffer, once the two switches are through. *)
Ltac image_buffer :=
  match goal with
  | H : outcome (if theDepthFormat =? _ then _ else _) = Next _ |- _ =>
      walko H
  end; musts; try discriminate;
  try match goal with
      | H : Some _ = Some _ |- _ => injection H as <-
      end.

Lemma MainLoop_Aborted :
  outcome ML = Aborted ->
  CLib.INT_MAX < theWidth * theHeight
  \/ exists i,
       In (EvCompose i) TR
       /\ (compose compositor i = None
           \/ exists c, compose compositor i = Some c
                        /\ In (EvGather c 0) TR /\ Gather E c 0 = None).
Proof.
  intros H.
  assert (Hsub : forall ev, In ev TR -> In ev TR) by auto.
  unfold MainLoop in H, Hsub at 1.
  spinea H Hsub; try discriminate H; try solve [ walka H ]; own_settings;
    subst.
  - (* options[WIDTH].arg *)
    walka H. now apply size_arg_there in H; auto.
  - (* options[HEIGHT].arg *)
    walka H. now apply size_arg_there in H; auto.
  - (* the image buffer is constructed *)
    left. walka H; now apply out_of_range.
  - (* imageBuffer is dereferenced *)
    apply outcome_must_Aborted in H.
    destruct formats_known as [Hc Hd].
    image_buffer; try discriminate H;
      destruct Hc as [Hc | Hc], Hd as [Hd | Hd];
      try rewrite Hc in *; try rewrite Hd in *; discriminate.
  - (* options[GEOMETRY].last ()->arg *)
    walka H.
    match goal with
    | Hg : present _ && negb _ = true |- _ =>
        pose proof (geometry_known Hg) as [_ (c & r & Hf)]
    end.
    congruence.
  - (* options[OVERLAP].arg *)
    walka H.
    match goal with
    | Hp : present _ = true |- _ =>
        pose proof (overlap_arg_there Hp) as (a & Hf & _)
    end.
    congruence.
  - (* run *)
    right. image_buffer;
    match goal with
    | H : outcome (run E ?p compositor ?m ?i ?w) = Aborted |- _ =>
        pose proof (run_ends E p compositor m i w) as Hr; rewrite H in Hr;
        assert (Hp : paintable i) by (unfold paintable; cbn [getWidth getHeight fullScreen]; assumption);
        destruct Hr as [Hr | [_ [Hr | (c & Hc & Hg)]]];
        [ now contradiction Hr
        | exists (paintedImage E p m i); split;
          [ apply Hm; now apply run_paints | now left ]
        | exists (paintedImage E p m i); split;
          [ apply Hm; now apply run_paints
          | right; exists c; repeat split; auto;
            apply Hm; now apply run_gathers ] ]
    end.
  - (* options[YAML_OUTPUT].arg *)
    walka H.
    match goal with
    | Hp : present _ = true |- _ =>
        pose proof (yaml_arg_there Hp) as (c & r & Hf)
    end.
    congruence.
Qed.
End OwnSettings.

(** ** More of what a run of [MainLoop] does *)

Section MainFacts2.
Context {T : Types} (E : Env T).
Variables (argv : list string) (compositor : Compositor T)
  (compositorOptions : list Descriptor).

Local Abbreviation TR :=
  (trace (MainLoop E argv compositor compositorOptions)).
Local Abbreviation ML := (MainLoop E argv compositor compositorOptions).
Local Abbreviation theParser := (parsed E argv compositorOptions).

Lemma MainLoop_painter_inv p m i mv pr :
  In (EvPaint p m i mv pr) TR ->
  p = if present (options theParser PAINTER)
         && (MINIGRAPHICS_ENABLE_OPENGL E
             && (type (last (options theParser PAINTER)) =? OPENGL))
      then PainterOpenGL else PainterSimple.
Proof.
  intros H.
  assert (Hsub : forall ev, In ev TR -> In ev TR) by auto.
  unfold MainLoop in H, Hsub at 1.
  spine H Hsub. fold theParser in *.
  apply run_paint_inv in H. destruct H as (-> & _).
  match goal with
  | H : outcome (if present (options theParser PAINTER) then _ else _) = Next _
    |- _ => walko H
  end.
  all: try reflexivity.
  match goal with
  | H : (_ =? SIMPLE_RASTER) = true |- _ => apply Z.eqb_eq in H; rewrite H
  end.
  now rewrite !andb_false_r.
Qed.


Lemma overlap_block (x : float T) :
  outcome (if present (options theParser OVERLAP)
           then a <- must (arg (first (options theParser OVERLAP))) ;;
                ret (T := T) (fst (strtof E a))
           else ret (of_Q E (-0.05))) = Next x ->
  x = overlapOf E argv compositorOptions.
Proof.
  intros H. unfold overlapOf. walko H; [ now rewrite Ha | reflexivity ].
Qed.

(** After a spine that went past the loading of the geometry: the mesh
    that was loaded. *)
Ltac loaded :=
  match goal with
  | Ha : outcome (if rank E =? 0 then _ else _) = Next ?x,
    Hm : forall ev, In ev (trace (if rank E =? 0 then _ else _)) -> In ev _
    |- loadedMesh _ _ _ _ ?x =>
      walko Ha;
      [ right; right | right; left | left ];
      repeat match goal with
             | H : (rank E =? 0) = true |- _ => apply Z.eqb_eq in H
             | H : (rank E =? 0) = false |- _ => apply Z.eqb_neq in H
             end;
      (split; [ assumption | ]);
      [ match goal with
        | Hr : ReadSTL E ?f _ = (?b, _), Hb : negb ?b = false,
          Hf : arg _ = Some ?f |- _ =>
            apply negb_false_iff in Hb; subst b; exists f;
            split; [ apply Hm; rewrite Hf; forthc | exact Hr ]
        end
      | split; [ apply Hm; forthc | reflexivity ]
      | reflexivity ]
  end.

Lemma MainLoop_distribution_inv e :
  In e TR ->
  match e with
  | EvMeshScatter src =>
      dividesOf E argv compositorOptions = true
      /\ loadedMesh E argv compositor compositorOptions src
  | EvMeshBroadcast src overlap =>
      dividesOf E argv compositorOptions = false
      /\ overlap = overlapOf E argv compositorOptions
      /\ loadedMesh E argv compositor compositorOptions src
  | _ => True
  end.
Proof.
  intros H.
  assert (Hsub : forall ev, In ev TR -> In ev TR) by auto.
  unfold MainLoop in H, Hsub at 1.
  destruct e; try exact I;
    spine H Hsub; try (now apply run_events in H); fold theParser in *;
    repeat match goal with
           | H : outcome (if present (options theParser OVERLAP) then _ else _)
                 = Next _ |- _ => apply overlap_block in H
           end; subst.
  - injection H as <-. split; [ assumption | ]. loaded.
  - injection H as <- <-. split; [ assumption | ].
    split; [ reflexivity | ]. loaded.
Qed.


Lemma MainLoop_checks_inv e :
  In e TR ->
  match e with
  | EvPrintUsage false =>
      error theParser = false /\ present (options theParser HELP) = true
  | EvPrintUsage true =>
      error theParser = false
      /\ present (options theParser HELP) = false
      /\ (present (options theParser DUMMY) = true
          \/ nonOptionsCount theParser > 0
          \/ setOptions compositor (options theParser) = false)
  | EvSetOptions => clean E argv compositorOptions
  | _ => True
  end.
Proof.
  intros H.
  assert (Hsub : forall ev, In ev TR -> In ev TR) by auto.
  unfold MainLoop in H, Hsub at 1.
  destruct e as [ | | | | [ | ] | | | | | | | | | | | | | | | | ]; try exact I;
    spine H Hsub; try (now apply run_own_events in H); checks;
    fold theParser in *; unfold clean; auto;
    repeat match goal with
           | H : (_ >? 0) = true |- _ => apply Z.gtb_lt in H
           | H : negb _ = true |- _ => apply negb_true_iff in H
           end;
    repeat split; auto;
    first [ left; assumption | right; left; lia | right; right; assumption ].
Qed.

Lemma MainLoop_clean :
  clean E argv compositorOptions -> In EvSetOptions TR.
Proof.
  unfold clean, parsed. intros (H1 & H2 & H3 & H4). unfold MainLoop. forthc.
Qed.

Lemma MainLoop_usage_cout :
  error theParser = false -> present (options theParser HELP) = true ->
  In (EvPrintUsage false) TR.
Proof.
  unfold parsed. intros H1 H2. unfold MainLoop. forthc.
Qed.

Lemma MainLoop_usage_cerr :
  error theParser = false -> present (options theParser HELP) = false ->
  present (options theParser DUMMY) = true
  \/ nonOptionsCount theParser > 0
  \/ setOptions compositor (options theParser) = false ->
  In (EvPrintUsage true) TR.
Proof.
  unfold parsed. intros H1 H2 H3. unfold MainLoop.
  destruct (present (options (parse (usage E compositorOptions) (tl argv))
                       DUMMY)) eqn:Hd; [ forthc | ].
  destruct (nonOptionsCount (parse (usage E compositorOptions) (tl argv))
            >? 0) eqn:Hn; [ forthc | ].
  destruct H3 as [H3 | [H3 | H3]]; [ discriminate | | ].
  - apply Z.gtb_gt in H3. congruence.
  - forthc.
Qed.


Lemma MainLoop_load_inv e :
  In e TR ->
  match e with
  | EvReadSTL filename =>
      rank E = 0
      /\ present (options theParser GEOMETRY) = true
      /\ type (last (options theParser GEOMETRY)) = STL_FILE
      /\ arg (last (options theParser GEOMETRY)) = Some filename
  | EvMakeBox =>
      rank E = 0
      /\ (present (options theParser GEOMETRY) = false
          \/ type (last (options theParser GEOMETRY)) = BOX)
  | EvCout s =>
      rank E = 0
      /\ s = ("Rank 0 on pid " ++ CLib.string_of_int (getpid E))%string
  | _ => True
  end.
Proof.
  intros H.
  assert (Hsub : forall ev, In ev TR -> In ev TR) by auto.
  unfold MainLoop in H, Hsub at 1.
  destruct e; try exact I;
    spine H Hsub; try (now apply run_own_events in H); fold theParser in *;
    musts;
    repeat match goal with
           | H : (_ =? _) = true |- _ => apply Z.eqb_eq in H
           | H : _ && _ = true |- _ => apply andb_prop in H; destruct H
           | H : _ && _ = false |- _ =>
               apply andb_false_iff in H; destruct H as [H | H]
           | H : negb _ = false |- _ => apply negb_false_iff in H
           end;
    first [ injection H as <- | clear H ]; auto.
Qed.

Lemma yaml_block (x : string) :
  outcome (if present (options theParser YAML_OUTPUT)
           then must (T := T) (arg (first (options theParser YAML_OUTPUT)))
           else ret "timing.yaml") = Next x ->
  x = yamlFilenameOf E argv compositorOptions.
Proof.
  intros H. unfold yamlFilenameOf. walko H; [ now rewrite H | reflexivity ].
Qed.

Lemma MainLoop_write_inv filename :
  In (EvWriteFile filename) TR ->
  rank E = 0 /\ filename = yamlFilenameOf E argv compositorOptions
  /\ outcome ML = Next 0.
Proof.
  intros H.
  assert (Hsub : forall ev, In ev TR -> In ev TR) by auto.
  unfold MainLoop in H, Hsub at 1.
  spine H Hsub; try (now apply run_events in H).
  injection H as <-.
  split; [ | split ].
  - match goal with
    | Hr : (rank E =? 0) = true |- _ => now apply Z.eqb_eq in Hr
    end.
  - match goal with
    | H : outcome (if present (options _ YAML_OUTPUT) then _ else _) = Next _
      |- _ => now apply yaml_block in H
    end.
  - match goal with
    | Hr : (rank E =? 0) = true |- _ => unfold MainLoop; rewrite Hr in *
    end.
    fwdr.
Qed.

Lemma MainLoop_writes :
  outcome ML = Next 0 -> rank E = 0 ->
  In (EvWriteFile (yamlFilenameOf E argv compositorOptions)) TR.
Proof.
  intros H Hr. unfold MainLoop in H. spineo H.
  match goal with
  | H : outcome (if present (options _ YAML_OUTPUT) then _ else _) = Next _
    |- _ => pose proof (yaml_block _ H); subst
  end.
  apply Z.eqb_eq in Hr.
  unfold MainLoop. cbv beta zeta.
  repeat lazymatch goal with
         | |- In _ (trace (bind (if rank E =? 0 then emit _ else _) _)) =>
             fail
         | |- _ => eapply In_trace_bind_r; [ eassumption | cbv beta zeta ]
         end.
  rewrite Hr. apply In_trace_bind_l. left. reflexivity.
Qed.

(** What comes after the geometry is loaded comes after the last point
    where [MainLoop] can return. *)
Lemma MainLoop_past_returns e s :
  In e TR ->
  match e with
  | EvMeshScatter _ | EvMeshBroadcast _ _ | EvMPI_Allreduce | EvMPI_Barrier
  | EvTimer _ | EvVisibilitySort _ _ _ | EvPaint _ _ _ _ _ | EvCompose _
  | EvGather _ _ | EvSavePPM _ _ | EvWriteFile _ | EvMPI_Finalize => True
  | _ => False
  end ->
  outcome ML <> Returned s.
Proof.
  intros H He Hr.
  assert (Hsub : forall ev, In ev TR -> In ev TR) by auto.
  unfold MainLoop in H, Hsub at 1.
  unfold MainLoop in Hr. cbv beta zeta in Hr.
  destruct e; try contradiction He; clear He;
    spine H Hsub;
    repeat (erewrite outcome_bind_eq in Hr by eassumption;
            cbv beta zeta in Hr);
    spineo Hr; try (now apply run_outcome in Hr).
Qed.

End MainFacts2.

(** ** Decimal output *)

(** ** Decimal output *)

Section Decimal.

Lemma to_int_printable z :
  Z.to_int z <> Decimal.Pos Decimal.Nil /\ Z.to_int z <> Decimal.Neg Decimal.Nil.
Proof.
  destruct z as [ | p | p ]; simpl; split; try discriminate;
    intros [= H]; now apply (DecimalPos.Unsigned.to_uint_nonnil p).
Qed.

Lemma string_of_int_inj z z' :
  CLib.string_of_int z = CLib.string_of_int z' -> z = z'.
Proof.
  unfold CLib.string_of_int. intros H.
  apply DecimalZ.to_int_inj.
  destruct (to_int_printable z) as [H1 H2], (to_int_printable z') as [H1' H2'].
  pose proof (NilZero.isi _ H1 H2) as Hz.
  pose proof (NilZero.isi _ H1' H2') as Hz'.
  rewrite H in Hz. congruence.
Qed.

Lemma append_length (s t : string) :
  String.length (s ++ t) = (String.length s + String.length t)%nat.
Proof. induction s as [ | c s IH ]; simpl; [ reflexivity | now rewrite IH ]. Qed.

Lemma append_inv_tail (s s' t : string) : (s ++ t = s' ++ t -> s = s')%string.
Proof.
  revert s'. induction s as [ | c s IH ]; intros [ | c' s' ] H; simpl in H.
  - reflexivity.
  - apply (f_equal String.length) in H. simpl in H.
    rewrite append_length in H. lia.
  - apply (f_equal String.length) in H. simpl in H.
    rewrite append_length in H. lia.
  - injection H as -> H. f_equal. now apply IH.
Qed.

Lemma local_painting_inj r r' :
  ("local_painting" ++ CLib.string_of_int r ++ ".ppm"
   = "local_painting" ++ CLib.string_of_int r' ++ ".ppm")%string ->
  r = r'.
Proof.
  intros H. cbn [append] in H. injection H as H.
  apply append_inv_tail in H. now apply string_of_int_inj.
Qed.

Lemma local_painting_not_composite r :
  ("local_painting" ++ CLib.string_of_int r ++ ".ppm")%string
  <> "composite.ppm"%string.
Proof. cbn [append]. discriminate. Qed.

End Decimal.

(** ** Options that take an argument, and the array of descriptors *)

Section ParserFacts2.
Variable usage : list Descriptor.

(** The parser says of [p], when nothing follows it, that it is
    illegal. *)
Lemma workhorse_rejects_last pre x :
  Forall (steps_over usage) pre ->
  (exists msgs, step usage x None = Illegal msgs) ->
  forall buf msgs, error (workhorse usage (pre ++ [x]) buf msgs) = true.
Proof.
  intros Hpre Hx. induction Hpre as [ | p pre Hp _ IH ]; intros buf msgs.
  - simpl. destruct Hx as [m ->]. reflexivity.
  - simpl. destruct (Hp (hd_error (pre ++ [x]))) as (st & m & ->).
    apply IH.
Qed.

End ParserFacts2.

Section ArgumentOptions.
Context {T : Types} (E : Env T).
Variable compositorOptions : list Descriptor.

Lemma string_option_rejected nm :
  nm = "yaml-output"%string \/ nm = "stl-file"%string ->
  rejects (usage E compositorOptions) ("--" ++ nm ++ "=")
  /\ exists msgs,
       step (usage E compositorOptions) ("--" ++ nm) None = Illegal msgs.
Proof.
  intros Hnm. unfold usage, mainOptions.
  destruct Hnm; subst nm; destruct (MINIGRAPHICS_ENABLE_OPENGL E);
    (split; [ intros next | ]); eexists; reflexivity.
Qed.

Lemma overlap_option_rejected a :
  snd (strtof E a) = 0%nat ->
  rejects (usage E compositorOptions) ("--overlap=" ++ a).
Proof.
  intros Ha next. apply Nat.eqb_eq in Ha.
  unfold usage, mainOptions.
  destruct (MINIGRAPHICS_ENABLE_OPENGL E);
    cbn -[strtof check_and_store FloatArg];
    unfold check_and_store, FloatArg; cbn -[strtof];
    rewrite Ha; eexists; reflexivity.
Qed.

Lemma overlap_option_alone :
  exists msgs,
    step (usage E compositorOptions) "--overlap" None = Illegal msgs.
Proof.
  unfold usage, mainOptions.
  destruct (MINIGRAPHICS_ENABLE_OPENGL E); eexists; reflexivity.
Qed.

End ArgumentOptions.

Section ArrayOverload.

Lemma upToTerminator_app l d rest :
  Forall (fun d => shortopt d <> None) l -> shortopt d = None ->
  upToTerminator (l ++ d :: rest)%list = l.
Proof.
  intros Hl Hd. induction Hl as [ | x l Hx _ IH ]; simpl.
  - now rewrite Hd.
  - destruct (shortopt x); [ now rewrite IH | now contradiction Hx ].
Qed.

Lemma upToTerminator_all l :
  Forall (fun d => shortopt d <> None) (upToTerminator l).
Proof.
  induction l as [ | x l IH ]; simpl; [ constructor | ].
  destruct (shortopt x) eqn:Hx; constructor; [ congruence | exact IH ].
Qed.

End ArrayOverload.

(** ** The timing record *)

Section TimingRecord.
Context {T : Types} (E : Env T).
Variables (argv : list string) (compositor : Compositor T)
  (compositorOptions : list Descriptor).

Local Abbreviation TR :=
  (trace (MainLoop E argv compositor compositorOptions)).
Local Abbreviation theParser := (parsed E argv compositorOptions).
Local Abbreviation theWidth := (imageWidthOf E argv compositorOptions).
Local Abbreviation theHeight := (imageHeightOf E argv compositorOptions).
Local Abbreviation theColorFormat := (colorFormatOf E argv compositorOptions).
Local Abbreviation theDepthFormat := (depthFormatOf E argv compositorOptions).
Local Abbreviation theWriteImages := (writeImagesOf E argv compositorOptions).

Lemma run_yaml_inv painter mesh imageBuffer writeImages key v :
  In (EvYaml key v)
     (trace (run E painter compositor mesh imageBuffer writeImages)) ->
  key = "num-triangles"%string.
Proof.
  intros H. unfold run in H. walk H. now injection H as <- _.
Qed.

Lemma MainLoop_yaml_inv key v :
  In (EvYaml key v) TR ->
  (key = "image-width"%string -> v = YInt theWidth)
  /\ (key = "image-height"%string -> v = YInt theHeight)
  /\ (key = "painter"%string ->
      v = YString
            (if present (options theParser PAINTER)
                && (MINIGRAPHICS_ENABLE_OPENGL E
                    && (type (last (options theParser PAINTER)) =? OPENGL))
             then "OpenGL" else "simple"))
  /\ (key = "rendering-order-dependent"%string ->
      exists k,
        imageBufferKind theDepthFormat theColorFormat = Some k
        /\ v = YString (if kindIsOrderDependent k then "yes" else "no"))
  /\ (key = "geometry-distribution"%string ->
      v = YString (if dividesOf E argv compositorOptions
                   then "divide" else "duplicate"))
  /\ (key = "geometry-overlap"%string ->
      dividesOf E argv compositorOptions = false
      /\ v = YFloat (overlapOf E argv compositorOptions)).
Proof.
  intros H.
  assert (Hsub : forall ev, In ev TR -> In ev TR) by auto.
  unfold MainLoop in H, Hsub at 1.
  spine H Hsub;
    try (apply run_yaml_inv in H; subst key);
    try (injection H as <- <-);
    (split; [ | split; [ | split; [ | split; [ | split ] ] ] ]);
    intros Hk; try discriminate Hk; clear Hk;
    fold theParser in *; fold theDepthFormat theColorFormat in *;
    repeat match goal with
           | H : outcome (if present (options theParser OVERLAP) then _ else _)
                 = Next _ |- _ => apply overlap_block in H
           | H : outcome (if present (options theParser _)
                          then bind _ _ else ret _) = Next _ |- _ =>
               apply intOf_block in H
           end;
    fold theWidth theHeight in *; subst; try reflexivity.
  - (* painter: the simple rasterizer is asked for *)
    match goal with
    | Hp : present _ = true, Hs : (_ =? SIMPLE_RASTER) = true |- _ =>
        apply Z.eqb_eq in Hs; rewrite Hp, Hs
    end.
    now rewrite andb_false_r.
  - (* painter: OpenGL *)
    match goal with
    | Hp : present _ = true, Hs : _ && _ = true |- _ => now rewrite Hp, Hs
    end.
  - (* painter: no painter option *)
    match goal with
    | Hp : present _ = false |- _ => now rewrite Hp
    end.
  - (* order dependent *)
    match goal with
    | H : outcome (if theDepthFormat =? _ then _ else _) = Next _ |- _ =>
        walko H
    end; musts; try discriminate;
    match goal with
    | H : Some _ = Some _ |- _ => injection H as <-
    end;
    match goal with
    | Hb : blendIsOrderDependent (fullScreen E ?k _ _) = _ |- _ =>
        exists k; unfold imageBufferKind;
        repeat match goal with
               | H : (?c =? ?d) = _ |- context [?c =? ?d] => rewrite H
               end;
        unfold blendIsOrderDependent in Hb;
        cbn [kind fullScreen kindIsOrderDependent] in Hb;
        first [ discriminate Hb | split; reflexivity ]
    end.
  - match goal with
    | H : outcome (if theDepthFormat =? _ then _ else _) = Next _ |- _ =>
        walko H
    end; musts; try discriminate;
    match goal with
    | H : Some _ = Some _ |- _ => injection H as <-
    end;
    match goal with
    | Hb : blendIsOrderDependent (fullScreen E ?k _ _) = _ |- _ =>
        exists k; unfold imageBufferKind;
        repeat match goal with
               | H : (?c =? ?d) = _ |- context [?c =? ?d] => rewrite H
               end;
        unfold blendIsOrderDependent in Hb;
        cbn [kind fullScreen kindIsOrderDependent] in Hb;
        first [ discriminate Hb | split; reflexivity ]
    end.
  - unfold dividesOf.
    match goal with Hd : _ && _ = true |- _ => now rewrite Hd end.
  - unfold dividesOf.
    match goal with Hd : _ && _ = false |- _ => now rewrite Hd end.
  - split; [ assumption | reflexivity ].
Qed.

End TimingRecord.

(** ** Two ranks *)

Section TwoRanks.
Context {T : Types} (E E' : Env T).
Variables (argv : list string) (compositorOptions : list Descriptor).
Hypothesis Hstrtof : strtof E = strtof E'.
Hypothesis Hopengl :
  MINIGRAPHICS_ENABLE_OPENGL E = MINIGRAPHICS_ENABLE_OPENGL E'.

Lemma parsed_agree :
  parsed E argv compositorOptions = parsed E' argv compositorOptions.
Proof.
  unfold parsed, usage, mainOptions, FloatArg.
  now rewrite Hstrtof, Hopengl.
Qed.

Lemma settings_agree :
  imageWidthOf E argv compositorOptions = imageWidthOf E' argv compositorOptions
  /\ imageHeightOf E argv compositorOptions
     = imageHeightOf E' argv compositorOptions
  /\ colorFormatOf E argv compositorOptions
     = colorFormatOf E' argv compositorOptions
  /\ depthFormatOf E argv compositorOptions
     = depthFormatOf E' argv compositorOptions
  /\ dividesOf E argv compositorOptions = dividesOf E' argv compositorOptions.
Proof.
  unfold imageWidthOf, imageHeightOf, colorFormatOf, depthFormatOf, dividesOf.
  now rewrite parsed_agree.
Qed.

Lemma overlap_agree :
  of_Q E = of_Q E' ->
  overlapOf E argv compositorOptions = overlapOf E' argv compositorOptions.
Proof.
  intros Hq. unfold overlapOf. now rewrite parsed_agree, Hstrtof, Hq.
Qed.

End TwoRanks.

(** ** The order of the calls *)

Section PhaseFacts.
Context {T : Types}.
Implicit Types tr : list (Event T).

Lemma in_phase_order_app tr1 tr2 :
  in_phase_order tr1 -> in_phase_order tr2 ->
  (forall e1 e2, In e1 tr1 -> In e2 tr2 ->
                 phase e1 <> 0%nat -> phase e2 <> 0%nat -> before e1 e2) ->
  in_phase_order (tr1 ++ tr2).
Proof.
  intros H1 H2 H12 pre e post e' Heq He' Hp Hp'.
  symmetry in Heq. apply app_eq_app in Heq.
  destruct Heq as (l & [[-> ->] | [-> Heq]]).
  - (* [e] is in tr2 *)
    eapply (H2 (l : list (Event T))); eauto.
  - destruct l as [ | x l ]; simpl in Heq.
    + subst tr2. rewrite app_nil_r in *.
      apply (H2 [] e post e'); auto.
    + injection Heq as <- ->.
      apply in_app_or in He'. destruct He' as [He' | He'].
      * eapply (H1 pre); eauto.
      * apply H12; auto. apply in_or_app. right. now left.
Qed.

Lemma after_le lo lo' (e : Event T) :
  (lo' <= lo)%nat -> after lo e -> after lo' e.
Proof.
  unfold after. intros Hl [H | [H | [H Hr]]]; auto.
  - right. left. lia.
  - destruct (Nat.eq_dec lo' lo) as [-> | Hn]; [ auto | right; left; lia ].
Qed.

Lemma within_bind (lo mid hi : nat) {A B} (m : @M T A) (k : A -> @M T B) :
  (lo <= mid)%nat -> (mid <= hi)%nat ->
  within lo mid m -> (forall a, within mid hi (k a)) ->
  within lo hi (bind m k).
Proof.
  intros Hlo Hhi [Hm Hmb] Hk. unfold within. rewrite trace_bind.
  destruct (outcome m) as [a | s | ].
  - destruct (Hk a) as [Hka Hkb]. split.
    + apply in_phase_order_app; auto.
      intros e1 e2 H1 H2 Hp1 Hp2.
      destruct (Hmb e1 H1) as [_ Hu], (Hkb e2 H2) as [[Hz | [Hl | [He Hr]]] _].
      * contradiction.
      * left. lia.
      * unfold before.
        destruct (Nat.eq_dec (phase e1) (phase e2)) as [Heq | Hne];
          [ right; split; [ exact Heq | congruence ] | left; lia ].
    + intros e He. apply in_app_or in He. destruct He as [He | He].
      * destruct (Hmb e He) as [Ha Hu]. split; [ exact Ha | lia ].
      * destruct (Hkb e He) as [Ha Hu].
        split; [ now apply after_le with mid | exact Hu ].
  - rewrite app_nil_r. split; [ exact Hm | ].
    intros e He. destruct (Hmb e He). split; [ assumption | lia ].
  - rewrite app_nil_r. split; [ exact Hm | ].
    intros e He. destruct (Hmb e He). split; [ assumption | lia ].
Qed.

Lemma within_quiet (lo hi : nat) {A} (c : @M T A) :
  (forall e, In e (trace c) -> phase e = 0%nat) -> within lo hi c.
Proof.
  intros Hq. split.
  - intros pre e post e' Heq _ Hp. exfalso. apply Hp, Hq.
    rewrite Heq. apply in_or_app. right. now left.
  - intros e He. split; [ left; now apply Hq | rewrite (Hq e He); lia ].
Qed.

Lemma within_emit (lo hi : nat) (e : Event T) :
  after lo e -> (phase e <= hi)%nat -> within lo hi (emit e).
Proof.
  intros Ha Hu. split.
  - intros [ | x pre ] e0 post e' Heq He'.
    + injection Heq as <- <-. contradiction He'.
    + destruct pre; discriminate Heq.
  - intros e0 [<- | []]. auto.
Qed.

Lemma within_weaken (lo lo' hi hi' : nat) {A} (c : @M T A) :
  (lo' <= lo)%nat -> (hi <= hi')%nat -> within lo hi c -> within lo' hi' c.
Proof.
  intros Hl Hh [Ho Hb]. split; [ exact Ho | ].
  intros e He. destruct (Hb e He) as [Ha Hu].
  split; [ now apply after_le with lo | lia ].
Qed.

End PhaseFacts.

(** [quiet] proves [within lo hi c] for a computation [c] that makes no
    call; [phases] takes [within lo hi c] through [c], finding for each
    computation of a sequence the phase it ends in. *)
Ltac quiet :=
  apply within_quiet;
  let e := fresh "e" in
  let He := fresh "He" in
  intros e He; walk He; subst e; reflexivity.

Ltac may_come_after :=
  unfold after; cbn [phase];
  first [ left; reflexivity
        | right; left; lia
        | right; right; split; reflexivity ].

Ltac phases_with other :=
  cbv beta zeta;
  lazymatch goal with
  | |- within ?lo ?hi (bind _ _) =>
      phases_bind other lo lo hi; intros ?; phases_with other
  | |- within _ _ (if ?c then _ else _) =>
      first [ quiet | destruct c; phases_with other ]
  | |- within _ _ (let '(_, _) := ?x in _) => destruct x; phases_with other
  | |- within _ _ (emit _) =>
      first [ quiet
            | apply within_emit; [ may_come_after | cbn [phase]; lia ] ]
  | |- within _ _ (newImage _ _ _ _) => unfold newImage; phases_with other
  | |- within _ _ (do_paint _ _ _ _ _ _) => unfold do_paint; phases_with other
  | |- within _ _ _ => first [ quiet | other ]
  end
with phases_bind other lo p hi :=
  lazymatch eval compute in (Nat.leb p hi) with
  | true =>
      first [ apply (within_bind lo p hi);
              [ lia | lia | solve [ phases_with other ] | ]
            | phases_bind other lo (S p) hi ]
  end.

Section PhasesOfTheProgram.
Context {T : Types} (E : Env T).

Lemma run_within painter compositor mesh imageBuffer writeImages :
  within 5 12 (run E painter compositor mesh imageBuffer writeImages).
Proof. unfold run. phases_with fail. Qed.

Lemma MainLoop_within argv compositor compositorOptions :
  within 0 14 (MainLoop E argv compositor compositorOptions).
Proof.
  unfold MainLoop.
  phases_with
    ltac:(apply within_weaken with (lo := 5%nat) (hi := 12%nat);
          [ lia | lia | apply run_within ]).
Qed.

End PhasesOfTheProgram.

(** * Further properties of the main loop *)

(** X1. [NonemptyStringArg] accepts an option exactly when its argument is
    there and is not the empty string, and says ARG_ILLEGAL otherwise; it
    writes a message only when it rejects.  An argument --yaml-output= or
    --stl-file= with nothing after the equals sign, and --yaml-output or
    --stl-file as the last argument, after arguments the parser steps
    over, makes [MainLoop] return 1. *)
Theorem NonemptyStringArg_accepts_iff {T : Types} (E : Env T) :
  (forall option messageOnError,
     fst (NonemptyStringArg option messageOnError) = ARG_OK <->
     exists c r, arg option = Some (String c r))
  /\ (forall option messageOnError,
        fst (NonemptyStringArg option messageOnError) = ARG_OK
        \/ fst (NonemptyStringArg option messageOnError) = ARG_ILLEGAL)
  /\ (forall option messageOnError,
        fst (NonemptyStringArg option messageOnError) = ARG_OK ->
        snd (NonemptyStringArg option messageOnError) = [])
  /\ (forall argv0 pre nm rest compositor compositorOptions,
        nm = "yaml-output"%string \/ nm = "stl-file"%string ->
        Forall (steps_over (usage E compositorOptions)) pre ->
        exit_status
          (MainLoop E (argv0 :: pre ++ ("--" ++ nm ++ "=")%string :: rest)
             compositor compositorOptions) = Some 1
        /\ exit_status
             (MainLoop E (argv0 :: pre ++ ["--" ++ nm]%string)
                compositor compositorOptions) = Some 1).
Proof.
  split; [ | split; [ | split ] ].
  - intros option messageOnError.
    destruct (NonemptyStringArg_status option messageOnError)
      as [[H Ha] | [H Ha]]; rewrite H; split; auto; try discriminate.
    intros (c & r & Hc). destruct Ha as [Ha | Ha]; congruence.
  - intros option messageOnError.
    destruct (NonemptyStringArg_status option messageOnError)
      as [[H _] | [H _]]; auto.
  - intros option messageOnError. unfold NonemptyStringArg.
    destruct (arg option) as [[ | c r] | ]; cbn [fst snd];
      try discriminate; reflexivity.
  - intros argv0 pre nm rest compositor compositorOptions Hnm Hpre.
    destruct (string_option_rejected E compositorOptions nm Hnm) as [Hr Hl].
    unfold exit_status. split; rewrite MainLoop_error; try reflexivity;
      unfold parsed, parse; cbn [tl].
    + now apply workhorse_rejects.
    + now apply workhorse_rejects_last.
Qed.

(** X2. [FloatArg] accepts an option exactly when its argument is there
    and [strtof] converts at least one character of it, and says
    ARG_ILLEGAL otherwise.  An argument --overlap=<a> of which [strtof]
    converts nothing, and --overlap as the last argument, after arguments
    the parser steps over, makes [MainLoop] return 1. *)
Theorem FloatArg_accepts_iff {T : Types} (E : Env T) :
  (forall option messageOnError,
     fst (FloatArg E option messageOnError) = ARG_OK <->
     exists a, arg option = Some a /\ snd (strtof E a) <> 0%nat)
  /\ (forall option messageOnError,
        fst (FloatArg E option messageOnError) = ARG_OK
        \/ fst (FloatArg E option messageOnError) = ARG_ILLEGAL)
  /\ (forall argv0 pre a rest compositor compositorOptions,
        snd (strtof E a) = 0%nat ->
        Forall (steps_over (usage E compositorOptions)) pre ->
        exit_status
          (MainLoop E (argv0 :: pre ++ ("--overlap=" ++ a)%string :: rest)
             compositor compositorOptions) = Some 1)
  /\ (forall argv0 pre compositor compositorOptions,
        Forall (steps_over (usage E compositorOptions)) pre ->
        exit_status
          (MainLoop E (argv0 :: pre ++ ["--overlap"]%string)
             compositor compositorOptions) = Some 1).
Proof.
  split; [ | split; [ | split ] ].
  - intros option messageOnError.
    destruct (FloatArg_status E option messageOnError)
      as [[H Ha] | [H Ha]]; rewrite H; split; auto; try discriminate.
    intros (a & Hs & Hn). apply Ha in Hs. congruence.
  - intros option messageOnError.
    destruct (FloatArg_status E option messageOnError)
      as [[H _] | [H _]]; auto.
  - intros argv0 pre a rest compositor compositorOptions Ha Hpre.
    unfold exit_status. rewrite MainLoop_error; [ reflexivity | ].
    unfold parsed, parse. cbn [tl].
    apply workhorse_rejects; [ exact Hpre | ].
    now apply overlap_option_rejected.
  - intros argv0 pre compositor compositorOptions Hpre.
    unfold exit_status. rewrite MainLoop_error; [ reflexivity | ].
    unfold parsed, parse. cbn [tl].
    apply workhorse_rejects_last; [ exact Hpre | ].
    apply overlap_option_alone.
Qed.

(** X3. The overload of [MainLoop] that takes the compositor's
    descriptors as an array reads them up to the first one whose
    [shortopt] is null: a null array stands for no descriptor, and what
    follows the first descriptor with a null [shortopt] is not looked
    at. *)
Theorem MainLoop_array_stops_at_terminator {T : Types} (E : Env T)
    (argv : list string) (compositor : Compositor T) :
  MainLoop_array E argv compositor None = MainLoop E argv compositor []
  /\ (forall l d rest,
        Forall (fun d => shortopt d <> None) l -> shortopt d = None ->
        MainLoop_array E argv compositor (Some (l ++ d :: rest)%list)
        = MainLoop E argv compositor l)
  /\ (forall a,
        exists l,
          MainLoop_array E argv compositor (Some a)
          = MainLoop E argv compositor l
          /\ Forall (fun d => shortopt d <> None) l).
Proof.
  split; [ reflexivity | split ].
  - intros l d rest Hl Hd. unfold MainLoop_array.
    now rewrite upToTerminator_app.
  - intros a. exists (upToTerminator a).
    split; [ reflexivity | apply upToTerminator_all ].
Qed.

(** X4. [MainLoop] saves an image only when writing images is on: no
    write-image option is given, or the last one given is the enabling
    one.  What is saved is the local painting of the rank, under the name
    local_painting<rank>.ppm, and on rank 0 also composite.ppm; when the
    last write-image option is the disabling one nothing is saved. *)
Theorem images_saved_only_when_enabled {T : Types} (E : Env T)
    (argv : list string) (compositor : Compositor T)
    (compositorOptions : list Descriptor) :
  (forall i f,
     In (EvSavePPM i f) (trace (MainLoop E argv compositor compositorOptions)) ->
     (present (options (parsed E argv compositorOptions) WRITE_IMAGE) = false
      \/ type (last (options (parsed E argv compositorOptions) WRITE_IMAGE))
         = ENABLE)
     /\ (f = ("local_painting" ++ CLib.string_of_int (rank E) ++ ".ppm")%string
         \/ (rank E = 0 /\ f = "composite.ppm"%string)))
  /\ (present (options (parsed E argv compositorOptions) WRITE_IMAGE) = true ->
      type (last (options (parsed E argv compositorOptions) WRITE_IMAGE))
      = DISABLE ->
      forall i f,
        ~ In (EvSavePPM i f)
             (trace (MainLoop E argv compositor compositorOptions))).
Proof.
  assert (Hinv : forall i f,
             In (EvSavePPM i f)
                (trace (MainLoop E argv compositor compositorOptions)) ->
             writeImagesOf E argv compositorOptions = true
             /\ (f = ("local_painting" ++ CLib.string_of_int (rank E)
                      ++ ".ppm")%string
                 \/ (rank E = 0 /\ f = "composite.ppm"%string))).
  { intros i f H. apply MainLoop_pipeline in H; [ | reflexivity ].
    destruct H as (painter & d & k & _ & _ & H). cbv zeta in H.
    apply run_save_inv in H.
    destruct H as [Hw [[_ Hf] | (Hr & Hf & _)]]; auto. }
  split.
  - intros i f H. apply Hinv in H. destruct H as [Hw Hf].
    split; [ | exact Hf ].
    unfold writeImagesOf in Hw.
    destruct (present (options (parsed E argv compositorOptions) WRITE_IMAGE));
      [ right; now apply Z.eqb_eq | now left ].
  - intros Hp Ht i f H. apply Hinv in H. destruct H as [Hw _].
    unfold writeImagesOf in Hw. rewrite Hp, Ht in Hw. discriminate Hw.
Qed.

(** X5. The painter of every paint call of [MainLoop] is the simple
    rasterizer, unless OpenGL is compiled in and the last painter option
    given is --paint-opengl, in which case it is the OpenGL painter. *)
Theorem painter_is_last_painter_option {T : Types} (E : Env T)
    (argv : list string) (compositor : Compositor T)
    (compositorOptions : list Descriptor) :
  forall p m i mv pr,
    In (EvPaint p m i mv pr)
       (trace (MainLoop E argv compositor compositorOptions)) ->
    (p = PainterOpenGL <->
     MINIGRAPHICS_ENABLE_OPENGL E = true
     /\ present (options (parsed E argv compositorOptions) PAINTER) = true
     /\ type (last (options (parsed E argv compositorOptions) PAINTER))
        = OPENGL)
    /\ (p = PainterSimple <->
        MINIGRAPHICS_ENABLE_OPENGL E = false
        \/ present (options (parsed E argv compositorOptions) PAINTER) = false
        \/ type (last (options (parsed E argv compositorOptions) PAINTER))
           <> OPENGL).
Proof.
  intros p m i mv pr H. apply MainLoop_painter_inv in H. subst p.
  destruct (present (options (parsed E argv compositorOptions) PAINTER));
    destruct (MINIGRAPHICS_ENABLE_OPENGL E);
    destruct (Z.eqb_spec
                (type (last (options (parsed E argv compositorOptions) PAINTER)))
                OPENGL) as [He | He];
    cbn [andb]; (split; split);
    try discriminate; try tauto; try (intros (? & ? & ?); congruence);
    try (intros [? | [? | ?]]; congruence); auto.
Qed.

(** X6. Only rank 0 loads geometry: [ReadSTL] and [MakeBox] are called on
    rank 0 only, [ReadSTL] with the argument of the last geometry option
    when that is --stl-file, [MakeBox] when there is no geometry option or
    the last is --box, and never both.  The mesh handed to [meshScatter] or
    [meshBroadcast] is what was loaded on rank 0 and the empty mesh on
    every other rank. *)
Theorem geometry_is_loaded_on_rank_0 {T : Types} (E : Env T)
    (argv : list string) (compositor : Compositor T)
    (compositorOptions : list Descriptor) :
  (forall filename,
     In (EvReadSTL filename)
        (trace (MainLoop E argv compositor compositorOptions)) ->
     rank E = 0
     /\ present (options (parsed E argv compositorOptions) GEOMETRY) = true
     /\ type (last (options (parsed E argv compositorOptions) GEOMETRY))
        = STL_FILE
     /\ arg (last (options (parsed E argv compositorOptions) GEOMETRY))
        = Some filename
     /\ ~ In EvMakeBox (trace (MainLoop E argv compositor compositorOptions)))
  /\ (In EvMakeBox (trace (MainLoop E argv compositor compositorOptions)) ->
      rank E = 0
      /\ (present (options (parsed E argv compositorOptions) GEOMETRY) = false
          \/ type (last (options (parsed E argv compositorOptions) GEOMETRY))
             = BOX))
  /\ (forall src,
        In (EvMeshScatter src)
           (trace (MainLoop E argv compositor compositorOptions))
        \/ (exists overlap,
              In (EvMeshBroadcast src overlap)
                 (trace (MainLoop E argv compositor compositorOptions))) ->
        loadedMesh E argv compositor compositorOptions src).
Proof.
  split; [ | split ].
  - intros f H.
    pose proof (MainLoop_load_inv E argv compositor compositorOptions _ H)
      as (Hr & Hp & Ht & Ha).
    repeat split; auto.
    intros Hb.
    pose proof (MainLoop_load_inv E argv compositor compositorOptions _ Hb)
      as (_ & [Hb' | Hb']); [ congruence | ].
    rewrite Ht in Hb'. discriminate Hb'.
  - intros H.
    exact (MainLoop_load_inv E argv compositor compositorOptions _ H).
  - intros src [H | [ov H]];
      pose proof (MainLoop_distribution_inv E argv compositor compositorOptions
                    _ H) as Hd; cbv beta iota in Hd; tauto.
Qed.

(** X7. The geometry is distributed by exactly one collective:
    [meshScatter] when the last distribution option given is
    --divide-geometry, [meshBroadcast] otherwise, and then with the overlap
    that [strtof] makes of the argument of the first overlap option, -0.05
    when there is none. *)
Theorem distribution_is_last_distribution_option {T : Types} (E : Env T)
    (argv : list string) (compositor : Compositor T)
    (compositorOptions : list Descriptor) :
  (forall src,
     In (EvMeshScatter src)
        (trace (MainLoop E argv compositor compositorOptions)) ->
     present (options (parsed E argv compositorOptions) DISTRIBUTION) = true
     /\ type (last (options (parsed E argv compositorOptions) DISTRIBUTION))
        = DIVIDE)
  /\ (forall src overlap,
        In (EvMeshBroadcast src overlap)
           (trace (MainLoop E argv compositor compositorOptions)) ->
        (present (options (parsed E argv compositorOptions) DISTRIBUTION)
         = false
         \/ type (last (options (parsed E argv compositorOptions) DISTRIBUTION))
            <> DIVIDE)
        /\ (present (options (parsed E argv compositorOptions) OVERLAP) = false ->
            overlap = of_Q E (-0.05))
        /\ (forall a,
              present (options (parsed E argv compositorOptions) OVERLAP) = true ->
              arg (first (options (parsed E argv compositorOptions) OVERLAP))
              = Some a ->
              overlap = fst (strtof E a)))
  /\ (forall src src' overlap,
        In (EvMeshScatter src)
           (trace (MainLoop E argv compositor compositorOptions)) ->
        ~ In (EvMeshBroadcast src' overlap)
             (trace (MainLoop E argv compositor compositorOptions))).
Proof.
  assert (Hs : forall src,
             In (EvMeshScatter src)
                (trace (MainLoop E argv compositor compositorOptions)) ->
             dividesOf E argv compositorOptions = true).
  { intros src H.
    exact (proj1 (MainLoop_distribution_inv E argv compositor
                    compositorOptions _ H)). }
  assert (Hb : forall src ov,
             In (EvMeshBroadcast src ov)
                (trace (MainLoop E argv compositor compositorOptions)) ->
             dividesOf E argv compositorOptions = false
             /\ ov = overlapOf E argv compositorOptions).
  { intros src ov H.
    pose proof (MainLoop_distribution_inv E argv compositor compositorOptions
                  _ H) as Hd. cbv beta iota in Hd. tauto. }
  split; [ | split ].
  - intros src H. apply Hs in H. unfold dividesOf in H.
    apply andb_prop in H. destruct H as [Hp Ht].
    split; [ exact Hp | now apply Z.eqb_eq ].
  - intros src ov H. apply Hb in H. destruct H as [Hd ->].
    unfold dividesOf in Hd. apply andb_false_iff in Hd.
    split; [ | split ].
    + destruct Hd as [Hd | Hd]; [ now left | right; now apply Z.eqb_neq ].
    + unfold overlapOf. now intros ->.
    + unfold overlapOf. now intros a -> ->.
  - intros src src' ov H H'. apply Hs in H. apply Hb in H'.
    destruct H' as [H' _]. congruence.
Qed.

(** X8. The timing file is written by rank 0 only, and only by a run
    that goes on to MPI_Finalize and returns 0; its name is the argument of
    the first yaml-output option given, timing.yaml when there is none.
    On rank 0 every run that gets to MPI_Finalize has written it. *)
Theorem timing_file_is_written_on_rank_0 {T : Types} (E : Env T)
    (argv : list string) (compositor : Compositor T)
    (compositorOptions : list Descriptor) :
  (forall filename,
     In (EvWriteFile filename)
        (trace (MainLoop E argv compositor compositorOptions)) ->
     rank E = 0
     /\ exit_status (MainLoop E argv compositor compositorOptions) = Some 0
     /\ In EvMPI_Finalize (trace (MainLoop E argv compositor compositorOptions))
     /\ (present (options (parsed E argv compositorOptions) YAML_OUTPUT) = false ->
         filename = "timing.yaml"%string)
     /\ (forall a,
           present (options (parsed E argv compositorOptions) YAML_OUTPUT) = true ->
           arg (first (options (parsed E argv compositorOptions) YAML_OUTPUT))
           = Some a ->
           filename = a))
  /\ (In EvMPI_Finalize (trace (MainLoop E argv compositor compositorOptions)) ->
      rank E = 0 ->
      exists filename,
        In (EvWriteFile filename)
           (trace (MainLoop E argv compositor compositorOptions))).
Proof.
  split.
  - intros f H. apply MainLoop_write_inv in H. destruct H as (Hr & -> & Ho).
    split; [ exact Hr | ].
    split; [ unfold exit_status; now rewrite Ho | ].
    split; [ now apply MainLoop_completes | ].
    unfold yamlFilenameOf. split; [ now intros -> | now intros a -> -> ].
  - intros H Hr. apply MainLoop_completes in H.
    exists (yamlFilenameOf E argv compositorOptions).
    now apply MainLoop_writes.
Qed.

(** X9. [MainLoop] prints the usage message to standard output exactly
    when the parser reports no error and --help is given, and to standard
    error exactly when, the parser reporting no error and --help not being
    given, there is an unknown option or a stray argument or the
    compositor rejects its options; when the parser reports an error the
    usage message is not printed at all.  The compositor is asked to set
    its options exactly when the command line passes the four checks on
    the arguments. *)
Theorem usage_is_printed_iff {T : Types} (E : Env T)
    (argv : list string) (compositor : Compositor T)
    (compositorOptions : list Descriptor) :
  (In (EvPrintUsage false)
      (trace (MainLoop E argv compositor compositorOptions)) <->
   error (parsed E argv compositorOptions) = false
   /\ present (options (parsed E argv compositorOptions) HELP) = true)
  /\ (In (EvPrintUsage true)
         (trace (MainLoop E argv compositor compositorOptions)) <->
      error (parsed E argv compositorOptions) = false
      /\ present (options (parsed E argv compositorOptions) HELP) = false
      /\ (present (options (parsed E argv compositorOptions) DUMMY) = true
          \/ nonOptionsCount (parsed E argv compositorOptions) > 0
          \/ setOptions compositor (options (parsed E argv compositorOptions))
             = false))
  /\ (error (parsed E argv compositorOptions) = true ->
      forall to_cerr,
        ~ In (EvPrintUsage to_cerr)
             (trace (MainLoop E argv compositor compositorOptions)))
  /\ (In EvSetOptions (trace (MainLoop E argv compositor compositorOptions)) <->
      clean E argv compositorOptions).
Proof.
  split; [ | split; [ | split ] ].
  - split.
    + intros H.
      exact (MainLoop_checks_inv E argv compositor compositorOptions _ H).
    + intros [H1 H2]. now apply MainLoop_usage_cout.
  - split.
    + intros H.
      exact (MainLoop_checks_inv E argv compositor compositorOptions _ H).
    + intros (H1 & H2 & H3). now apply MainLoop_usage_cerr.
  - intros He [ | ] H;
      pose proof (MainLoop_checks_inv E argv compositor compositorOptions _ H)
        as Hc; cbv beta iota in Hc; destruct Hc as [Hc _]; congruence.
  - split.
    + intros H.
      exact (MainLoop_checks_inv E argv compositor compositorOptions _ H).
    + apply MainLoop_clean.
Qed.

(** X10. When the descriptors of the compositor keep clear of the option
    indices of [MainLoop], every image buffer [MainLoop] constructs is at
    least one pixel wide and one pixel high, and covers all its pixels;
    its width is what [atoi] makes of the argument of the first width
    option given, and likewise its height. *)
Theorem image_dimensions_are_positive {T : Types} (E : Env T)
    (argv : list string) (compositor : Compositor T)
    (compositorOptions : list Descriptor) :
  disjoint_indices compositorOptions ->
  forall i,
    In (EvNew i) (trace (MainLoop E argv compositor compositorOptions)) ->
    1 <= getWidth i /\ 1 <= getHeight i
    /\ getRegionBegin i = 0 /\ getRegionEnd i = getWidth i * getHeight i
    /\ (forall a,
          present (options (parsed E argv compositorOptions) WIDTH) = true ->
          arg (first (options (parsed E argv compositorOptions) WIDTH)) = Some a ->
          getWidth i = CLib.atoi a)
    /\ (forall a,
          present (options (parsed E argv compositorOptions) HEIGHT) = true ->
          arg (first (options (parsed E argv compositorOptions) HEIGHT)) = Some a ->
          getHeight i = CLib.atoi a).
Proof.
  intros Hd i H. apply MainLoop_new_inv in H. destruct H as (k & -> & _).
  destruct (sizes_positive E argv compositorOptions Hd) as [Hw Hh].
  cbn [getWidth getHeight getRegionBegin getRegionEnd fullScreen].
  repeat split; auto;
    unfold imageWidthOf, imageHeightOf, intOf; now intros a -> ->.
Qed.

(** X11. When the descriptors of the compositor keep clear of the option
    indices of [MainLoop], [MainLoop] returns 1 exactly in these cases:
    the parser reports an error; or, --help not being given, there is an
    unknown option or a stray argument or the compositor rejects its
    options; or reading the STL file fails.  The two internal errors, a
    bad painter option and an invalid geometry type, do not happen. *)
Theorem MainLoop_returns_1_iff {T : Types} (E : Env T)
    (argv : list string) (compositor : Compositor T)
    (compositorOptions : list Descriptor) :
  disjoint_indices compositorOptions ->
  (exit_status (MainLoop E argv compositor compositorOptions) = Some 1 <->
   error (parsed E argv compositorOptions) = true
   \/ (error (parsed E argv compositorOptions) = false
       /\ present (options (parsed E argv compositorOptions) HELP) = false
       /\ (present (options (parsed E argv compositorOptions) DUMMY) = true
           \/ nonOptionsCount (parsed E argv compositorOptions) > 0
           \/ setOptions compositor (options (parsed E argv compositorOptions))
              = false))
   \/ (exists filename,
         In (EvReadSTL filename)
            (trace (MainLoop E argv compositor compositorOptions))
         /\ fst (ReadSTL E filename (emptyMesh E)) = false)).
Proof.
  intros Hd. unfold exit_status. split.
  - intros H.
    destruct (outcome (MainLoop E argv compositor compositorOptions))
      as [s | s | ] eqn:Ho; [ | | discriminate H ]; injection H as ->.
    + apply MainLoop_Next in Ho. discriminate Ho.
    + now apply MainLoop_Returned_1.
  - intros [H | [(H1 & H2 & H3) | (f & H & Hf)]].
    + now rewrite MainLoop_error.
    + now rewrite MainLoop_rejected.
    + destruct (MainLoop_stl E argv compositor compositorOptions f H Hf)
        as [_ Ho]. now rewrite Ho.
Qed.

(** X12. When the descriptors of the compositor keep clear of the option
    indices of [MainLoop], a run of [MainLoop] that does not return has
    died of one of these: the number of pixels of the image does not fit
    an [int]; [compose] failed on the image it was called with; [Gather]
    failed on the image [compose] returned.  So no argument of an option
    that is absent is read, and the image buffer is never null where it
    is used. *)
Theorem MainLoop_dies_only_of {T : Types} (E : Env T)
    (argv : list string) (compositor : Compositor T)
    (compositorOptions : list Descriptor) :
  disjoint_indices compositorOptions ->
  exit_status (MainLoop E argv compositor compositorOptions) = None ->
  CLib.INT_MAX
  < imageWidthOf E argv compositorOptions
    * imageHeightOf E argv compositorOptions
  \/ exists i,
       In (EvCompose i) (trace (MainLoop E argv compositor compositorOptions))
       /\ (compose compositor i = None
           \/ exists c,
                compose compositor i = Some c
                /\ In (EvGather c 0)
                      (trace (MainLoop E argv compositor compositorOptions))
                /\ Gather E c 0 = None).
Proof.
  intros Hd H. unfold exit_status in H.
  destruct (outcome (MainLoop E argv compositor compositorOptions))
    as [s | s | ] eqn:Ho; try discriminate H.
  now apply MainLoop_Aborted.
Qed.

(** X13. When the descriptors of the compositor keep clear of the option
    indices of [MainLoop], the command line passes the four checks, the
    compositor takes its options, the number of pixels fits an [int],
    [ReadSTL] does not fail on the file of the last geometry option on
    rank 0, and neither [compose] nor [Gather]
    fails, [MainLoop] runs to MPI_Finalize and returns 0. *)
Theorem MainLoop_completes_when {T : Types} (E : Env T)
    (argv : list string) (compositor : Compositor T)
    (compositorOptions : list Descriptor) :
  disjoint_indices compositorOptions ->
  clean E argv compositorOptions ->
  setOptions compositor (options (parsed E argv compositorOptions)) = true ->
  imageWidthOf E argv compositorOptions
  * imageHeightOf E argv compositorOptions <= CLib.INT_MAX ->
  (rank E = 0 ->
   forall filename,
     arg (last (options (parsed E argv compositorOptions) GEOMETRY))
     = Some filename ->
     fst (ReadSTL E filename (emptyMesh E)) = true) ->
  (forall i, compose compositor i <> None) ->
  (forall c, gatheredPixels E c <> None) ->
  exit_status (MainLoop E argv compositor compositorOptions) = Some 0
  /\ In EvMPI_Finalize (trace (MainLoop E argv compositor compositorOptions)).
Proof.
  intros Hd (H1 & H2 & H3 & H4) Hs Hr Hstl Hc Hg.
  assert (Ho : outcome (MainLoop E argv compositor compositorOptions) = Next 0).
  { destruct (outcome (MainLoop E argv compositor compositorOptions))
      as [s | s | ] eqn:Ho.
    - apply MainLoop_Next in Ho. now subst s.
    - exfalso.
      destruct (MainLoop_Returned E argv compositor compositorOptions s Ho)
        as [-> | (_ & _ & Hh)]; [ | congruence ].
      apply MainLoop_Returned_1 in Ho; [ | exact Hd ].
      destruct Ho as [Ho | [(_ & _ & [Ho | [Ho | Ho]]) | (f & Hf & Hn)]];
        try congruence.
      + apply Z.gtb_gt in Ho. congruence.
      + pose proof (MainLoop_load_inv E argv compositor compositorOptions _ Hf)
          as (Hrank & _ & _ & Ha).
        rewrite (Hstl Hrank f Ha) in Hn. discriminate Hn.
    - exfalso.
      apply MainLoop_Aborted in Ho; [ | exact Hd ].
      destruct Ho as [Ho | (i & _ & [Ho | (c & _ & _ & Ho)])].
      + lia.
      + now apply Hc in Ho.
      + unfold Gather in Ho.
        destruct (gatheredPixels E c) eqn:Hp; [ | now apply Hg in Hp ].
        destruct (rank E =? 0); discriminate Ho. }
  split; [ unfold exit_status; now rewrite Ho | now apply MainLoop_completes ].
Qed.


(** X15. The pipeline of a run that completes: the mesh is sorted if the
    blend is order dependent, the image is painted once, all ranks meet at
    a barrier, the painted image is composed once, what [compose] returned
    is gathered once to rank 0, and then, if writing images is on, the
    local painting is saved and, on rank 0, the gathered image; in this
    order and nothing else. *)
Theorem run_pipeline_in_order {T : Types} (E : Env T)
    (painter : Painter) (compositor : Compositor T) (mesh : Mesh T)
    (imageBuffer : Image T) (writeImages : bool) (c g : Image T) :
  paintable imageBuffer ->
  compose compositor (paintedImage E painter mesh imageBuffer) = Some c ->
  Gather E c 0 = Some g ->
  filter is_stage
    (trace (run E painter compositor mesh imageBuffer writeImages)) =
  ((if blendIsOrderDependent imageBuffer
    then [EvVisibilitySort mesh (run_modelview E mesh)
            (run_projection E mesh imageBuffer)]
    else [])
   ++ [EvPaint painter (painted_mesh E mesh imageBuffer)
         (localImage E imageBuffer) (run_modelview E mesh)
         (run_projection E mesh imageBuffer);
       EvMPI_Barrier;
       EvCompose (paintedImage E painter mesh imageBuffer);
       EvGather c 0]
   ++ (if writeImages
       then EvSavePPM (paintedImage E painter mesh imageBuffer)
              ("local_painting" ++ CLib.string_of_int (rank E) ++ ".ppm")
            :: (if rank E =? 0 then [EvSavePPM g "composite.ppm"] else [])
       else []))%list.
Proof.
  intros Hp Hc Hg.
  unfold paintedImage, painted_mesh in *.
  change (blendIsOrderDependent imageBuffer)
    with (blendIsOrderDependent (localImage E imageBuffer)) in *.
  unfold run.
  rewrite (paintable_int_mul imageBuffer Hp). cbn [must bind ret emit yaml].
  rewrite (paintable_createNew E imageBuffer Hp).
  fold (run_modelview E mesh) (run_projection E mesh imageBuffer).
  unfold do_paint. cbn [must bind ret emit yaml app trace snd fst].
  set (b := blendIsOrderDependent (localImage E imageBuffer)) in *.
  clearbody b.
  destruct b; cbn [must bind ret emit yaml app trace snd fst]; rewrite Hc;
    cbn [must bind ret emit yaml app trace snd fst]; rewrite Hg;
    destruct writeImages, (rank E =? 0); reflexivity.
Qed.

(** X16. No two ranks save an image under the same name: the names of
    the local paintings of different ranks differ, and none of them is
    composite.ppm, which rank 0 alone writes. *)
Theorem ranks_save_under_different_names {T : Types} (E E' : Env T)
    (painter painter' : Painter) (compositor compositor' : Compositor T)
    (mesh mesh' : Mesh T) (imageBuffer imageBuffer' : Image T)
    (writeImages writeImages' : bool) :
  rank E <> rank E' ->
  forall i i' f,
    In (EvSavePPM i f)
       (trace (run E painter compositor mesh imageBuffer writeImages)) ->
    ~ In (EvSavePPM i' f)
         (trace (run E' painter' compositor' mesh' imageBuffer' writeImages')).
Proof.
  intros Hr i i' f H H'.
  apply run_save_inv in H, H'.
  destruct H as [_ [[_ ->] | (H0 & -> & _)]];
    destruct H' as [_ [[_ Hf] | (H0' & Hf & _)]].
  - apply local_painting_inj in Hf. congruence.
  - now apply local_painting_not_composite in Hf.
  - symmetry in Hf. now apply local_painting_not_composite in Hf.
  - congruence.
Qed.


(** X18. A run of [MainLoop] that returns early, with 1 or for --help
    with 0, returns before the geometry is distributed: it has no call of
    [meshScatter] or [meshBroadcast], no reduction, no barrier, it paints
    nothing, composes nothing, saves no image, writes no timing file and
    does not get to MPI_Finalize.  This is so in particular on rank 0 when
    [ReadSTL] fails. *)
Theorem early_return_precedes_distribution {T : Types} (E : Env T)
    (argv : list string) (compositor : Compositor T)
    (compositorOptions : list Descriptor) :
  (forall s,
     outcome (MainLoop E argv compositor compositorOptions) = Returned s ->
     forall e,
       In e (trace (MainLoop E argv compositor compositorOptions)) ->
       match e with
       | EvMeshScatter _ | EvMeshBroadcast _ _ | EvMPI_Allreduce
       | EvMPI_Barrier | EvTimer _ | EvVisibilitySort _ _ _
       | EvPaint _ _ _ _ _ | EvCompose _ | EvGather _ _ | EvSavePPM _ _
       | EvWriteFile _ | EvMPI_Finalize => False
       | _ => True
       end)
  /\ (forall filename,
        In (EvReadSTL filename)
           (trace (MainLoop E argv compositor compositorOptions)) ->
        fst (ReadSTL E filename (emptyMesh E)) = false ->
        forall src overlap,
          ~ In (EvMeshScatter src)
               (trace (MainLoop E argv compositor compositorOptions))
          /\ ~ In (EvMeshBroadcast src overlap)
                  (trace (MainLoop E argv compositor compositorOptions))).
Proof.
  assert (Hearly : forall s,
             outcome (MainLoop E argv compositor compositorOptions)
             = Returned s ->
             forall e,
               In e (trace (MainLoop E argv compositor compositorOptions)) ->
               match e with
               | EvMeshScatter _ | EvMeshBroadcast _ _ | EvMPI_Allreduce
               | EvMPI_Barrier | EvTimer _ | EvVisibilitySort _ _ _
               | EvPaint _ _ _ _ _ | EvCompose _ | EvGather _ _
               | EvSavePPM _ _ | EvWriteFile _ | EvMPI_Finalize => False
               | _ => True
               end).
  { intros s Ho e He.
    pose proof (MainLoop_past_returns E argv compositor compositorOptions e s
                  He) as Hp.
    destruct e; try exact I; now apply Hp. }
  split; [ exact Hearly | ].
  intros f H Hf src ov.
  destruct (MainLoop_stl E argv compositor compositorOptions f H Hf)
    as [_ Ho].
  split; intros He; exact (Hearly 1 Ho _ He).
Qed.

(** X19. Every run of [MainLoop] calls MPI_Init, once, before anything
    but the first entry of the timing record; a run that returns early,
    with 1 or for --help with 0, does not call MPI_Finalize. *)
Theorem MPI_is_initialized_once {T : Types} (E : Env T)
    (argv : list string) (compositor : Compositor T)
    (compositorOptions : list Descriptor) :
  (exists rest,
     trace (MainLoop E argv compositor compositorOptions)
     = EvYaml "composite-algorithm" (YString "binary swap")
       :: EvMPI_Init :: rest
     /\ ~ In EvMPI_Init rest)
  /\ (forall s,
        outcome (MainLoop E argv compositor compositorOptions) = Returned s ->
        ~ In EvMPI_Finalize
             (trace (MainLoop E argv compositor compositorOptions))).
Proof.
  split.
  { unfold MainLoop.
    rewrite trace_bind. cbn [trace outcome yaml emit fst snd app].
    rewrite trace_bind. cbn [trace outcome yaml emit fst snd app].
    eexists. split; [ reflexivity | ].
    intros H. walk H. now apply run_events in H. }
  intros s Ho H. apply MainLoop_completes in H. congruence.
Qed.

(** X20. The timing record tells what was run: the width and height it
    gives are those of every image buffer constructed; the painter it
    names is the painter of every paint call; it says that rendering is
    order dependent exactly when the blend of the painted image is; it
    says "divide" when the geometry is scattered and "duplicate" when it
    is broadcast, and the overlap it gives is the overlap of the
    broadcast. *)
Theorem timing_record_tells_the_run {T : Types} (E : Env T)
    (argv : list string) (compositor : Compositor T)
    (compositorOptions : list Descriptor) :
  (forall w h i,
     In (EvNew i) (trace (MainLoop E argv compositor compositorOptions)) ->
     (In (EvYaml "image-width" (YInt w))
         (trace (MainLoop E argv compositor compositorOptions)) ->
      getWidth i = w)
     /\ (In (EvYaml "image-height" (YInt h))
            (trace (MainLoop E argv compositor compositorOptions)) ->
         getHeight i = h))
  /\ (forall s s' p m i mv pr,
        In (EvPaint p m i mv pr)
           (trace (MainLoop E argv compositor compositorOptions)) ->
        (In (EvYaml "painter" (YString s))
            (trace (MainLoop E argv compositor compositorOptions)) ->
         (s = "OpenGL"%string /\ p = PainterOpenGL)
         \/ (s = "simple"%string /\ p = PainterSimple))
        /\ (In (EvYaml "rendering-order-dependent" (YString s'))
               (trace (MainLoop E argv compositor compositorOptions)) ->
            (s' = "yes"%string /\ blendIsOrderDependent i = true)
            \/ (s' = "no"%string /\ blendIsOrderDependent i = false)))
  /\ (forall s,
        In (EvYaml "geometry-distribution" (YString s))
           (trace (MainLoop E argv compositor compositorOptions)) ->
        (forall src,
           In (EvMeshScatter src)
              (trace (MainLoop E argv compositor compositorOptions)) ->
           s = "divide"%string)
        /\ (forall src overlap,
              In (EvMeshBroadcast src overlap)
                 (trace (MainLoop E argv compositor compositorOptions)) ->
              s = "duplicate"%string))
  /\ (forall recorded,
        In (EvYaml "geometry-overlap" (YFloat recorded))
           (trace (MainLoop E argv compositor compositorOptions)) ->
        (forall src,
           ~ In (EvMeshScatter src)
                (trace (MainLoop E argv compositor compositorOptions)))
        /\ (forall src overlap,
              In (EvMeshBroadcast src overlap)
                 (trace (MainLoop E argv compositor compositorOptions)) ->
              overlap = recorded)).
Proof.
  split; [ | split; [ | split ] ].
  - intros w h i Hi. apply MainLoop_new_inv in Hi.
    destruct Hi as (k & -> & _). cbn [getWidth getHeight fullScreen].
    split; intros H; apply MainLoop_yaml_inv in H.
    + destruct H as (H & _). specialize (H eq_refl). now injection H as <-.
    + destruct H as (_ & H & _). specialize (H eq_refl). now injection H as <-.
  - intros s s' p m i mv pr Hp. split; intros H; apply MainLoop_yaml_inv in H.
    + destruct H as (_ & _ & H & _). specialize (H eq_refl).
      apply MainLoop_painter_inv in Hp. subst p. injection H as ->.
      destruct (present (options (parsed E argv compositorOptions) PAINTER)
                && (MINIGRAPHICS_ENABLE_OPENGL E
                    && (type (last (options (parsed E argv compositorOptions)
                                      PAINTER)) =? OPENGL))); auto.
    + destruct H as (_ & _ & _ & H & _). specialize (H eq_refl).
      destruct H as (k & Hk & H). injection H as ->.
      apply MainLoop_paint_inv in Hp. destruct Hp as (k' & Hk' & ->).
      assert (k' = k) by congruence. subst k'.
      unfold blendIsOrderDependent. cbn [kind fullScreen].
      destruct (kindIsOrderDependent k); auto.
  - intros s H. apply MainLoop_yaml_inv in H.
    destruct H as (_ & _ & _ & _ & H & _). specialize (H eq_refl).
    injection H as ->. split.
    + intros src Hs.
      pose proof (MainLoop_distribution_inv E argv compositor compositorOptions
                    _ Hs) as [Hd _].
      now rewrite Hd.
    + intros src ov Hb.
      pose proof (MainLoop_distribution_inv E argv compositor compositorOptions
                    _ Hb) as [Hd _].
      now rewrite Hd.
  - intros recorded H. apply MainLoop_yaml_inv in H.
    destruct H as (_ & _ & _ & _ & _ & H). specialize (H eq_refl).
    destruct H as [Hd H]. injection H as ->. split.
    + intros src Hs.
      pose proof (MainLoop_distribution_inv E argv compositor compositorOptions
                    _ Hs) as [Hd' _].
      congruence.
    + intros src ov Hb.
      pose proof (MainLoop_distribution_inv E argv compositor compositorOptions
                    _ Hb) as (_ & Ho & _).
      exact Ho.
Qed.

(** X21. What a rank does with the command line does not depend on the
    rank.  Two ranks that are given the same command line, with the same
    [strtof] and the same build, call the same collective to distribute
    the geometry, never one [meshScatter] and the other [meshBroadcast],
    and broadcast with the same overlap; they paint with the same painter
    into images of the same class, width and height. *)
Theorem ranks_agree_on_the_settings {T : Types} (E E' : Env T)
    (argv : list string) (compositor compositor' : Compositor T)
    (compositorOptions : list Descriptor) :
  strtof E = strtof E' ->
  MINIGRAPHICS_ENABLE_OPENGL E = MINIGRAPHICS_ENABLE_OPENGL E' ->
  of_Q E = of_Q E' ->
  (forall src src' overlap,
     In (EvMeshScatter src)
        (trace (MainLoop E argv compositor compositorOptions)) ->
     ~ In (EvMeshBroadcast src' overlap)
          (trace (MainLoop E' argv compositor' compositorOptions)))
  /\ (forall src overlap src' overlap',
        In (EvMeshBroadcast src overlap)
           (trace (MainLoop E argv compositor compositorOptions)) ->
        In (EvMeshBroadcast src' overlap')
           (trace (MainLoop E' argv compositor' compositorOptions)) ->
        overlap = overlap')
  /\ (forall p m i mv pr p' m' i' mv' pr',
        In (EvPaint p m i mv pr)
           (trace (MainLoop E argv compositor compositorOptions)) ->
        In (EvPaint p' m' i' mv' pr')
           (trace (MainLoop E' argv compositor' compositorOptions)) ->
        p = p' /\ kind i = kind i'
        /\ getWidth i = getWidth i' /\ getHeight i = getHeight i').
Proof.
  intros Hs Ho Hq.
  destruct (settings_agree E E' argv compositorOptions Hs Ho)
    as (Hw & Hh & Hc & Hd & Hdiv).
  split; [ | split ].
  - intros src src' ov H H'.
    pose proof (MainLoop_distribution_inv E argv compositor compositorOptions
                  _ H) as [H1 _].
    pose proof (MainLoop_distribution_inv E' argv compositor' compositorOptions
                  _ H') as [H1' _].
    congruence.
  - intros src ov src' ov' H H'.
    pose proof (MainLoop_distribution_inv E argv compositor compositorOptions
                  _ H) as (_ & -> & _).
    pose proof (MainLoop_distribution_inv E' argv compositor' compositorOptions
                  _ H') as (_ & -> & _).
    now apply overlap_agree.
  - intros p m i mv pr p' m' i' mv' pr' H H'.
    pose proof (MainLoop_painter_inv E argv compositor compositorOptions
                  _ _ _ _ _ H) as Hp.
    pose proof (MainLoop_painter_inv E' argv compositor' compositorOptions
                  _ _ _ _ _ H') as Hp'.
    apply MainLoop_paint_inv in H, H'.
    destruct H as (k & Hk & ->), H' as (k' & Hk' & ->).
    rewrite <- Hc, <- Hd in Hk'.
    assert (k' = k) by congruence. subst k'.
    cbn [kind getWidth getHeight fullScreen].
    repeat split; auto.
    subst p p'.
    now rewrite (parsed_agree E E' argv compositorOptions Hs Ho), Ho.
Qed.

(** X22. The calls of a run of [MainLoop] come in this order: MPI_Init,
    [setOptions], the construction of the image buffer, the loading of the
    geometry, its distribution, the reductions, the visibility sort, the
    painting, the barrier, [compose], [Gather], the saving of images, the
    writing of the timing file, MPI_Finalize.  Of two calls of a run the
    later one is of a later phase, or of the same phase when that is the
    construction of image buffers, the reductions or the saving of images;
    so each of the other calls is made at most once in a run, and at most
    one of [ReadSTL] and [MakeBox], and at most one of [meshScatter] and
    [meshBroadcast]. *)
Theorem calls_come_in_phase_order {T : Types} (E : Env T)
    (argv : list string) (compositor : Compositor T)
    (compositorOptions : list Descriptor) :
  forall pre e post e',
    trace (MainLoop E argv compositor compositorOptions)
    = (pre ++ e :: post)%list ->
    In e' post ->
    phase e <> 0%nat -> phase e' <> 0%nat ->
    ((phase e < phase e')%nat
     \/ (phase e = phase e' /\ repeats (phase e) = true))
    /\ (repeats (phase e) = false -> phase e' <> phase e).
Proof.
  intros pre e post e' Heq He' Hp Hp'.
  destruct (MainLoop_within E argv compositor compositorOptions) as [Ho _].
  pose proof (Ho pre e post e' Heq He' Hp Hp') as Hb.
  split; [ exact Hb | ].
  intros Hr Hsame. destruct Hb as [Hb | [_ Hb]]; [ lia | congruence ].
Qed.

(** * The further properties at work on concrete runs *)

(** "--box --stl-file=": the empty file name is rejected and MainLoop
    returns 1. *)
Lemma NonemptyStringArg_accepts_iff_witness :
  fst (NonemptyStringArg
         (mkOption GEOMETRY STL_FILE "--stl-file=" (Some ""%string)) true)
  = ARG_ILLEGAL
  /\ exit_status (MainLoop (Demo.E 0 false)
                    (Demo.command ["--box"; "--stl-file="]%string)
                    (Demo.compositor 0) []) = Some 1.
Proof.
  destruct (NonemptyStringArg_accepts_iff (Demo.E 0 false))
    as (Hiff & Hor & _ & Hrun).
  split.
  - destruct (Hor (mkOption GEOMETRY STL_FILE "--stl-file=" (Some ""%string))
                  true) as [H | H]; [ | exact H ].
    apply Hiff in H. destruct H as (c & r & H). discriminate H.
  - apply (Hrun "miniGraphics"%string ["--box"%string] "stl-file"%string
             [] (Demo.compositor 0) []).
    + right. reflexivity.
    + constructor; [ | constructor ].
      exact (proj1 (flag_steps_over (Demo.E 0 false) [])).
Defined.

(** "--overlap=": nothing to convert, MainLoop returns 1. *)
Lemma FloatArg_accepts_iff_witness :
  exit_status (MainLoop (Demo.E 0 false) (Demo.command ["--overlap="]%string)
                 (Demo.compositor 0) []) = Some 1.
Proof.
  destruct (FloatArg_accepts_iff (Demo.E 0 false)) as (_ & _ & Hrun & _).
  apply (Hrun "miniGraphics"%string [] ""%string [] (Demo.compositor 0) []).
  - reflexivity.
  - constructor.
Defined.

(** An array of three descriptors, the second one the terminator: the
    third is not looked at. *)
Lemma MainLoop_array_stops_at_terminator_witness :
  MainLoop_array (Demo.E 0 false) (Demo.command []) (Demo.compositor 0)
    (Some [ mkDescriptor 7 0 (Some "r"%string) (Some "rounds"%string) Arg_None;
            terminator;
            mkDescriptor 8 0 (Some "x"%string) (Some "extra"%string) Arg_None ])
  = MainLoop (Demo.E 0 false) (Demo.command []) (Demo.compositor 0)
      [ mkDescriptor 7 0 (Some "r"%string) (Some "rounds"%string) Arg_None ].
Proof.
  destruct (MainLoop_array_stops_at_terminator (Demo.E 0 false)
              (Demo.command []) (Demo.compositor 0)) as (_ & H & _).
  apply (H [ mkDescriptor 7 0 (Some "r"%string) (Some "rounds"%string)
               Arg_None ]
           terminator
           [ mkDescriptor 8 0 (Some "x"%string) (Some "extra"%string)
               Arg_None ]).
  - constructor; [ discriminate | constructor ].
  - reflexivity.
Defined.

(** "--enable-write-image --disable-write-image": the local painting is
    not saved. *)
Lemma images_saved_only_when_enabled_witness :
  ~ In (EvSavePPM
          (fullScreen (Demo.E 0 false) ImageRGBAUByteColorFloatDepth 1100 900)
          "local_painting0.ppm")
       (trace (MainLoop (Demo.E 0 false)
                 (Demo.command ["--enable-write-image";
                                "--disable-write-image"]%string)
                 (Demo.compositor 0) [])).
Proof.
  destruct (images_saved_only_when_enabled (Demo.E 0 false)
              (Demo.command ["--enable-write-image";
                             "--disable-write-image"]%string)
              (Demo.compositor 0) []) as (_ & H).
  apply H; reflexivity.
Defined.

(** "--paint-opengl" with OpenGL compiled in: the painter is the OpenGL
    painter, and the last painter option is of type OPENGL. *)
Lemma painter_is_last_painter_option_witness :
  type (last (options (parsed (Demo.E 0 true)
                         (Demo.command ["--paint-opengl"]%string) [])
                PAINTER)) = OPENGL.
Proof.
  destruct (painter_is_last_painter_option (Demo.E 0 true)
              (Demo.command ["--paint-opengl"]%string) (Demo.compositor 0) []
              PainterOpenGL Demo.box
              (fullScreen (Demo.E 0 true) ImageRGBAUByteColorFloatDepth
                 1100 900)
              tt tt) as [[H _] _]; [ in_trace | ].
  exact (proj2 (proj2 (H eq_refl))).
Defined.

(** With no option, rank 0 makes the box and rank 1 hands the empty mesh
    to the broadcast. *)
Lemma geometry_is_loaded_on_rank_0_witness :
  rank (Demo.E 0 false) = 0
  /\ loadedMesh (Demo.E 1 false) (Demo.command []) (Demo.compositor 1) []
       (@mkMesh Demo.T 0 []).
Proof.
  split.
  - destruct (geometry_is_loaded_on_rank_0 (Demo.E 0 false) (Demo.command [])
                (Demo.compositor 0) []) as (_ & H & _).
    apply H. in_trace.
  - destruct (geometry_is_loaded_on_rank_0 (Demo.E 1 false) (Demo.command [])
                (Demo.compositor 1) []) as (_ & _ & H).
    apply H. right. exists (-0.05)%Q. in_trace.
Defined.

(** "--divide-geometry": the box is scattered; "--overlap=2": the box is
    broadcast with overlap 2. *)
Lemma distribution_is_last_distribution_option_witness :
  type (last (options (parsed (Demo.E 0 false)
                         (Demo.command ["--divide-geometry"]%string) [])
                DISTRIBUTION)) = DIVIDE
  /\ (2%Q : float Demo.T)
     = fst (strtof (Demo.E 0 false) "2").
Proof.
  split.
  - destruct (distribution_is_last_distribution_option (Demo.E 0 false)
                (Demo.command ["--divide-geometry"]%string)
                (Demo.compositor 0) []) as (H & _).
    apply (H Demo.box). in_trace.
  - destruct (distribution_is_last_distribution_option (Demo.E 0 false)
                (Demo.command ["--overlap=2"]%string)
                (Demo.compositor 0) []) as (_ & H & _).
    destruct (H Demo.box 2%Q) as (_ & _ & Ho); [ in_trace | ].
    apply Ho; reflexivity.
Defined.

(** With no option, rank 0 writes timing.yaml and returns 0. *)
Lemma timing_file_is_written_on_rank_0_witness :
  rank (Demo.E 0 false) = 0
  /\ exit_status (MainLoop (Demo.E 0 false) (Demo.command [])
                    (Demo.compositor 0) []) = Some 0.
Proof.
  destruct (timing_file_is_written_on_rank_0 (Demo.E 0 false) (Demo.command [])
              (Demo.compositor 0) []) as (H & _).
  destruct (H "timing.yaml"%string) as (Hr & Hs & _); [ in_trace | ].
  split; assumption.
Defined.

(** "--help": the usage message goes to standard output. *)
Lemma usage_is_printed_iff_witness :
  In (EvPrintUsage false)
     (trace (MainLoop (Demo.E 0 false) (Demo.command ["--help"]%string)
               (Demo.compositor 0) [])).
Proof.
  destruct (usage_is_printed_iff (Demo.E 0 false)
              (Demo.command ["--help"]%string) (Demo.compositor 0) [])
    as ([_ H] & _).
  apply H. split; reflexivity.
Defined.

(** "--width=640 --height=480". *)
Lemma image_dimensions_are_positive_witness :
  1 <= getWidth (fullScreen (Demo.E 0 false) ImageRGBAUByteColorFloatDepth
                   640 480)
  /\ 1 <= getHeight (fullScreen (Demo.E 0 false) ImageRGBAUByteColorFloatDepth
                       640 480).
Proof.
  destruct (image_dimensions_are_positive (Demo.E 0 false)
              (Demo.command ["--width=640"; "--height=480"]%string)
              (Demo.compositor 0) [] (Forall_nil _)
              (fullScreen (Demo.E 0 false) ImageRGBAUByteColorFloatDepth
                 640 480)) as (Hw & Hh & _); [ in_trace | ].
  split; assumption.
Defined.

(** "--stl-file=bad.stl" on rank 0: MainLoop returns 1. *)
Lemma MainLoop_returns_1_iff_witness :
  exit_status (MainLoop (Demo.E 0 false)
                 (Demo.command ["--stl-file=bad.stl"]%string)
                 (Demo.compositor 0) []) = Some 1.
Proof.
  apply (MainLoop_returns_1_iff (Demo.E 0 false)
           (Demo.command ["--stl-file=bad.stl"]%string)
           (Demo.compositor 0) [] (Forall_nil _)).
  right. right. exists "bad.stl"%string. split; [ in_trace | reflexivity ].
Defined.

(** "--width=100000 --height=100000": the number of pixels does not fit
    an int. *)
Lemma MainLoop_dies_only_of_witness :
  CLib.INT_MAX
  < imageWidthOf (Demo.E 0 false)
      (Demo.command ["--width=100000"; "--height=100000"]%string) []
    * imageHeightOf (Demo.E 0 false)
        (Demo.command ["--width=100000"; "--height=100000"]%string) []
  \/ exists i,
       In (EvCompose i)
          (trace (MainLoop (Demo.E 0 false)
                    (Demo.command ["--width=100000"; "--height=100000"]%string)
                    (Demo.compositor 0) []))
       /\ (compose (Demo.compositor 0) i = None
           \/ exists c,
                compose (Demo.compositor 0) i = Some c
                /\ In (EvGather c 0)
                      (trace (MainLoop (Demo.E 0 false)
                                (Demo.command ["--width=100000";
                                               "--height=100000"]%string)
                                (Demo.compositor 0) []))
                /\ Gather (Demo.E 0 false) c 0 = None).
Proof.
  apply (MainLoop_dies_only_of (Demo.E 0 false)
           (Demo.command ["--width=100000"; "--height=100000"]%string)
           (Demo.compositor 0) [] (Forall_nil _)).
  reflexivity.
Defined.

(** With no option, rank 0 runs to MPI_Finalize and returns 0. *)
Lemma MainLoop_completes_when_witness :
  exit_status (MainLoop (Demo.E 0 false) (Demo.command [])
                 (Demo.compositor 0) []) = Some 0
  /\ In EvMPI_Finalize
        (trace (MainLoop (Demo.E 0 false) (Demo.command [])
                  (Demo.compositor 0) [])).
Proof.
  apply (MainLoop_completes_when (Demo.E 0 false) (Demo.command [])
           (Demo.compositor 0) [] (Forall_nil _)).
  - repeat split.
  - reflexivity.
  - vm_compute. discriminate.
  - intros _ filename H. discriminate H.
  - intros i H. discriminate H.
  - intros c H. discriminate H.
Defined.


(** The pipeline of that run. *)
Lemma run_pipeline_in_order_witness :
  filter is_stage
    (trace (run (Demo.E 0 false) PainterSimple (Demo.compositor 0) Demo.box
              (Demo.image ImageRGBAFloatColorOnly) true))
  = [ EvVisibilitySort Demo.box tt tt;
      EvPaint PainterSimple
        (@mkMesh Demo.T 2 [1; 1; 1; 0; 1; 0; 1; 1]%Q)
        (fullScreen (Demo.E 0 false) ImageRGBAFloatColorOnly 4 2) tt tt;
      EvMPI_Barrier;
      EvCompose (fullScreen (Demo.E 0 false) ImageRGBAFloatColorOnly 4 2);
      EvGather (@mkImage Demo.T ImageRGBAFloatColorOnly 4 2 0 4 tt) 0;
      EvSavePPM (fullScreen (Demo.E 0 false) ImageRGBAFloatColorOnly 4 2)
        "local_painting0.ppm";
      EvSavePPM (fullScreen (Demo.E 0 false) ImageRGBAFloatColorOnly 4 2)
        "composite.ppm" ].
Proof.
  apply (run_pipeline_in_order (Demo.E 0 false) PainterSimple
           (Demo.compositor 0) Demo.box (Demo.image ImageRGBAFloatColorOnly)
           true
           (@mkImage Demo.T ImageRGBAFloatColorOnly 4 2 0 4 tt)
           (fullScreen (Demo.E 0 false) ImageRGBAFloatColorOnly 4 2)).
  - unfold paintable, CLib.INT_MAX. simpl. lia.
  - reflexivity.
  - reflexivity.
Defined.

(** Rank 1 does not save local_painting0.ppm. *)
Lemma ranks_save_under_different_names_witness :
  ~ In (EvSavePPM (fullScreen (Demo.E 1 false) ImageRGBAFloatColorOnly 4 2)
          "local_painting0.ppm")
       (trace (run (Demo.E 1 false) PainterSimple (Demo.compositor 1) Demo.box
                 (Demo.image ImageRGBAFloatColorOnly) true)).
Proof.
  apply (ranks_save_under_different_names (Demo.E 0 false) (Demo.E 1 false)
           PainterSimple PainterSimple (Demo.compositor 0) (Demo.compositor 1)
           Demo.box Demo.box (Demo.image ImageRGBAFloatColorOnly)
           (Demo.image ImageRGBAFloatColorOnly) true true)
    with (i := fullScreen (Demo.E 0 false) ImageRGBAFloatColorOnly 4 2).
  - discriminate.
  - in_trace.
Defined.


(** "--stl-file=bad.stl" on rank 0: the empty mesh is not broadcast. *)
Lemma early_return_precedes_distribution_witness :
  ~ In (@EvMeshBroadcast Demo.T (@mkMesh Demo.T 0 []) (-0.05)%Q)
       (trace (MainLoop (Demo.E 0 false)
                 (Demo.command ["--stl-file=bad.stl"]%string)
                 (Demo.compositor 0) [])).
Proof.
  destruct (early_return_precedes_distribution (Demo.E 0 false)
              (Demo.command ["--stl-file=bad.stl"]%string)
              (Demo.compositor 0) []) as (_ & H).
  apply (H "bad.stl"%string); [ in_trace | reflexivity ].
Defined.

(** "--bogus": MPI is initialized and not finalized. *)
Lemma MPI_is_initialized_once_witness :
  ~ In EvMPI_Finalize
       (trace (MainLoop (Demo.E 0 false) (Demo.command ["--bogus"]%string)
                 (Demo.compositor 0) [])).
Proof.
  destruct (MPI_is_initialized_once (Demo.E 0 false)
              (Demo.command ["--bogus"]%string) (Demo.compositor 0) [])
    as (_ & H).
  apply (H 1). reflexivity.
Defined.

(** "--width=640": the record and the image buffer say 640. *)
Lemma timing_record_tells_the_run_witness :
  getWidth (fullScreen (Demo.E 0 false) ImageRGBAUByteColorFloatDepth 640 900)
  = 640.
Proof.
  destruct (timing_record_tells_the_run (Demo.E 0 false)
              (Demo.command ["--width=640"]%string) (Demo.compositor 0) [])
    as (H & _).
  destruct (H 640 900
              (fullScreen (Demo.E 0 false) ImageRGBAUByteColorFloatDepth
                 640 900)) as (Hw & _); [ in_trace | ].
  apply Hw. in_trace.
Defined.

(** Ranks 0 and 1 with no option: both broadcast, with the same
    overlap. *)
Lemma ranks_agree_on_the_settings_witness :
  ((-0.05)%Q : float Demo.T) = (-0.05)%Q
  /\ ~ In (@EvMeshBroadcast Demo.T (@mkMesh Demo.T 0 []) (-0.05)%Q)
          (trace (MainLoop (Demo.E 1 false)
                    (Demo.command ["--divide-geometry"]%string)
                    (Demo.compositor 1) [])).
Proof.
  split.
  - destruct (ranks_agree_on_the_settings (Demo.E 0 false) (Demo.E 1 false)
                (Demo.command []) (Demo.compositor 0) (Demo.compositor 1) []
                eq_refl eq_refl eq_refl) as (_ & H & _).
    apply (H Demo.box (-0.05)%Q (@mkMesh Demo.T 0 []) (-0.05)%Q); in_trace.
  - destruct (ranks_agree_on_the_settings (Demo.E 0 false) (Demo.E 1 false)
                (Demo.command ["--divide-geometry"]%string)
                (Demo.compositor 0) (Demo.compositor 1) []
                eq_refl eq_refl eq_refl) as (H & _).
    apply (H Demo.box). in_trace.
Defined.

(** A compositor that rejects its options: MPI_Init comes before
    setOptions. *)
Lemma calls_come_in_phase_order_witness :
  (phase (@EvMPI_Init Demo.T) < phase (@EvSetOptions Demo.T))%nat
  \/ (phase (@EvMPI_Init Demo.T) = phase (@EvSetOptions Demo.T)
      /\ repeats (phase (@EvMPI_Init Demo.T)) = true).
Proof.
  destruct (calls_come_in_phase_order (Demo.E 0 false) (Demo.command [])
              Demo.rejecting []
              [EvYaml "composite-algorithm" (YString "binary swap")]
              EvMPI_Init
              [EvYaml "num-processes" (YInt 2); EvSetOptions;
               EvPrintUsage true]
              EvSetOptions) as [H _].
  - reflexivity.
  - right. left. reflexivity.
  - discriminate.
  - discriminate.
  - exact H.
Defined.
